(** * Finite-horizon tracking controller for a Markov jump-linear system

    A shallow embedding of [mexFunction] of
    [mex_FiniteHorizonTrackingController.cpp]: the backward Riccati-like
    sweep that produces, for every stage and mode, a feedback gain and a
    feedforward term.

    Scalars.  The source computes on [double].  The embedding is
    parametric in the scalar type and its operations ([Scalar]); no
    algebraic law is assumed unless a lemma lists it as a hypothesis, so
    the statements do not depend on which arithmetic interprets them.
    Concrete runs use normalised rationals and, where a law has to
    hold for every scalar, integers.

    Armadillo.  [dmat] is a record of its row count and its columns
    (column-major, as in the library), [dcube] a record of its slice
    shape and its slices.  Every size and bounds check that Armadillo
    performs on the operations used by the source is written out and
    raises an [error]; [pinv] belongs to Armadillo and is a parameter of
    the model (it may fail, as the library's does).  A product of three
    factors is taken left to right, as the expression is parsed.

    MATLAB.  The two output arrays are flat buffers of cells that start
    out uninitialised ([None]); the source addresses them through the
    raw pointers [dstL] and [dstFeedforward], modelled as offsets. *)

From Stdlib Require Import ZArith QArith Lia.
From stdpp Require Import base list.

Set Default Proof Using "Type".
Open Scope nat_scope.

(** ** Scalars *)

Class Scalar (F : Type) := {
  zero : F;
  add : F → F → F;
  sub : F → F → F;
  mul : F → F → F;
  opp : F → F
}.

(** ** Failures *)

(** The checks of Armadillo that the source can trip. *)
Inductive arma_check :=
| IncompatibleAddition        (* "addition: incompatible matrix dimensions" *)
| IncompatibleSubtraction     (* "subtraction: incompatible matrix dimensions" *)
| IncompatibleMultiplication  (* "matrix multiplication: incompatible matrix dimensions" *)
| NotSquare                   (* "symmatu(): given matrix must be square sized" *)
| SizeFixed                   (* "Mat::init(): size is fixed and hence cannot be changed" *)
| CopyIntoSubmatrix           (* "copy into submatrix: incompatible matrix dimensions" *)
| IndexOutOfBounds            (* slice(), col(), begin_row(): "index out of bounds" *)
| EachSliceSize               (* "each_slice(): incompatible size" *)
| TailColsSize.               (* "Mat::tail_cols(): size out of bounds" *)

Inductive error :=
| LogicError (c : arma_check)  (* std::logic_error thrown by a check *)
| PinvFailed                   (* std::runtime_error: "pinv(): svd failed" *)
| AllocationFailed             (* lines 53-57 *)
| InvalidAccess.               (* a read or write outside an array: undefined in C++ *)

Inductive outcome (A : Type) :=
| Ok (a : A)
| Err (e : error).
Arguments Ok {A} a.
Arguments Err {A} e.

#[global] Instance outcome_ret : MRet outcome := λ A a, Ok a.
#[global] Instance outcome_bind : MBind outcome := λ A B f m,
  match m with
  | Ok a => f a
  | Err e => Err e
  end.

Definition guard_chk (b : bool) (c : arma_check) : outcome unit :=
  if b then Ok () else Err (LogicError c).

(** A [for] loop over the indices of [l], left to right, that stops at
    the first failure. *)
Fixpoint foldO {A St} (body : St → A → outcome St) (l : list A) (s : St) : outcome St :=
  match l with
  | [] => Ok s
  | a :: l' => body s a ≫= foldO body l'
  end.

(** ** Armadillo matrices and cubes *)

Section Arma.
Context {F : Type} `{Scalar F}.

Record mat := Mat { n_rows : nat; cols : list (list F) }.

Definition n_cols (X : mat) : nat := length (cols X).

(** [X(i,j)] *)
Definition at_ (X : mat) (i j : nat) : F := nth i (nth j (cols X) []) zero.

(** The [r]-by-[c] matrix whose entry [(i,j)] is [f i j]. *)
Definition mk (r c : nat) (f : nat → nat → F) : mat :=
  Mat r (map (λ j, map (λ i, f i j) (seq 0 r)) (seq 0 c)).

Definition dims (X : mat) : nat * nat := (n_rows X, n_cols X).

Definition same_dims (X Y : mat) : bool :=
  (n_rows X =? n_rows Y) && (n_cols X =? n_cols Y).

(** Every column holds [n_rows] entries. *)
Definition wf_mat (X : mat) : bool :=
  forallb (λ c, length c =? n_rows X) (cols X).

(** [zeros<dmat>(r,c)] and [zeros<dcolvec>(r)] *)
Definition zeros (r c : nat) : mat := mk r c (λ _ _, zero).
Definition zeros_vec (r : nat) : mat := zeros r 1.

(** [X.t()] *)
Definition trans (X : mat) : mat := mk (n_cols X) (n_rows X) (λ i j, at_ X j i).

(** [X + Y], [X - Y], [t * X], [-X], entry by entry *)
Definition madd (X Y : mat) : mat :=
  mk (n_rows X) (n_cols X) (λ i j, add (at_ X i j) (at_ Y i j)).
Definition msub (X Y : mat) : mat :=
  mk (n_rows X) (n_cols X) (λ i j, sub (at_ X i j) (at_ Y i j)).
Definition scale (t : F) (X : mat) : mat :=
  mk (n_rows X) (n_cols X) (λ i j, mul t (at_ X i j)).
Definition mneg (X : mat) : mat :=
  mk (n_rows X) (n_cols X) (λ i j, opp (at_ X i j)).

(** [X * Y]: entry [(i,j)] accumulates [X(i,k) * Y(k,j)] over [k]. *)
Definition dot (X Y : mat) (i j : nat) : F :=
  fold_left (λ acc k, add acc (mul (at_ X i k) (at_ Y k j))) (seq 0 (n_cols X)) zero.
Definition mmul (X Y : mat) : mat := mk (n_rows X) (n_cols Y) (dot X Y).

(** [symmatu(X)]: the upper triangle of [X], reflected into the lower one. *)
Definition symmatu (X : mat) : mat :=
  mk (n_rows X) (n_cols X) (λ i j, if i <=? j then at_ X i j else at_ X j i).

(** The checked operations. *)
Definition add_chk (X Y : mat) : outcome mat :=
  if same_dims X Y then Ok (madd X Y) else Err (LogicError IncompatibleAddition).
Definition sub_chk (X Y : mat) : outcome mat :=
  if same_dims X Y then Ok (msub X Y) else Err (LogicError IncompatibleSubtraction).
Definition mul_chk (X Y : mat) : outcome mat :=
  if n_cols X =? n_rows Y then Ok (mmul X Y)
  else Err (LogicError IncompatibleMultiplication).
Definition symmatu_chk (X : mat) : outcome mat :=
  if n_rows X =? n_cols X then Ok (symmatu X) else Err (LogicError NotSquare).

(** [X * Y * Z] *)
Definition times3 (X Y Z : mat) : outcome mat :=
  XY ← mul_chk X Y; mul_chk XY Z.

(** [X.col(j)], read: a column vector. *)
Definition col (X : mat) (j : nat) : outcome mat :=
  match cols X !! j with
  | Some c => Ok (Mat (n_rows X) [c])
  | None => Err (LogicError IndexOutOfBounds)
  end.

(** [X.col(j) = v] *)
Definition set_col (X : mat) (j : nat) (v : mat) : outcome mat :=
  match cols X !! j, cols v with
  | None, _ => Err (LogicError IndexOutOfBounds)
  | Some _, [c] =>
      if n_rows v =? n_rows X then Ok (Mat (n_rows X) (<[j:=c]> (cols X)))
      else Err (LogicError CopyIntoSubmatrix)
  | Some _, _ => Err (LogicError CopyIntoSubmatrix)
  end.

(** [X.tail_cols(1)] *)
Definition tail_cols1 (X : mat) : outcome mat :=
  match last (cols X) with
  | Some c => Ok (Mat (n_rows X) [c])
  | None => Err (LogicError TailColsSize)
  end.

(** [dmat X(r, c); X.each_col() = v]. [each_col] accepts a vector with
    [r] entries. *)
Definition each_col (r c : nat) (v : mat) : outcome mat :=
  match cols v with
  | [x] =>
      if n_rows v =? r then Ok (Mat r (replicate c x))
      else Err (LogicError EachSliceSize)
  | _ => Err (LogicError EachSliceSize)
  end.

Record cube := Cube { c_rows : nat; c_cols : nat; slices : list mat }.

Definition n_slices (C : cube) : nat := length (slices C).

(** All slices have the shape of the cube. *)
Definition wf_cube (C : cube) : bool :=
  forallb (λ X, (n_rows X =? c_rows C) && (n_cols X =? c_cols C) && wf_mat X)
          (slices C).

(** [C.slice(i)], read *)
Definition slice (C : cube) (i : nat) : outcome mat :=
  match slices C !! i with
  | Some X => Ok X
  | None => Err (LogicError IndexOutOfBounds)
  end.

(** [C.slice(i) = X]: the slice aliases the memory of the cube and
    cannot change its size. *)
Definition set_slice (C : cube) (i : nat) (X : mat) : outcome cube :=
  match slices C !! i with
  | None => Err (LogicError IndexOutOfBounds)
  | Some _ =>
      if (n_rows X =? c_rows C) && (n_cols X =? c_cols C)
      then Ok (Cube (c_rows C) (c_cols C) (<[i:=X]> (slices C)))
      else Err (LogicError SizeFixed)
  end.

(** [C.slice(i) += X] *)
Definition slice_add (C : cube) (i : nat) (X : mat) : outcome cube :=
  Y ← slice C i;
  Y' ← add_chk Y X;
  Ok (Cube (c_rows C) (c_cols C) (<[i:=Y']> (slices C))).

(** [dcube C(r, c, s)] *)
Definition new_cube (r c s : nat) : cube := Cube r c (replicate s (zeros r c)).

(** [dcube C(size(D)); C.each_slice() = X] *)
Definition each_slice (r c s : nat) (X : mat) : outcome cube :=
  if (n_rows X =? r) && (n_cols X =? c) then Ok (Cube r c (replicate s X))
  else Err (LogicError EachSliceSize).

(** [*row] for the row iterator of row [j] standing at column [m]; the
    iterator itself is not bounds-checked. *)
Definition row_deref (T : mat) (j m : nat) : outcome F :=
  match cols T !! m with
  | Some c =>
      match c !! j with
      | Some t => Ok t
      | None => Err InvalidAccess
      end
  | None => Err InvalidAccess
  end.

(** [T.begin_row(j)] *)
Definition begin_row (T : mat) (j : nat) : outcome unit :=
  guard_chk (j <? n_rows T) IndexOutOfBounds.

End Arma.

Arguments mat F : clear implicits.
Arguments cube F : clear implicits.

(** ** MATLAB arrays and the state of a call *)

Section Matlab.
Context {F : Type}.

(** A numeric array of MATLAB: its dimensions and its cells, in MATLAB's
    column-major order.  A cell of an array made by
    [mxCreateUninitNumericArray] holds nothing until it is written. *)
Record mxArray := MxArray { mx_dims : list Z; mx_pr : list (option F) }.

(** [outputArrays[0]] and [outputArrays[1]] *)
Record heap := Heap { out0 : option mxArray; out1 : option mxArray }.

Definition no_outputs : heap := Heap None None.

(** Computations that read and write the output arrays and may fail;
    a failure keeps the arrays as they are at that point. *)
Definition mex (A : Type) : Type := heap → heap * outcome A.

#[global] Instance mex_ret : MRet mex := λ A a h, (h, Ok a).
#[global] Instance mex_bind : MBind mex := λ A B f m h,
  match m h with
  | (h', Ok a) => f a h'
  | (h', Err e) => (h', Err e)
  end.

Definition lift {A} (o : outcome A) : mex A := λ h, (h, o).

Fixpoint foldM {A St} (body : St → A → mex St) (l : list A) (s : St) : mex St :=
  match l with
  | [] => mret s
  | a :: l' => body s a ≫= foldM body l'
  end.

(** [static_cast<size_t>] of an [int] *)
Definition to_size_t (z : Z) : Z := (z mod 2 ^ 64)%Z.

Definition numel (d : list Z) : Z := foldr Z.mul 1%Z d.

(** Writing [vals] through a pointer that stands [off] cells into the
    array. *)
Definition store (a : mxArray) (off : Z) (vals : list F) : outcome mxArray :=
  if ((0 <=? off)%Z && (off + Z.of_nat (length vals) <=? Z.of_nat (length (mx_pr a)))%Z)%bool
  then Ok (MxArray (mx_dims a) (list_inserts (Z.to_nat off) (Some <$> vals) (mx_pr a)))
  else Err InvalidAccess.

Definition store0 (off : Z) (vals : list F) : mex unit := λ h,
  match out0 h with
  | None => (h, Err InvalidAccess)
  | Some a =>
      match store a off vals with
      | Ok a' => (Heap (Some a') (out1 h), Ok ())
      | Err e => (h, Err e)
      end
  end.

Definition store1 (off : Z) (vals : list F) : mex unit := λ h,
  match out1 h with
  | None => (h, Err InvalidAccess)
  | Some a =>
      match store a off vals with
      | Ok a' => (Heap (out0 h) (Some a'), Ok ())
      | Err e => (h, Err e)
      end
  end.

(** The [len] cells from cell [off] on, when all of them exist and have
    been written. *)
Definition load (a : mxArray) (off len : nat) : option (list F) :=
  let cells := take len (drop off (mx_pr a)) in
  if length cells =? len then mapM id cells else None.

End Matlab.

Arguments mxArray F : clear implicits.
Arguments heap F : clear implicits.
Arguments mex F A : clear implicits.

(** ** The controller: [mexFunction] *)

Section Controller.
Context {F : Type} `{Scalar F}.

(** [pinv] of Armadillo; [None] when it throws. *)
Variable pinv : mat F → option (mat F).

(** Whether MATLAB can provide an array of the given dimensions. *)
Variable mx_can_alloc : list Z → bool.

Definition pinv_chk (X : mat F) : outcome (mat F) :=
  match pinv X with
  | Some Y => Ok Y
  | None => Err PinvFailed
  end.

Definition mxCreateUninitNumericArray (d : list Z) : option (mxArray F) :=
  if mx_can_alloc d then Some (MxArray d (replicate (Z.to_nat (numel d)) None))
  else None.

(** The nine arguments, lines 37-45. *)
Record inputs := Inputs {
  augA : cube F;
  augB : cube F;
  augQ : cube F;
  augR : cube F;
  transitionMatrix : mat F;
  terminalK : mat F;
  horizonLength : Z;
  Qref : mat F;
  refWeightings : mat F
}.

(** The per-mode quantities of lines 81-85. *)
Record per_mode := PerMode {
  QAKA : cube F;
  RBKB : cube F;
  BKA : cube F;
  Asigma : mat F;
  Bsigma : mat F
}.

(** The mixtures of lines 101-105. *)
Record mixture := Mixture {
  P1 : mat F;
  P2 : mat F;
  P3 : mat F;
  s1 : mat F;
  s2 : mat F
}.

(** The value-function state [(K_k, sigma_k)]. *)
Definition vf_state : Type := cube F * mat F.

Section Call.
Variable inp : inputs.

Definition numModes : nat := n_slices (augA inp).

(** Lines 81-85. *)
Definition per_mode_init : per_mode :=
  PerMode (augQ inp) (augR inp)
          (new_cube (c_cols (augB inp)) (c_rows (augA inp)) numModes)
          (zeros (c_cols (augA inp)) numModes)
          (zeros (c_cols (augB inp)) numModes).

(** The body of the loop of lines 87-93, for mode [i]. *)
Definition per_mode_step (K_prev : cube F) (sigma_prev : mat F)
    (t : per_mode) (i : nat) : outcome per_mode :=
  A_i ← slice (augA inp) i;
  K_i ← slice K_prev i;
  AKA ← times3 (trans A_i) K_i A_i;
  AKA' ← symmatu_chk AKA;
  QAKA' ← slice_add (QAKA t) i AKA';
  B_i ← slice (augB inp) i;
  BKB ← times3 (trans B_i) K_i B_i;
  BKB' ← symmatu_chk BKB;
  RBKB' ← slice_add (RBKB t) i BKB';
  BKA_i ← times3 (trans B_i) K_i A_i;
  BKA' ← set_slice (BKA t) i BKA_i;
  sigma_i ← col sigma_prev i;
  As ← mul_chk (trans A_i) sigma_i;
  Asigma' ← set_col (Asigma t) i As;
  Bs ← mul_chk (trans B_i) sigma_i;
  Bsigma' ← set_col (Bsigma t) i Bs;
  Ok (PerMode QAKA' RBKB' BKA' Asigma' Bsigma').

Definition per_mode_loop (K_prev : cube F) (sigma_prev : mat F) : outcome per_mode :=
  foldO (per_mode_step K_prev sigma_prev) (seq 0 numModes) per_mode_init.

(** Lines 101-105. *)
Definition mixture_init (t : per_mode) : mixture :=
  Mixture (zeros (c_rows (augA inp)) (c_cols (augA inp)))
          (zeros (c_cols (augB inp)) (c_rows (augA inp)))
          (zeros (c_rows (augR inp)) (c_cols (augR inp)))
          (zeros_vec (n_cols (Asigma t)))
          (zeros_vec (n_cols (Bsigma t))).

(** The body of the loop of lines 107-113: [row] stands at column [m]
    of row [j] of the transition matrix. *)
Definition mixture_step (t : per_mode) (j : nat) (x : mixture) (m : nat)
    : outcome mixture :=
  w ← row_deref (transitionMatrix inp) j m;
  Q_m ← slice (QAKA t) m;
  P1' ← add_chk (P1 x) (scale w Q_m);
  B_m ← slice (BKA t) m;
  P2' ← add_chk (P2 x) (scale w B_m);
  R_m ← slice (RBKB t) m;
  P3' ← add_chk (P3 x) (scale w R_m);
  a_m ← col (Asigma t) m;
  s1' ← add_chk (s1 x) (scale w a_m);
  b_m ← col (Bsigma t) m;
  s2' ← add_chk (s2 x) (scale w b_m);
  Ok (Mixture P1' P2' P3' s1' s2').

(** Lines 99-113. *)
Definition mixture_loop (t : per_mode) (j : nat) : outcome mixture :=
  _ ← begin_row (transitionMatrix inp) j;
  foldO (mixture_step t j) (seq 0 numModes) (mixture_init t).

(** Line 114. *)
Definition update_K (x : mixture) : outcome (mat F) :=
  Pi ← pinv_chk (P3 x);
  X ← times3 (trans (P2 x)) Pi (P2 x);
  X' ← symmatu_chk X;
  sub_chk (P1 x) X'.

(** Line 115. *)
Definition update_sigma (k : nat) (x : mixture) : outcome (mat F) :=
  r_k ← col (refWeightings inp) k;
  a ← add_chk r_k (s1 x);
  Pi ← pinv_chk (P3 x);
  y ← times3 (trans (P2 x)) Pi (s2 x);
  sub_chk a y.

(** Line 116, right-hand side. *)
Definition gain (x : mixture) : outcome (mat F) :=
  Pi ← pinv_chk (P3 x);
  mul_chk (mneg Pi) (P2 x).

(** Line 117, right-hand side. *)
Definition feedforward (x : mixture) : outcome (mat F) :=
  Pi ← pinv_chk (P3 x);
  mul_chk Pi (s2 x).

(** [L.slice(j) = G], where [L] is the cube of line 95 laid over the
    cells at [dstL]. *)
Definition store_L_slice (dstL : Z) (j : nat) (G : mat F) : mex F unit :=
  let p := c_rows (augR inp) in
  let n := c_rows (augA inp) in
  _ ← lift (guard_chk ((n_rows G =? p) && (n_cols G =? n)) SizeFixed);
  store0 (dstL + Z.of_nat (j * (p * n))) (mjoin (cols G)).

(** [feedforward.col(j) = f], where [feedforward] is the matrix of
    line 96 laid over the cells at [dstFeedforward]. *)
Definition store_feedforward_col (dstFeedforward : Z) (j : nat) (f : mat F)
    : mex F unit :=
  let p := c_rows (augR inp) in
  _ ← lift (guard_chk ((n_rows f =? p) && (n_cols f =? 1)) CopyIntoSubmatrix);
  store1 (dstFeedforward + Z.of_nat (j * p)) (mjoin (cols f)).

(** The body of the loop of lines 98-118, for the current mode [j]. *)
Definition current_mode (k : nat) (dstL dstFeedforward : Z) (t : per_mode)
    (vf : vf_state) (j : nat) : mex F vf_state :=
  x ← lift (mixture_loop t j);
  K_k' ← lift (K_j ← update_K x; set_slice vf.1 j K_j);
  sigma_k' ← lift (sigma_j ← update_sigma k x; set_col vf.2 j sigma_j);
  G ← lift (gain x);
  _ ← store_L_slice dstL j G;
  f ← lift (feedforward x);
  _ ← store_feedforward_col dstFeedforward j f;
  mret (K_k', sigma_k').

(** The body of the loop of lines 74-119, for stage [k]: the per-mode
    quantities are computed from the copies [K_prev], [sigma_prev] taken
    at lines 78-79. *)
Definition stage (k : nat) (dstL dstFeedforward : Z) (vf : vf_state)
    : mex F vf_state :=
  let K_prev := vf.1 in
  let sigma_prev := vf.2 in
  t ← lift (per_mode_loop K_prev sigma_prev);
  foldM (current_mode k dstL dstFeedforward t) (seq 0 numModes) vf.

(** The number of cells of one stage of each output. *)
Definition L_stride : Z :=
  Z.of_nat (c_rows (augR inp) * c_rows (augA inp) * numModes).
Definition feedforward_stride : Z :=
  Z.of_nat (c_rows (augR inp) * numModes).

(** The loop of lines 74-119 with [k + 1 = k1] stages still to do. *)
Fixpoint stage_loop (k1 : nat) (dstL dstFeedforward : Z) (vf : vf_state)
    : mex F vf_state :=
  match k1 with
  | 0 => mret vf
  | S k =>
      vf' ← stage k dstL dstFeedforward vf;
      stage_loop k (dstL - L_stride) (dstFeedforward - feedforward_stride) vf'
  end.

(** Lines 49-58. *)
Definition create_outputs : mex F unit := λ _,
  let p := Z.of_nat (c_rows (augR inp)) in
  let n := Z.of_nat (c_rows (augA inp)) in
  let M := Z.of_nat numModes in
  let N := to_size_t (horizonLength inp) in
  let a0 := mxCreateUninitNumericArray [p; n; M; N] in
  let a1 := mxCreateUninitNumericArray [p; M; N] in
  match a0, a1 with
  | Some _, Some _ => (Heap a0 a1, Ok ())
  | _, _ => (Heap a0 a1, Err AllocationFailed)
  end.

(** Lines 61-66. *)
Definition initial_state : outcome vf_state :=
  K_k ← each_slice (c_rows (augA inp)) (c_cols (augA inp)) numModes (terminalK inp);
  last_col ← tail_cols1 (refWeightings inp);
  sigma_k ← each_col (n_rows (refWeightings inp)) numModes last_col;
  Ok (K_k, sigma_k).

Definition mexFunction : mex F unit :=
  _ ← create_outputs;
  vf ← lift initial_state;
  let dstL := ((horizonLength inp - 1) * L_stride)%Z in
  let dstFeedforward := ((horizonLength inp - 1) * feedforward_stride)%Z in
  _ ← stage_loop (Z.to_nat (horizonLength inp)) dstL dstFeedforward vf;
  mret ().

(** The first [cnt] iterations of the loop of lines 74-119, entered
    with [k1] stages to do: the loop stopped on entry to stage
    [k1 - 1 - cnt]. *)
Fixpoint stage_loop_prefix (cnt k1 : nat) (dstL dstFeedforward : Z)
    (vf : vf_state) : mex F vf_state :=
  match cnt, k1 with
  | S c, S k =>
      vf' ← stage k dstL dstFeedforward vf;
      stage_loop_prefix c k (dstL - L_stride) (dstFeedforward - feedforward_stride) vf'
  | _, _ => mret vf
  end.

(** The call, stopped on entry to the iteration of stage [k]: what it
    yields is the value-function state of stage [k + 1]. *)
Definition state_before_stage (k : nat) : mex F vf_state :=
  _ ← create_outputs;
  vf ← lift initial_state;
  let dstL := ((horizonLength inp - 1) * L_stride)%Z in
  let dstFeedforward := ((horizonLength inp - 1) * feedforward_stride)%Z in
  stage_loop_prefix (Z.to_nat (horizonLength inp) - 1 - k)
                    (Z.to_nat (horizonLength inp)) dstL dstFeedforward vf.

(** The call, stopped when the iteration of stage [k] is over. *)
Definition state_after_stage (k : nat) : mex F vf_state :=
  _ ← create_outputs;
  vf ← lift initial_state;
  let dstL := ((horizonLength inp - 1) * L_stride)%Z in
  let dstFeedforward := ((horizonLength inp - 1) * feedforward_stride)%Z in
  stage_loop_prefix (Z.to_nat (horizonLength inp) - k)
                    (Z.to_nat (horizonLength inp)) dstL dstFeedforward vf.

End Call.
End Controller.

(** ** What a call leaves in the output arrays *)

Section Emitted.
Context {F : Type} `{Scalar F}.
Variable inp : inputs (F:=F).

(** The [c]-th matrix of [p*n] cells of [outputArrays[0]], column by
    column, provided all its cells have been written. *)
Definition gain_block (h : heap F) (c : nat) : option (mat F) :=
  let p := c_rows (augR inp) in
  let n := c_rows (augA inp) in
  a ← out0 h;
  cells ← load a (c * (p * n)) (p * n);
  Some (Mat p (reshape (replicate n p) cells)).

(** The [c]-th vector of [p] cells of [outputArrays[1]]. *)
Definition feedforward_block (h : heap F) (c : nat) : option (mat F) :=
  let p := c_rows (augR inp) in
  a ← out1 h;
  cells ← load a (c * p) p;
  Some (Mat p [cells]).

(** [L(:,:,j+1,k+1)] and [feedforward(:,j+1,k+1)] in MATLAB's
    indexing of the arrays of dimensions [p,n,numModes,N] and
    [p,numModes,N]: the gain and the feedforward term of stage [k] and
    mode [j]. *)
Definition emitted_gain (h : heap F) (k j : nat) : option (mat F) :=
  gain_block h (k * numModes inp + j).
Definition emitted_feedforward (h : heap F) (k j : nat) : option (mat F) :=
  feedforward_block h (k * numModes inp + j).

End Emitted.

(** ** The formulas of the recursion

    The quantities of one stage as functions of the inputs and of the
    value-function state [(K_next, sigma_next)] of the following stage,
    written with the unchecked operations. *)

Section Formulas.
Context {F : Type} `{Scalar F}.
Variable pinv : mat F → option (mat F).
Variable inp : inputs (F:=F).

Definition slice_of (C : cube F) (m : nat) : mat F :=
  default (zeros 0 0) (slices C !! m).

Definition col_of (X : mat F) (m : nat) : mat F :=
  Mat (n_rows X) [default [] (cols X !! m)].

(** [Σ_m w(m)·X(m)] over the modes [m < M]: accumulated, in the order
    of the modes, onto the zero matrix of the shape of the summands. *)
Definition mix_step (w : nat → F) (X : nat → mat F) (acc : mat F) (m : nat) : mat F :=
  madd acc (scale (w m) (X m)).
Definition mix (w : nat → F) (X : nat → mat F) (M : nat) : mat F :=
  fold_left (mix_step w X) (seq 0 M) (zeros (n_rows (X 0)) (n_cols (X 0))).

Section Next.
Variable K_next : cube F.
Variable sigma_next : mat F.

Definition A_ (m : nat) : mat F := slice_of (augA inp) m.
Definition B_ (m : nat) : mat F := slice_of (augB inp) m.
Definition Q_ (m : nat) : mat F := slice_of (augQ inp) m.
Definition R_ (m : nat) : mat F := slice_of (augR inp) m.
Definition T_ (j m : nat) : F := at_ (transitionMatrix inp) j m.

Definition QAKA_of (m : nat) : mat F :=
  madd (Q_ m) (symmatu (mmul (mmul (trans (A_ m)) (slice_of K_next m)) (A_ m))).
Definition RBKB_of (m : nat) : mat F :=
  madd (R_ m) (symmatu (mmul (mmul (trans (B_ m)) (slice_of K_next m)) (B_ m))).
Definition BKA_of (m : nat) : mat F :=
  mmul (mmul (trans (B_ m)) (slice_of K_next m)) (A_ m).
Definition Asigma_of (m : nat) : mat F :=
  mmul (trans (A_ m)) (col_of sigma_next m).
Definition Bsigma_of (m : nat) : mat F :=
  mmul (trans (B_ m)) (col_of sigma_next m).

Definition P1_of (j : nat) : mat F := mix (T_ j) QAKA_of (numModes inp).
Definition P2_of (j : nat) : mat F := mix (T_ j) BKA_of (numModes inp).
Definition P3_of (j : nat) : mat F := mix (T_ j) RBKB_of (numModes inp).
Definition s1_of (j : nat) : mat F := mix (T_ j) Asigma_of (numModes inp).
Definition s2_of (j : nat) : mat F := mix (T_ j) Bsigma_of (numModes inp).

(** [-pinv(P3)·P2] and [pinv(P3)·s2] *)
Definition gain_of (j : nat) : option (mat F) :=
  Pi ← pinv (P3_of j); Some (mmul (mneg Pi) (P2_of j)).
Definition feedforward_of (j : nat) : option (mat F) :=
  Pi ← pinv (P3_of j); Some (mmul Pi (s2_of j)).

(** [P1 - symmatu(P2ᵗ·pinv(P3)·P2)] and
    [RefWeightings[:,k] + s1 - P2ᵗ·pinv(P3)·s2] *)
Definition K_of (j : nat) : option (mat F) :=
  Pi ← pinv (P3_of j);
  Some (msub (P1_of j) (symmatu (mmul (mmul (trans (P2_of j)) Pi) (P2_of j)))).
Definition sigma_of (k j : nat) : option (mat F) :=
  Pi ← pinv (P3_of j);
  Some (msub (madd (col_of (refWeightings inp) k) (s1_of j))
             (mmul (mmul (trans (P2_of j)) Pi) (s2_of j))).

End Next.
End Formulas.

(** ** Properties used to state the results *)

Section Properties.
Context {F : Type} `{Scalar F}.
Variable pinv : mat F → option (mat F).
Variable inp : inputs (F:=F).

(** [X = Xᵗ] *)
Definition symmetric (X : mat F) : Prop := trans X = X.

Definition sym_entries (X : mat F) : Prop := ∀ i j, at_ X i j = at_ X j i.

(** Every state cost [Q[m]] is symmetric. *)
Definition symmetric_Q : Prop :=
  ∀ m Q_m, slices (augQ inp) !! m = Some Q_m → symmetric Q_m.

(** A computation whose only failures are failed checks of Armadillo. *)
Definition logic_only {A} (o : outcome A) : Prop :=
  ∀ e, o = Err e → ∃ c, e = LogicError c.

(** The blocks outside [S] read the same in [h'] as in [h]. *)
Definition same_outside (S : nat → Prop) (h h' : heap F) : Prop :=
  ∀ c, ¬ S c →
    gain_block inp h' c = gain_block inp h c ∧
    feedforward_block inp h' c = feedforward_block inp h c.

(** [m] writes at most the blocks in [S], whatever its outcome. *)
Definition frame {A} (S : nat → Prop) (m : mex F A) : Prop :=
  ∀ h h' r, m h = (h', r) → same_outside S h h'.

Section OneStage.
Variable k : nat.
Variable K_prev : cube F.
Variable sigma_prev : mat F.

(** After the iterations for the modes below [i]. *)
Record per_mode_inv (i : nat) (t : per_mode) : Prop := {
  inv_QAKA_done : ∀ m, m < i → slices (QAKA t) !! m = Some (QAKA_of inp K_prev m);
  inv_QAKA_todo : ∀ m, i ≤ m → slices (QAKA t) !! m = slices (augQ inp) !! m;
  inv_RBKB_done : ∀ m, m < i → slices (RBKB t) !! m = Some (RBKB_of inp K_prev m);
  inv_RBKB_todo : ∀ m, i ≤ m → slices (RBKB t) !! m = slices (augR inp) !! m;
  inv_BKA_done : ∀ m, m < i → slices (BKA t) !! m = Some (BKA_of inp K_prev m);
  inv_Asigma_done : ∀ m, m < i → col (Asigma t) m = Ok (Asigma_of inp sigma_prev m);
  inv_Asigma_rows : n_rows (Asigma t) = c_cols (augA inp);
  inv_Asigma_cols : n_cols (Asigma t) = numModes inp;
  inv_Bsigma_done : ∀ m, m < i → col (Bsigma t) m = Ok (Bsigma_of inp sigma_prev m);
  inv_Bsigma_rows : n_rows (Bsigma t) = c_cols (augB inp);
  inv_Bsigma_cols : n_cols (Bsigma t) = numModes inp
}.

(** What the iteration for mode [j] leaves behind. *)
Record mode_done (j : nat) (vf : vf_state) (h : heap F) : Prop := {
  done_K : ∃ K_j, K_of pinv inp K_prev j = Some K_j ∧ slice vf.1 j = Ok K_j;
  done_sigma : ∃ sigma_j,
    sigma_of pinv inp K_prev sigma_prev k j = Some sigma_j ∧
    col vf.2 j = Ok sigma_j;
  done_gain : ∃ G,
    gain_of pinv inp K_prev j = Some G ∧ gain_block inp h (k * numModes inp + j) = Some G;
  done_feedforward : ∃ f,
    feedforward_of pinv inp K_prev sigma_prev j = Some f ∧
    feedforward_block inp h (k * numModes inp + j) = Some f
}.

End OneStage.

(** The same inputs with another [Qref]. *)
Definition with_Qref (Q' : mat F) : inputs :=
  Inputs (augA inp) (augB inp) (augQ inp) (augR inp) (transitionMatrix inp)
         (terminalK inp) (horizonLength inp) Q' (refWeightings inp).

(** The same system with one more stage, whose reference weightings
    are those of [inp] with the column [c] put in front. *)
Definition extend_horizon (c : list F) : inputs :=
  Inputs (augA inp) (augB inp) (augQ inp) (augR inp) (transitionMatrix inp)
         (terminalK inp) (horizonLength inp + 1) (Qref inp)
         (Mat (n_rows (refWeightings inp)) (c :: cols (refWeightings inp))).

(** The shape of a cube: [s] slices, all [r]-by-[c]. *)
Definition cube_is (r c s : nat) (C : cube F) : bool :=
  (c_rows C =? r) && (c_cols C =? c) && (n_slices C =? s) && wf_cube C.
Definition mat_is (r c : nat) (X : mat F) : bool :=
  (n_rows X =? r) && (n_cols X =? c) && wf_mat X.

(** The preconditions of the specification (section 4.1) for state
    dimension [n] and input dimension [p]: at least one mode; [A[i]],
    [Q[i]] are [n]-by-[n], [B[i]] is [n]-by-[p], [R[i]] is [p]-by-[p];
    the transition matrix is square of the size of the modes; the
    terminal cost is [n]-by-[n]; the reference weightings have [n] rows
    and at least [horizonLength + 1] columns; [horizonLength] is at
    least 1 (and an [int]). *)
Definition preconditions (n p : nat) : bool :=
  let M := numModes inp in
  (1 <=? M)
  && cube_is n n M (augA inp) && cube_is n p M (augB inp)
  && cube_is n n M (augQ inp) && cube_is p p M (augR inp)
  && mat_is M M (transitionMatrix inp) && mat_is n n (terminalK inp)
  && (n_rows (refWeightings inp) =? n) && wf_mat (refWeightings inp)
  && (Z.to_nat (horizonLength inp) + 1 <=? n_cols (refWeightings inp))
  && (1 <=? horizonLength inp)%Z && (horizonLength inp <? 2 ^ 31)%Z.

(** [pinv] never throws and gives a matrix of the transposed shape. *)
Definition pinv_total : Prop :=
  ∀ X, ∃ Y, pinv X = Some Y ∧ n_rows Y = n_cols X ∧ n_cols Y = n_rows X.

(** The second equation of Penrose: [X·A·X = X] for [X = pinv(A)]. *)
Definition penrose_second : Prop :=
  ∀ A X, pinv A = Some X → mmul (mmul X A) X = X.

(** MATLAB has room for both outputs. *)
Definition room_for_outputs (mx_can_alloc : list Z → bool) : bool :=
  mx_can_alloc [Z.of_nat (c_rows (augR inp)); Z.of_nat (c_rows (augA inp));
                Z.of_nat (numModes inp); to_size_t (horizonLength inp)]
  && mx_can_alloc [Z.of_nat (c_rows (augR inp)); Z.of_nat (numModes inp);
                   to_size_t (horizonLength inp)].

(** Shapes kept along a call. *)
Definition cube_shape (r c s : nat) (C : cube F) : Prop :=
  c_rows C = r ∧ c_cols C = c ∧ n_slices C = s ∧
  ∀ m X, slices C !! m = Some X → n_rows X = r ∧ n_cols X = c.

Definition state_shape (n M : nat) (vf : vf_state (F:=F)) : Prop :=
  cube_shape n n M vf.1 ∧ n_rows vf.2 = n ∧ n_cols vf.2 = M.

Definition per_mode_shape (n p M : nat) (t : per_mode (F:=F)) : Prop :=
  cube_shape n n M (QAKA t) ∧ cube_shape p p M (RBKB t) ∧
  cube_shape p n M (BKA t) ∧
  (n_rows (Asigma t) = n ∧ n_cols (Asigma t) = M) ∧
  (n_rows (Bsigma t) = p ∧ n_cols (Bsigma t) = M).

Definition mixture_shape (n p : nat) (x : mixture (F:=F)) : Prop :=
  (n_rows (P1 x) = n ∧ n_cols (P1 x) = n) ∧
  (n_rows (P2 x) = p ∧ n_cols (P2 x) = n) ∧
  (n_rows (P3 x) = p ∧ n_cols (P3 x) = p) ∧
  (n_rows (s1 x) = n ∧ n_cols (s1 x) = 1) ∧
  (n_rows (s2 x) = p ∧ n_cols (s2 x) = 1).

Definition heap_shape (cells0 cells1 : nat) (h : heap F) : Prop :=
  ∃ a0 a1, out0 h = Some a0 ∧ length (mx_pr a0) = cells0 ∧
           out1 h = Some a1 ∧ length (mx_pr a1) = cells1.

End Properties.

(** ** The claims as the specification words them *)

Section Claimed.
Context {F : Type} `{Scalar F}.
Variable pinv : mat F → option (mat F).

(** Halving, for [sym]. *)
Variable half : F → F.
Variable inp : inputs (F:=F).

(** [sym(X) = (X + Xᵗ)/2] *)
Definition sym_avg (X : mat F) : mat F :=
  mk (n_rows X) (n_cols X) (λ i j, half (add (at_ X i j) (at_ X j i))).

Section Next.
Variable K_next : cube F.

Definition claimed_QAKA_of (m : nat) : mat F :=
  madd (Q_ inp m)
       (sym_avg (mmul (mmul (trans (A_ inp m)) (slice_of K_next m)) (A_ inp m))).
Definition claimed_RBKB_of (m : nat) : mat F :=
  madd (R_ inp m)
       (sym_avg (mmul (mmul (trans (B_ inp m)) (slice_of K_next m)) (B_ inp m))).
Definition claimed_P1_of (j : nat) : mat F :=
  mix (T_ inp j) claimed_QAKA_of (numModes inp).
Definition claimed_P3_of (j : nat) : mat F :=
  mix (T_ inp j) claimed_RBKB_of (numModes inp).

(** C1 as worded: [-pinv(P3)·P2] with [sym] inside [P3]. *)
Definition claimed_gain_of (j : nat) : option (mat F) :=
  Pi ← pinv (claimed_P3_of j); Some (mmul (mneg Pi) (P2_of inp K_next j)).

(** C5 as worded: [sym(P1 - P2ᵗ·pinv(P3)·P2)]. *)
Definition claimed_K_of (j : nat) : option (mat F) :=
  Pi ← pinv (claimed_P3_of j);
  Some (sym_avg (msub (claimed_P1_of j)
                      (mmul (mmul (trans (P2_of inp K_next j)) Pi)
                            (P2_of inp K_next j)))).

End Next.
End Claimed.

(** The single-mode recursion that C8 names: the finite-horizon
    linear-quadratic tracking recursion of one system [(A, B, Q, R)],
    run backwards from [(K, σ)] over the stages [k1 - 1, ..., 0]; it
    yields the gain and the feedforward term of every stage, stage [0]
    first. *)
Section SingleMode.
Context {F : Type} `{Scalar F}.
Variable pinv : mat F → option (mat F).
Variables A B Q R refW : mat F.

Fixpoint standard_recursion (k1 : nat) (K sigma : mat F)
    : option (list (mat F * mat F)) :=
  match k1 with
  | 0 => Some []
  | S k =>
      let BKA := mmul (mmul (trans B) K) A in
      let Bs := mmul (trans B) sigma in
      Pi ← pinv (madd R (mmul (mmul (trans B) K) B));
      let K' := msub (madd Q (mmul (mmul (trans A) K) A))
                     (mmul (mmul (trans BKA) Pi) BKA) in
      let sigma' := msub (madd (col_of refW k) (mmul (trans A) sigma))
                         (mmul (mmul (trans BKA) Pi) Bs) in
      rest ← standard_recursion k K' sigma';
      Some (rest ++ [(mmul (mneg Pi) BKA, mmul Pi Bs)])
  end.

End SingleMode.

(** ** Notions for the behaviour of the call as a whole *)

(** A computation all of whose failures are in [P]. *)
Definition fails_only {A} (P : error → Prop) (o : outcome A) : Prop :=
  ∀ e, o = Err e → P e.

Section Whole.
Context {F : Type} `{Scalar F}.

(** Both arrays exist, with the dimensions [d0], [d1] and [c0], [c1]
    cells. *)
Definition heap_layout (d0 : list Z) (c0 : nat) (d1 : list Z) (c1 : nat)
    (h : heap F) : Prop :=
  ∃ a0 a1,
    out0 h = Some a0 ∧ mx_dims a0 = d0 ∧ length (mx_pr a0) = c0 ∧
    out1 h = Some a1 ∧ mx_dims a1 = d1 ∧ length (mx_pr a1) = c1.

(** From a state of the arrays in [I], the computation ends in [I], and
    fails in [P] only. *)
Definition mex_safe (I : heap F → Prop) (P : error → Prop) {A} (m : mex F A)
    : Prop :=
  ∀ h h' r, I h → m h = (h', r) → I h' ∧ ∀ e, r = Err e → P e.

(** No cell of the array has been written. *)
Definition unwritten (a : mxArray F) : Prop :=
  Forall (λ cell, cell = None) (mx_pr a).

(** Every entry is zero. *)
Definition zero_entries (X : mat F) : Prop := ∀ i j, at_ X i j = zero.

(** The same inputs with other reference weightings. *)
Definition with_refWeightings (inp : inputs (F:=F)) (W : mat F)
    : inputs (F:=F) :=
  Inputs (augA inp) (augB inp) (augQ inp) (augR inp) (transitionMatrix inp)
         (terminalK inp) (horizonLength inp) (Qref inp) W.

(** The same inputs with another transition matrix. *)
Definition with_transitionMatrix (inp : inputs (F:=F)) (T : mat F)
    : inputs (F:=F) :=
  Inputs (augA inp) (augB inp) (augQ inp) (augR inp) T
         (terminalK inp) (horizonLength inp) (Qref inp) (refWeightings inp).

(** The same inputs with another horizon. *)
Definition with_horizonLength (inp : inputs (F:=F)) (N : Z) : inputs (F:=F) :=
  Inputs (augA inp) (augB inp) (augQ inp) (augR inp) (transitionMatrix inp)
         (terminalK inp) N (Qref inp) (refWeightings inp).

(** The same inputs with another terminal cost. *)
Definition with_terminalK (inp : inputs (F:=F)) (K : mat F) : inputs (F:=F) :=
  Inputs (augA inp) (augB inp) (augQ inp) (augR inp) (transitionMatrix inp)
         K (horizonLength inp) (Qref inp) (refWeightings inp).

(** C6 as worded: in every mode, [σ] starts as the column of index
    [horizonLength] of the reference weightings. *)
Definition claimed_initial_sigma (inp : inputs (F:=F)) : mat F :=
  Mat (n_rows (refWeightings inp))
      (replicate (numModes inp)
         (default [] (cols (refWeightings inp)
                        !! Z.to_nat (horizonLength inp)))).

(** The terminal cost has the shape of the slices of [augA]. *)
Definition terminal_shape (inp : inputs (F:=F)) : Prop :=
  n_rows (terminalK inp) = c_rows (augA inp) ∧
  n_cols (terminalK inp) = c_cols (augA inp).

End Whole.

(** ** Runs on rational numbers *)

(** Rationals kept in lowest terms, so that equal numbers are equal
    terms. *)
#[global] Instance Q_scalar : Scalar Q := {|
  zero := 0%Q;
  add := λ a b, Qred (a + b);
  sub := λ a b, Qred (a - b);
  mul := λ a b, Qred (a * b);
  opp := λ a, Qred (- a)
|}.

Definition halfQ (a : Q) : Q := Qred (a / 2).

Definition is_zeroQ (X : mat Q) : bool :=
  forallb (forallb (λ q, Qeq_bool q 0)) (cols X).

Definition stack_row (X b : mat Q) : mat Q :=
  mk (S (n_rows X)) (n_cols b)
     (λ i j, if i <? n_rows X then at_ X i j else at_ b 0 j).

(** One step of Greville's method: from the pseudo-inverse [Akp] of the
    first columns [Ak] to that of [Ak] with the column [a] added. *)
Definition greville_step (st : mat Q * mat Q) (a : list Q) : mat Q * mat Q :=
  let '(Ak, Akp) := st in
  let av := Mat (n_rows Ak) [a] in
  let d := mmul Akp av in
  let c := msub av (mmul Ak d) in
  let b :=
    if is_zeroQ c
    then scale (Qred (/ (1 + at_ (mmul (trans d) d) 0 0))) (mmul (trans d) Akp)
    else scale (Qred (/ (at_ (mmul (trans c) c) 0 0))) (trans c) in
  (Mat (n_rows Ak) (cols Ak ++ [a]), stack_row (msub Akp (mmul d b)) b).

(** An exact pseudo-inverse, which never fails. *)
Definition pinvQ (X : mat Q) : option (mat Q) :=
  Some (fold_left greville_step (cols X)
          (Mat (n_rows X) [], Mat 0 (replicate (n_rows X) []))).2.

Definition mat_eqb (X Y : mat Q) : bool :=
  (n_rows X =? n_rows Y)
  && bool_decide (Forall2 (Forall2 (λ a b, Qeq_bool a b = true)) (cols X) (cols Y)).

(** The four equations of Penrose that make [Y] the pseudo-inverse of [X]. *)
Definition penrose (X Y : mat Q) : bool :=
  mat_eqb (mmul (mmul X Y) X) X
  && mat_eqb (mmul (mmul Y X) Y) Y
  && mat_eqb (trans (mmul X Y)) (mmul X Y)
  && mat_eqb (trans (mmul Y X)) (mmul Y X).

(** MATLAB always has room. *)
Definition always_alloc (d : list Z) : bool := true.

(** [[a b; c d]] *)
Definition M22 (a b c d : Q) : mat Q := Mat 2 [[a; c]; [b; d]].
Definition I2 : mat Q := M22 1 0 0 1.
Definition M11 (a : Q) : mat Q := Mat 1 [[a]].
Definition two_modes (X : mat Q) : cube Q := Cube 2 2 [X; X].
Definition one_mode (r c : nat) (X : mat Q) : cube Q := Cube r c [X].

(** Two modes, two states, two inputs, two stages; symmetric costs. *)
Definition two_mode_system : inputs :=
  Inputs (two_modes (M22 1 1 0 1)) (two_modes (M22 0 0 1 1))
         (two_modes I2) (two_modes I2)
         (M22 (1#2) (1#2) (1#4) (3#4)) I2 2 (M11 0)
         (Mat 2 [[1; 0]; [0; 1]; [1; 1]]%Q).

(** The same shape with a state cost that is not symmetric. *)
Definition skew_cost_system : inputs :=
  Inputs (two_modes I2) (two_modes I2)
         (two_modes (M22 1 1 0 1)) (two_modes I2)
         I2 I2 2 (M11 0)
         (Mat 2 [[0; 0]; [0; 0]; [0; 0]]%Q).

(** One mode, one state, two inputs against a 1-by-1 [R]. *)
Definition B_against_R : inputs :=
  Inputs (one_mode 1 1 (M11 1)) (one_mode 1 2 (Mat 1 [[1]; [1]]%Q))
         (one_mode 1 1 (M11 1)) (one_mode 1 1 (M11 1))
         (M11 1) (M11 1) 2 (M11 0) (Mat 1 [[0]; [0]; [0]]%Q).

(** One mode, two states, one input: a double integrator. *)
Definition double_integrator (r : Q) : inputs :=
  Inputs (one_mode 2 2 (M22 1 1 0 1)) (one_mode 2 1 (Mat 2 [[0; 1]]%Q))
         (one_mode 2 2 I2) (one_mode 1 1 (M11 r))
         (M11 1) I2 2 (M11 0) (Mat 2 [[0; 0]; [0; 0]; [0; 0]]%Q).

(** The scalar system of the single-mode test: [A = B = Q = R = 1],
    terminal [K = 1], two stages, no reference. *)
Definition scalar_system : inputs :=
  Inputs (one_mode 1 1 (M11 1)) (one_mode 1 1 (M11 1))
         (one_mode 1 1 (M11 1)) (one_mode 1 1 (M11 1))
         (M11 1) (M11 1) 2 (M11 0) (Mat 1 [[0]; [0]; [0]]%Q).

(** One state, no input cost and an input without effect: [P3] is the
    zero matrix at every stage. *)
Definition zero_cost_scalar : inputs :=
  Inputs (one_mode 1 1 (M11 1)) (one_mode 1 1 (M11 0))
         (one_mode 1 1 (M11 1)) (one_mode 1 1 (M11 0))
         (M11 1) (M11 1) 2 (M11 0) (Mat 1 [[1]; [1]; [1]]%Q).

Definition run (inp : inputs) : heap Q * outcome () :=
  mexFunction pinvQ always_alloc inp no_outputs.

(** Two modes that switch alike: both rows of the transition matrix
    are [[1/2 1/2]]. *)
Definition uniform_switching : inputs :=
  Inputs (two_modes (M22 1 1 0 1)) (two_modes (M22 0 0 1 1))
         (two_modes I2) (two_modes I2)
         (M22 (1#2) (1#2) (1#2) (1#2)) I2 2 (M11 0)
         (Mat 2 [[1; 0]; [0; 1]; [1; 1]]%Q).

(** The two-mode system with one reference column more than its two
    stages need. *)
Definition four_column_reference : inputs :=
  with_refWeightings two_mode_system
    (Mat 2 [[1; 0]; [0; 1]; [1; 1]; [2; 3]]%Q).

(** MATLAB has room for arrays of up to [cap] cells. *)
Definition alloc_up_to (cap : Z) (d : list Z) : bool := (numel d <=? cap)%Z.

(** ** Runs on integers *)

#[global] Instance Z_scalar : Scalar Z := {|
  zero := 0%Z;
  add := Z.add;
  sub := Z.sub;
  mul := Z.mul;
  opp := Z.opp
|}.

(** The pseudo-inverse of the 1-by-1 integer matrices that have one in
    the integers: [[a]] for [a] among [-1], [0], [1]; it throws on the
    others. *)
Definition pinvZ (X : mat Z) : option (mat Z) :=
  match X with
  | Mat 1 [[a]] => if (Z.abs a <=? 1)%Z then Some X else None
  | _ => None
  end.

(** One mode, one state, one input, no input cost: [A = B = Q = 1],
    [R = 0], terminal [K = 1], two stages. *)
Definition Z11 (a : Z) : mat Z := Mat 1 [[a]].
Definition unit_integrator : inputs :=
  Inputs (Cube 1 1 [Z11 1]) (Cube 1 1 [Z11 1])
         (Cube 1 1 [Z11 1]) (Cube 1 1 [Z11 0])
         (Z11 1) (Z11 1) 2 (Z11 0)
         (Mat 1 [[3]; [5]; [7]]%Z).

(** ** Basic facts *)

Section OutcomeFacts.

Lemma bind_Ok {A B} (m : outcome A) (f : A → outcome B) (b : B) :
  m ≫= f = Ok b ↔ ∃ a, m = Ok a ∧ f a = Ok b.
Proof.
  destruct m as [a|e]; simpl; split.
  - intros Hf. exists a. auto.
  - intros (a' & Ha & Hf). congruence.
  - discriminate.
  - intros (a' & Ha & _). discriminate.
Qed.

Lemma guard_chk_Ok b c u : guard_chk b c = Ok u ↔ b = true.
Proof. destruct b, u; simpl; split; congruence. Qed.

Lemma foldO_app {A St} (body : St → A → outcome St) l1 l2 s :
  foldO body (l1 ++ l2) s = foldO body l1 s ≫= foldO body l2.
Proof.
  revert s. induction l1 as [|a l1 IH]; intros s; simpl; [done|].
  destruct (body s a) as [s'|e]; simpl; auto.
Qed.

Context {F : Type}.

Lemma mex_bind_Ok {A B} (m : mex F A) (f : A → mex F B) h h' (b : B) :
  (m ≫= f) h = (h', Ok b) ↔ ∃ h1 a, m h = (h1, Ok a) ∧ f a h1 = (h', Ok b).
Proof.
  unfold mbind, mex_bind. destruct (m h) as [h1 [a|e]]; split.
  - intros Hf. exists h1, a. auto.
  - intros (h2 & a' & Ha & Hf). congruence.
  - discriminate.
  - intros (h2 & a' & Ha & _). discriminate.
Qed.

Lemma lift_Ok {A} (o : outcome A) (h h' : heap F) a :
  lift o h = (h', Ok a) ↔ h' = h ∧ o = Ok a.
Proof. unfold lift. split; [intros [= -> ->]|intros [-> ->]]; auto. Qed.

Lemma mex_ret_Ok {A} (a b : A) (h h' : heap F) :
  (mret a : mex F A) h = (h', Ok b) ↔ h' = h ∧ b = a.
Proof. unfold mret, mex_ret. split; [intros [= -> ->]|intros [-> ->]]; auto. Qed.

End OutcomeFacts.

(** Unfolds a successful computation into its successful steps. *)
Ltac ok_steps :=
  repeat match goal with
  | H : (_ ≫= _) = Ok _ |- _ => apply bind_Ok in H as (? & ? & H)
  | H : (_ ≫= _) _ = (_, Ok _) |- _ => apply mex_bind_Ok in H as (? & ? & ? & H)
  | H : lift _ _ = (_, Ok _) |- _ => apply lift_Ok in H as [-> H]
  | H : mex_ret _ _ _ = (_, Ok _) |- _ => apply mex_ret_Ok in H as [-> ->]
  | H : mret _ _ = (_, Ok _) |- _ => apply mex_ret_Ok in H as [-> ->]
  | H : guard_chk _ _ = Ok _ |- _ => apply guard_chk_Ok in H
  | H : Ok _ = Ok _ |- _ => injection H as H; try subst
  | u : () |- _ => destruct u
  end.

Section MatFacts.
Context {F : Type} `{Scalar F}.
Implicit Types X Y Z : mat F.

Lemma n_rows_mk r c (f : nat → nat → F) : n_rows (mk r c f) = r.
Proof. reflexivity. Qed.

Lemma n_cols_mk r c (f : nat → nat → F) : n_cols (mk r c f) = c.
Proof. unfold n_cols, mk. simpl. by rewrite length_map, length_seq. Qed.

Lemma cols_mk_lookup r c (f : nat → nat → F) j :
  j < c → cols (mk r c f) !! j = Some (map (λ i, f i j) (seq 0 r)).
Proof.
  intros Hj. unfold mk. simpl.
  change (map ?g ?l) with (g <$> l) at 1.
  by rewrite list_lookup_fmap, lookup_seq_lt.
Qed.

Lemma nth_lookup_default {A} (l : list A) i d : nth i l d = default d (l !! i).
Proof.
  revert i. induction l as [|a l IH]; intros [|i]; simpl; auto.
Qed.

Lemma at_mk r c (f : nat → nat → F) i j :
  i < r → j < c → at_ (mk r c f) i j = f i j.
Proof.
  intros Hi Hj. unfold at_.
  rewrite (nth_lookup_default (cols _)), cols_mk_lookup by done. simpl.
  rewrite nth_lookup_default.
  change (map ?g ?l) with (g <$> l).
  by rewrite list_lookup_fmap, lookup_seq_lt.
Qed.

Lemma mk_ext r c (f g : nat → nat → F) :
  (∀ i j, i < r → j < c → f i j = g i j) → mk r c f = mk r c g.
Proof.
  intros Hfg. unfold mk. f_equal.
  apply map_ext_in. intros j Hj%in_seq.
  apply map_ext_in. intros i Hi%in_seq.
  apply Hfg; lia.
Qed.

Lemma wf_mk r c (f : nat → nat → F) : wf_mat (mk r c f) = true.
Proof.
  unfold wf_mat, mk. simpl. apply forallb_forall.
  intros col (j & <- & _)%in_map_iff.
  rewrite length_map, length_seq. apply Nat.eqb_refl.
Qed.

Lemma wf_mat_lookup X j c :
  wf_mat X = true → cols X !! j = Some c → length c = n_rows X.
Proof.
  unfold wf_mat. rewrite forallb_forall. intros Hwf Hc.
  apply Nat.eqb_eq, Hwf. apply list_elem_of_In. by eapply list_elem_of_lookup_2.
Qed.

(** A well-formed matrix is the table of its entries. *)
Lemma mk_at X : wf_mat X = true → mk (n_rows X) (n_cols X) (at_ X) = X.
Proof.
  intros Hwf. destruct X as [r cs]. unfold mk, n_cols, at_ in *. simpl in *.
  f_equal. apply list_eq_same_length with (length cs);
    [done|by rewrite length_map, length_seq|].
  intros j x y Hj Hx Hy.
  change (map ?g ?l) with (g <$> l) in Hx.
  rewrite list_lookup_fmap, lookup_seq_lt in Hx by done. simpl in Hx.
  injection Hx as <-.
  rewrite nth_lookup_default, Hy. simpl.
  pose proof (wf_mat_lookup (Mat r cs) j y Hwf Hy) as Hlen. simpl in Hlen.
  apply list_eq_same_length with r; [done|by rewrite length_map, length_seq|].
  intros i a b Hi Ha Hb.
  change (map ?g ?l) with (g <$> l) in Ha.
  rewrite list_lookup_fmap, lookup_seq_lt in Ha by done. simpl in Ha.
  injection Ha as <-. by rewrite nth_lookup_default, Hb.
Qed.

Lemma same_dims_true X Y :
  same_dims X Y = true ↔ n_rows X = n_rows Y ∧ n_cols X = n_cols Y.
Proof. unfold same_dims. rewrite andb_true_iff, !Nat.eqb_eq. done. Qed.

Lemma add_chk_Ok X Y Z :
  add_chk X Y = Ok Z ↔ (n_rows X = n_rows Y ∧ n_cols X = n_cols Y) ∧ Z = madd X Y.
Proof.
  unfold add_chk. rewrite <- same_dims_true.
  destruct (same_dims X Y); split; try intros [= <-]; try intros [? ->]; auto; done.
Qed.

Lemma sub_chk_Ok X Y Z :
  sub_chk X Y = Ok Z ↔ (n_rows X = n_rows Y ∧ n_cols X = n_cols Y) ∧ Z = msub X Y.
Proof.
  unfold sub_chk. rewrite <- same_dims_true.
  destruct (same_dims X Y); split; try intros [= <-]; try intros [? ->]; auto; done.
Qed.

Lemma mul_chk_Ok X Y Z :
  mul_chk X Y = Ok Z ↔ n_cols X = n_rows Y ∧ Z = mmul X Y.
Proof.
  unfold mul_chk. rewrite <- Nat.eqb_eq.
  destruct (n_cols X =? n_rows Y); split; try intros [= <-]; try intros [? ->]; auto; done.
Qed.

Lemma symmatu_chk_Ok X Z :
  symmatu_chk X = Ok Z ↔ n_rows X = n_cols X ∧ Z = symmatu X.
Proof.
  unfold symmatu_chk. rewrite <- Nat.eqb_eq.
  destruct (n_rows X =? n_cols X); split; try intros [= <-]; try intros [? ->]; auto; done.
Qed.

Lemma n_rows_mmul X Y : n_rows (mmul X Y) = n_rows X.
Proof. reflexivity. Qed.
Lemma n_cols_mmul X Y : n_cols (mmul X Y) = n_cols Y.
Proof. apply n_cols_mk. Qed.
Lemma n_cols_madd X Y : n_cols (madd X Y) = n_cols X.
Proof. apply n_cols_mk. Qed.
Lemma n_cols_msub X Y : n_cols (msub X Y) = n_cols X.
Proof. apply n_cols_mk. Qed.
Lemma n_cols_scale t X : n_cols (scale t X) = n_cols X.
Proof. apply n_cols_mk. Qed.
Lemma n_cols_mneg X : n_cols (mneg X) = n_cols X.
Proof. apply n_cols_mk. Qed.
Lemma n_cols_symmatu X : n_cols (symmatu X) = n_cols X.
Proof. apply n_cols_mk. Qed.
Lemma n_cols_trans X : n_cols (trans X) = n_rows X.
Proof. apply n_cols_mk. Qed.
Lemma n_cols_zeros r c : n_cols (zeros (F:=F) r c) = c.
Proof. apply n_cols_mk. Qed.
Lemma n_rows_madd X Y : n_rows (madd X Y) = n_rows X.
Proof. reflexivity. Qed.
Lemma n_rows_msub X Y : n_rows (msub X Y) = n_rows X.
Proof. reflexivity. Qed.
Lemma n_rows_scale t X : n_rows (scale t X) = n_rows X.
Proof. reflexivity. Qed.
Lemma n_rows_mneg X : n_rows (mneg X) = n_rows X.
Proof. reflexivity. Qed.
Lemma n_rows_symmatu X : n_rows (symmatu X) = n_rows X.
Proof. reflexivity. Qed.
Lemma n_rows_trans X : n_rows (trans X) = n_cols X.
Proof. reflexivity. Qed.
Lemma n_rows_zeros r c : n_rows (zeros (F:=F) r c) = r.
Proof. reflexivity. Qed.

Lemma times3_Ok X Y Z W :
  times3 X Y Z = Ok W ↔
  (n_cols X = n_rows Y ∧ n_cols Y = n_rows Z) ∧ W = mmul (mmul X Y) Z.
Proof.
  unfold times3. rewrite bind_Ok. split.
  - intros (XY & [? ->]%mul_chk_Ok & [HZ ->]%mul_chk_Ok).
    rewrite n_cols_mmul in HZ. auto.
  - intros [[? ?] ->]. exists (mmul X Y). rewrite !mul_chk_Ok.
    rewrite n_cols_mmul. auto.
Qed.

Lemma col_Ok X j v :
  col X j = Ok v ↔ ∃ c, cols X !! j = Some c ∧ v = Mat (n_rows X) [c].
Proof.
  unfold col. destruct (cols X !! j) as [c|]; split.
  - intros [= <-]. eauto.
  - intros (c' & [= <-] & ->). done.
  - discriminate.
  - intros (c' & [=] & _).
Qed.

Lemma set_col_Ok X j v X' :
  set_col X j v = Ok X' ↔
  ∃ c, j < n_cols X ∧ cols v = [c] ∧ n_rows v = n_rows X ∧
       X' = Mat (n_rows X) (<[j:=c]> (cols X)).
Proof.
  unfold set_col, n_cols.
  destruct (cols X !! j) as [c0|] eqn:Hj.
  - apply lookup_lt_Some in Hj.
    destruct (cols v) as [|c [|? ?]];
      try (split; [discriminate|intros (?&_&[=]&_)]).
    destruct (n_rows v =? n_rows X) eqn:Hr; split.
    + intros [= <-]. apply Nat.eqb_eq in Hr. exists c. eauto.
    + intros (c' & _ & [= <-] & _ & ->). done.
    + discriminate.
    + intros (c' & _ & _ & Hr' & _). apply Nat.eqb_neq in Hr. done.
  - apply lookup_ge_None in Hj. split; [discriminate|].
    intros (c & Hlt & _). lia.
Qed.

Lemma slice_Ok (C : cube F) i X : slice C i = Ok X ↔ slices C !! i = Some X.
Proof.
  unfold slice. destruct (slices C !! i); split; try intros [= <-]; done.
Qed.

Lemma set_slice_Ok (C : cube F) i X C' :
  set_slice C i X = Ok C' ↔
  i < n_slices C ∧ (n_rows X = c_rows C ∧ n_cols X = c_cols C) ∧
  C' = Cube (c_rows C) (c_cols C) (<[i:=X]> (slices C)).
Proof.
  unfold set_slice, n_slices.
  destruct (slices C !! i) as [X0|] eqn:Hi.
  - apply lookup_lt_Some in Hi.
    rewrite <- (Nat.eqb_eq (n_rows X)), <- (Nat.eqb_eq (n_cols X)), <- andb_true_iff.
    destruct (_ && _); split.
    + intros [= <-]. eauto.
    + intros (_ & _ & ->). done.
    + discriminate.
    + intros (_ & [=] & _).
  - apply lookup_ge_None in Hi. split; [discriminate|]. intros (Hlt & _). lia.
Qed.

Lemma slice_add_Ok (C : cube F) i X C' :
  slice_add C i X = Ok C' ↔
  ∃ Y, slices C !! i = Some Y ∧ (n_rows Y = n_rows X ∧ n_cols Y = n_cols X) ∧
       C' = Cube (c_rows C) (c_cols C) (<[i:=madd Y X]> (slices C)).
Proof.
  unfold slice_add. rewrite bind_Ok. split.
  - intros (Y & HY%slice_Ok & (Y' & [? ->]%add_chk_Ok & [= <-])%bind_Ok). eauto.
  - intros (Y & HY & ? & ->). exists Y. rewrite slice_Ok, bind_Ok. split; [done|].
    exists (madd Y X). by rewrite add_chk_Ok.
Qed.

Lemma row_deref_Ok (T : mat F) j m w : row_deref T j m = Ok w → w = at_ T j m.
Proof.
  unfold row_deref, at_. rewrite !nth_lookup_default.
  destruct (cols T !! m) as [c|]; [|discriminate]. simpl.
  destruct (c !! j); [|discriminate]. by intros [= <-].
Qed.

End MatFacts.

Create Rewrite HintDb dims.
#[global] Hint Rewrite
  @n_rows_mk @n_cols_mk @n_rows_mmul @n_cols_mmul @n_rows_madd @n_cols_madd
  @n_rows_msub @n_cols_msub @n_rows_scale @n_cols_scale @n_rows_mneg
  @n_cols_mneg @n_rows_symmatu @n_cols_symmatu @n_rows_trans @n_cols_trans
  @n_rows_zeros @n_cols_zeros : dims.

(** ** The per-mode loop, lines 87-93 *)

Section PerModeLoop.
Context {F : Type} `{Scalar F}.
Variable inp : inputs (F:=F).
Variable K_prev : cube F.
Variable sigma_prev : mat F.

Lemma slice_of_lookup (C : cube F) m X : slices C !! m = Some X → slice_of C m = X.
Proof. unfold slice_of. by intros ->. Qed.

Lemma col_of_lookup (X : mat F) m c :
  cols X !! m = Some c → col_of X m = Mat (n_rows X) [c].
Proof. unfold col_of. by intros ->. Qed.

Lemma single_col (X : mat F) c : cols X = [c] → X = Mat (n_rows X) [c].
Proof. destruct X. simpl. by intros ->. Qed.

Lemma per_mode_inv_init : per_mode_inv inp K_prev sigma_prev 0 (per_mode_init inp).
Proof.
  split; simpl; try (intros; lia); try done; apply n_cols_zeros.
Qed.

Lemma col_set_col_eq (X : mat F) i c v :
  i < n_cols X → cols v = [c] → n_rows v = n_rows X →
  col (Mat (n_rows X) (<[i:=c]> (cols X))) i = Ok v.
Proof.
  intros Hi Hc Hr. unfold col. simpl.
  rewrite list_lookup_insert_eq by done. rewrite <- Hr. f_equal.
  symmetry. by apply single_col.
Qed.

Lemma col_set_col_ne (X : mat F) i m c :
  i ≠ m → col (Mat (n_rows X) (<[i:=c]> (cols X))) m = col X m.
Proof.
  intros Hi. unfold col. simpl. by rewrite list_lookup_insert_ne.
Qed.

Lemma per_mode_step_inv i t t' :
  per_mode_inv inp K_prev sigma_prev i t →
  per_mode_step inp K_prev sigma_prev t i = Ok t' →
  per_mode_inv inp K_prev sigma_prev (S i) t'.
Proof.
  intros [Qd Qt Rd Rt Bd Ad Ar Ac Sd Sr Sc] Hstep.
  unfold per_mode_step in Hstep. ok_steps.
  repeat match goal with
  | H : slice _ _ = Ok _ |- _ => apply slice_Ok in H
  | H : times3 _ _ _ = Ok _ |- _ => apply times3_Ok in H as [_ ->]
  | H : symmatu_chk _ = Ok _ |- _ => apply symmatu_chk_Ok in H as [_ ->]
  | H : mul_chk _ _ = Ok _ |- _ => apply mul_chk_Ok in H as [_ ->]
  | H : slice_add _ _ _ = Ok _ |- _ => apply slice_add_Ok in H as (? & ? & _ & ->)
  | H : set_slice _ _ _ = Ok _ |- _ => apply set_slice_Ok in H as (? & _ & ->)
  | H : set_col _ _ _ = Ok _ |- _ => apply set_col_Ok in H as (? & ? & ? & ? & ->)
  | H : col _ _ = Ok _ |- _ => apply col_Ok in H as (? & ? & ->)
  end.
  match goal with H : slices (augA inp) !! i = Some ?X |- _ =>
    pose proof (slice_of_lookup _ _ _ H) as HA end.
  match goal with H : slices (augB inp) !! i = Some ?X |- _ =>
    pose proof (slice_of_lookup _ _ _ H) as HB end.
  match goal with H : slices K_prev !! i = Some ?X |- _ =>
    pose proof (slice_of_lookup _ _ _ H) as HK end.
  match goal with H : cols sigma_prev !! i = Some ?X |- _ =>
    pose proof (col_of_lookup _ _ _ H) as Hs end.
  match goal with H : slices (QAKA t) !! i = Some ?X |- _ =>
    rewrite Qt in H by lia; pose proof (slice_of_lookup _ _ _ H) as HQ end.
  match goal with H : slices (RBKB t) !! i = Some ?X |- _ =>
    rewrite Rt in H by lia; pose proof (slice_of_lookup _ _ _ H) as HR end.
  split; simpl.
  - intros m Hm. destruct (decide (m = i)) as [->|Hne].
    + rewrite list_lookup_insert_eq
        by (apply lookup_lt_is_Some; rewrite Qt by lia; eauto).
      unfold QAKA_of, A_, Q_. by rewrite HA, HK, HQ.
    + rewrite list_lookup_insert_ne by done. apply Qd. lia.
  - intros m Hm. rewrite list_lookup_insert_ne by lia. apply Qt. lia.
  - intros m Hm. destruct (decide (m = i)) as [->|Hne].
    + rewrite list_lookup_insert_eq
        by (apply lookup_lt_is_Some; rewrite Rt by lia; eauto).
      unfold RBKB_of, B_, R_. by rewrite HB, HK, HR.
    + rewrite list_lookup_insert_ne by done. apply Rd. lia.
  - intros m Hm. rewrite list_lookup_insert_ne by lia. apply Rt. lia.
  - intros m Hm. destruct (decide (m = i)) as [->|Hne].
    + rewrite list_lookup_insert_eq by done.
      unfold BKA_of, A_, B_. by rewrite HA, HB, HK.
    + rewrite list_lookup_insert_ne by done. apply Bd. lia.
  - intros m Hm. destruct (decide (m = i)) as [->|Hne].
    + unfold Asigma_of, A_. rewrite HA, Hs. by apply col_set_col_eq.
    + rewrite col_set_col_ne by done. apply Ad. lia.
  - done.
  - unfold n_cols in *. simpl. by rewrite length_insert.
  - intros m Hm. destruct (decide (m = i)) as [->|Hne].
    + unfold Bsigma_of, B_. rewrite HB, Hs. by apply col_set_col_eq.
    + rewrite col_set_col_ne by done. apply Sd. lia.
  - done.
  - unfold n_cols in *. simpl. by rewrite length_insert.
Qed.

Lemma per_mode_fold_inv n t0 t :
  per_mode_inv inp K_prev sigma_prev 0 t0 →
  foldO (per_mode_step inp K_prev sigma_prev) (seq 0 n) t0 = Ok t →
  per_mode_inv inp K_prev sigma_prev n t.
Proof.
  intros H0. revert t. induction n as [|n IH]; intros t.
  - simpl. by intros [= <-].
  - rewrite seq_S, foldO_app. simpl. intros (t1 & Ht1 & Hstep)%bind_Ok.
    apply bind_Ok in Hstep as (t2 & Hstep & [= <-]).
    eapply per_mode_step_inv; eauto.
Qed.

(** The per-mode quantities are those of the formulas. *)
Lemma per_mode_loop_Ok t :
  per_mode_loop inp K_prev sigma_prev = Ok t →
  per_mode_inv inp K_prev sigma_prev (numModes inp) t.
Proof. apply per_mode_fold_inv, per_mode_inv_init. Qed.

End PerModeLoop.

(** ** The mixtures, lines 99-113 *)

Section MixtureLoop.
Context {F : Type} `{Scalar F}.
Variable inp : inputs (F:=F).
Variable K_prev : cube F.
Variable sigma_prev : mat F.
Variable t : per_mode (F:=F).
Hypothesis t_inv : per_mode_inv inp K_prev sigma_prev (numModes inp) t.
Variable j : nat.

Lemma zeros_dims (X : mat F) r c :
  n_rows (zeros (F:=F) r c) = n_rows X → n_cols (zeros (F:=F) r c) = n_cols X →
  zeros r c = zeros (n_rows X) (n_cols X).
Proof. rewrite n_cols_zeros. simpl. by intros -> ->. Qed.

Lemma mixture_fold l acc x :
  Forall (λ m, m < numModes inp) l →
  foldO (mixture_step inp t j) l acc = Ok x →
  P1 x = fold_left (mix_step (T_ inp j) (QAKA_of inp K_prev)) l (P1 acc) ∧
  P2 x = fold_left (mix_step (T_ inp j) (BKA_of inp K_prev)) l (P2 acc) ∧
  P3 x = fold_left (mix_step (T_ inp j) (RBKB_of inp K_prev)) l (P3 acc) ∧
  s1 x = fold_left (mix_step (T_ inp j) (Asigma_of inp sigma_prev)) l (s1 acc) ∧
  s2 x = fold_left (mix_step (T_ inp j) (Bsigma_of inp sigma_prev)) l (s2 acc).
Proof using t_inv.
  destruct t_inv as [Qd _ Rd _ Bd Ad _ _ Sd _ _].
  intros Hl. revert acc. induction Hl as [|m l Hm Hl IH]; intros acc; simpl.
  - by intros [= <-].
  - intros (acc' & Hstep & Hrest)%bind_Ok.
    apply IH in Hrest as (-> & -> & -> & -> & ->).
    unfold mixture_step in Hstep. ok_steps.
    repeat match goal with
    | H : row_deref _ _ _ = Ok _ |- _ => apply row_deref_Ok in H as ->
    | H : slice _ _ = Ok _ |- _ => apply slice_Ok in H
    | H : add_chk _ _ = Ok _ |- _ => apply add_chk_Ok in H as [_ ->]
    end.
    repeat match goal with
    | H : slices (QAKA t) !! m = Some _ |- _ => rewrite Qd in H by done; injection H as <-
    | H : slices (BKA t) !! m = Some _ |- _ => rewrite Bd in H by done; injection H as <-
    | H : slices (RBKB t) !! m = Some _ |- _ => rewrite Rd in H by done; injection H as <-
    | H : col (Asigma t) m = Ok _ |- _ => rewrite Ad in H by done; injection H as <-
    | H : col (Bsigma t) m = Ok _ |- _ => rewrite Sd in H by done; injection H as <-
    end.
    simpl. done.
Qed.

(** The first accumulation succeeds only on the shape of its summand. *)
Lemma mixture_first_dims acc x :
  0 < numModes inp →
  mixture_step inp t j acc 0 = Ok x →
  (n_rows (P1 acc) = n_rows (QAKA_of inp K_prev 0) ∧
   n_cols (P1 acc) = n_cols (QAKA_of inp K_prev 0)) ∧
  (n_rows (P2 acc) = n_rows (BKA_of inp K_prev 0) ∧
   n_cols (P2 acc) = n_cols (BKA_of inp K_prev 0)) ∧
  (n_rows (P3 acc) = n_rows (RBKB_of inp K_prev 0) ∧
   n_cols (P3 acc) = n_cols (RBKB_of inp K_prev 0)) ∧
  (n_rows (s1 acc) = n_rows (Asigma_of inp sigma_prev 0) ∧
   n_cols (s1 acc) = n_cols (Asigma_of inp sigma_prev 0)) ∧
  (n_rows (s2 acc) = n_rows (Bsigma_of inp sigma_prev 0) ∧
   n_cols (s2 acc) = n_cols (Bsigma_of inp sigma_prev 0)).
Proof using t_inv.
  destruct t_inv as [Qd _ Rd _ Bd Ad _ _ Sd _ _].
  intros HM Hstep. unfold mixture_step in Hstep. ok_steps.
  repeat match goal with
  | H : slice _ _ = Ok _ |- _ => apply slice_Ok in H
  | H : add_chk _ _ = Ok _ |- _ =>
      apply add_chk_Ok in H as [[? ?] _]
  end.
  repeat match goal with
  | H : slices (QAKA t) !! 0 = Some _ |- _ => rewrite Qd in H by done; injection H as <-
  | H : slices (BKA t) !! 0 = Some _ |- _ => rewrite Bd in H by done; injection H as <-
  | H : slices (RBKB t) !! 0 = Some _ |- _ => rewrite Rd in H by done; injection H as <-
  | H : col (Asigma t) 0 = Ok _ |- _ => rewrite Ad in H by done; injection H as <-
  | H : col (Bsigma t) 0 = Ok _ |- _ => rewrite Sd in H by done; injection H as <-
  end.
  repeat match goal with
  | H : context [n_cols (scale _ _)] |- _ => rewrite n_cols_scale in H
  end.
  simpl in *. auto 10.
Qed.

(** The mixtures are those of the formulas. *)
Lemma mixture_loop_Ok x :
  0 < numModes inp →
  mixture_loop inp t j = Ok x →
  P1 x = P1_of inp K_prev j ∧
  P2 x = P2_of inp K_prev j ∧
  P3 x = P3_of inp K_prev j ∧
  s1 x = s1_of inp sigma_prev j ∧
  s2 x = s2_of inp sigma_prev j.
Proof using t_inv.
  intros HM Hloop. unfold mixture_loop in Hloop.
  apply bind_Ok in Hloop as (_ & _ & Hfold).
  assert (Hdims : ∃ x0, mixture_step inp t j (mixture_init inp t) 0 = Ok x0).
  { destruct (numModes inp) as [|M]; [lia|]. simpl in Hfold.
    apply bind_Ok in Hfold as (x0 & Hx0 & _). eauto. }
  destruct Hdims as (x0 & Hx0).
  apply mixture_first_dims in Hx0 as ([? ?] & [? ?] & [? ?] & [? ?] & [? ?]); [|done].
  apply mixture_fold in Hfold as (-> & -> & -> & -> & ->).
  - unfold P1_of, P2_of, P3_of, s1_of, s2_of, mix.
    repeat split; f_equal; apply zeros_dims; assumption.
  - apply Forall_forall. intros m Hm%list_elem_of_In%in_seq. lia.
Qed.

End MixtureLoop.

(** ** Reading and writing the output arrays *)

Section StoreLoad.
Context {F : Type}.
Implicit Types a : mxArray F.

Lemma store_Ok a off vs a' :
  store a off vs = Ok a' ↔
  (0 ≤ off ∧ off + Z.of_nat (length vs) ≤ Z.of_nat (length (mx_pr a)))%Z ∧
  a' = MxArray (mx_dims a) (list_inserts (Z.to_nat off) (Some <$> vs) (mx_pr a)).
Proof.
  unfold store. rewrite <- Z.leb_le, <- (Z.leb_le (off + _)), <- andb_true_iff.
  destruct (_ && _); split.
  - intros [= <-]. auto.
  - intros [_ ->]. done.
  - discriminate.
  - intros [[=] _].
Qed.

Lemma take_drop_inserts {A} (l k : list A) i :
  i + length k ≤ length l → take (length k) (drop i (list_inserts i k l)) = k.
Proof.
  intros Hlen. apply list_eq. intros n.
  rewrite lookup_take, lookup_drop. case_decide as Hn.
  - rewrite list_lookup_inserts by lia. f_equal. lia.
  - symmetry. apply lookup_ge_None. lia.
Qed.

Lemma take_drop_inserts_other {A} (l k : list A) i i' len :
  i' + len ≤ i ∨ i + length k ≤ i' →
  take len (drop i' (list_inserts i k l)) = take len (drop i' l).
Proof.
  intros Hdisj. apply list_eq. intros n.
  rewrite !lookup_take, !lookup_drop. case_decide as Hn; [|done].
  destruct Hdisj as [Hlt|Hge].
  - apply list_lookup_inserts_lt. lia.
  - apply list_lookup_inserts_ge. lia.
Qed.

Lemma load_store_eq a (off : nat) vs a' :
  store a (Z.of_nat off) vs = Ok a' → load a' off (length vs) = Some vs.
Proof.
  intros [[_ Hlen] ->]%store_Ok. unfold load. simpl.
  rewrite Nat2Z.id.
  assert (take (length vs) (drop off (list_inserts off (Some <$> vs) (mx_pr a)))
          = Some <$> vs) as ->.
  { rewrite <- (length_fmap Some vs) at 1.
    apply take_drop_inserts. rewrite length_fmap. lia. }
  rewrite length_fmap, Nat.eqb_refl.
  by apply mapM_fmap_Some.
Qed.

Lemma load_store_ne a (off : nat) vs a' off' len :
  store a (Z.of_nat off) vs = Ok a' →
  off' + len ≤ off ∨ off + length vs ≤ off' →
  load a' off' len = load a off' len.
Proof.
  intros [_ ->]%store_Ok Hdisj. unfold load. simpl.
  rewrite Nat2Z.id.
  by rewrite take_drop_inserts_other by (rewrite length_fmap; lia).
Qed.

Lemma reshape_join_same {A} (ls : list (list A)) r :
  Forall (λ l, length l = r) ls →
  reshape (replicate (length ls) r) (mjoin ls) = ls.
Proof.
  induction 1 as [|l ls Hl _ IH]; simpl; [done|].
  rewrite take_app_length' by done. rewrite drop_app_length' by done.
  by rewrite IH.
Qed.

Lemma length_join_same {A} (ls : list (list A)) r :
  Forall (λ l, length l = r) ls → length (mjoin ls) = length ls * r.
Proof.
  induction 1 as [|l ls Hl _ IH]; simpl; [done|].
  rewrite length_app, IH. lia.
Qed.

End StoreLoad.

(** ** Which cells a computation may touch *)

Section Frames.
Context {F : Type} `{Scalar F}.
Variable pinv : mat F → option (mat F).
Variable inp : inputs (F:=F).

Local Abbreviation p := (c_rows (augR inp)).
Local Abbreviation n := (c_rows (augA inp)).
Local Abbreviation M := (numModes inp).

Lemma same_outside_refl S h : same_outside inp S h h.
Proof. by intros c _. Qed.

Lemma same_outside_trans S h1 h2 h3 :
  same_outside inp S h1 h2 → same_outside inp S h2 h3 → same_outside inp S h1 h3.
Proof.
  intros H12 H23 c Hc. destruct (H12 c Hc) as [<- <-]. by apply H23.
Qed.

Lemma same_outside_mono (S S' : nat → Prop) h h' :
  (∀ c, S c → S' c) → same_outside inp S h h' → same_outside inp S' h h'.
Proof. intros HS Hh c Hc. apply Hh. naive_solver. Qed.

Lemma frame_mono {A} (S S' : nat → Prop) (m : mex F A) :
  (∀ c, S c → S' c) → frame inp S m → frame inp S' m.
Proof. intros HS Hm h h' r Hr. eapply same_outside_mono; eauto. Qed.

Lemma frame_ret {A} S (a : A) : frame inp S (mret a : mex F A).
Proof. intros h h' r [= <- _]. apply same_outside_refl. Qed.

Lemma frame_lift {A} S (o : outcome A) : frame inp S (lift o).
Proof. intros h h' r [= <- _]. apply same_outside_refl. Qed.

Lemma frame_bind {A B} S (m : mex F A) (f : A → mex F B) :
  frame inp S m →
  (∀ a h h1, m h = (h1, Ok a) → frame inp S (f a)) →
  frame inp S (m ≫= f).
Proof.
  intros Hm Hf h h' r. unfold mbind, mex_bind.
  destruct (m h) as [h1 [a|e]] eqn:Hmh.
  - intros Hfa. eapply same_outside_trans; [by eapply Hm|by eapply Hf].
  - intros [= <- _]. by eapply Hm.
Qed.

Lemma frame_foldM {A St} S (body : St → A → mex F St) l s :
  (∀ s a, a ∈ l → frame inp S (body s a)) → frame inp S (foldM body l s).
Proof.
  revert s. induction l as [|a l IH]; intros s Hbody; simpl.
  - apply frame_ret.
  - apply frame_bind.
    + apply Hbody. by left.
    + intros s' _ _ _. apply IH. intros s'' a' Ha'. apply Hbody. by right.
Qed.

Lemma wf_mat_Forall (X : mat F) :
  wf_mat X = true → Forall (λ l, length l = n_rows X) (cols X).
Proof.
  unfold wf_mat. rewrite forallb_forall, Forall_forall.
  intros Hwf c Hc%list_elem_of_In. by apply Nat.eqb_eq, Hwf.
Qed.

Lemma length_join_cols (X : mat F) :
  wf_mat X = true → length (mjoin (cols X)) = n_cols X * n_rows X.
Proof. intros Hwf. by apply length_join_same, wf_mat_Forall. Qed.

Lemma block_disjoint (c c' len : nat) :
  c ≠ c' → c * len + len ≤ c' * len ∨ c' * len + len ≤ c * len.
Proof. intros Hc. destruct (decide (c < c')); [left|right]; nia. Qed.

(** What [L.slice(j) = G] does to the gains. *)
Lemma store_L_slice_frame dstL c0 j G :
  dstL = Z.of_nat (c0 * (p * n)) → wf_mat G = true →
  frame inp (λ c, c = c0 + j) (store_L_slice inp dstL j G).
Proof.
  intros -> Hwf h h' r. unfold store_L_slice, mbind, mex_bind, lift, guard_chk.
  destruct (_ && _) eqn:Hdims; [|intros [= <- _]; apply same_outside_refl].
  apply andb_true_iff in Hdims as [Hr%Nat.eqb_eq Hc%Nat.eqb_eq].
  unfold store0. destruct (out0 h) as [a|] eqn:Ha;
    [|intros [= <- _]; apply same_outside_refl].
  rewrite <- Nat2Z.inj_add.
  destruct (store a _ _) as [a'|e] eqn:Hst;
    [|intros [= <- _]; apply same_outside_refl].
  intros [= <- _] c Hc0. split; [|unfold feedforward_block; by simpl].
  unfold gain_block. simpl. rewrite Ha. simpl. f_equal.
  eapply load_store_ne; [done|].
  rewrite length_join_cols, Hr, Hc by done.
  replace (c0 * (p * n) + j * (p * n)) with ((c0 + j) * (p * n)) by lia.
  replace (n * p) with (p * n) by lia.
  by apply block_disjoint.
Qed.

Lemma store_L_slice_Ok dstL c0 j G h h' :
  dstL = Z.of_nat (c0 * (p * n)) → wf_mat G = true →
  store_L_slice inp dstL j G h = (h', Ok ()) →
  gain_block inp h' (c0 + j) = Some G.
Proof.
  intros -> Hwf Hst. unfold store_L_slice in Hst. ok_steps.
  match goal with Hd : _ && _ = true |- _ =>
    apply andb_true_iff in Hd as [Hr%Nat.eqb_eq Hc%Nat.eqb_eq] end.
  unfold store0 in Hst. destruct (out0 h) as [a|] eqn:Ha; [|done].
  rewrite <- Nat2Z.inj_add in Hst.
  destruct (store a _ _) as [a'|e] eqn:Hst'; [|done].
  injection Hst as <-. unfold gain_block. simpl.
  apply load_store_eq in Hst'.
  rewrite length_join_cols, Hr, Hc in Hst' by done.
  replace (c0 * (p * n) + j * (p * n)) with ((c0 + j) * (p * n)) in Hst' by lia.
  replace (n * p) with (p * n) in Hst' by lia.
  rewrite Hst'. simpl. f_equal.
  rewrite <- Hc. unfold n_cols. rewrite <- Hr.
  rewrite reshape_join_same by by apply wf_mat_Forall.
  by destruct G.
Qed.

(** What [feedforward.col(j) = f] does to the feedforward terms. *)
Lemma store_feedforward_col_frame dstF c0 j f :
  dstF = Z.of_nat (c0 * p) → wf_mat f = true →
  frame inp (λ c, c = c0 + j) (store_feedforward_col inp dstF j f).
Proof.
  intros -> Hwf h h' r.
  unfold store_feedforward_col, mbind, mex_bind, lift, guard_chk.
  destruct (_ && _) eqn:Hdims; [|intros [= <- _]; apply same_outside_refl].
  apply andb_true_iff in Hdims as [Hr%Nat.eqb_eq Hc%Nat.eqb_eq].
  unfold store1. destruct (out1 h) as [a|] eqn:Ha;
    [|intros [= <- _]; apply same_outside_refl].
  rewrite <- Nat2Z.inj_add.
  destruct (store a _ _) as [a'|e] eqn:Hst;
    [|intros [= <- _]; apply same_outside_refl].
  intros [= <- _] c Hc0. split; [unfold gain_block; by simpl|].
  unfold feedforward_block. simpl. rewrite Ha. simpl. f_equal.
  eapply load_store_ne; [done|].
  rewrite length_join_cols, Hr, Hc by done.
  replace (c0 * p + j * p) with ((c0 + j) * p) by lia.
  replace (1 * p) with p by lia.
  by apply block_disjoint.
Qed.

Lemma store_feedforward_col_Ok dstF c0 j f h h' :
  dstF = Z.of_nat (c0 * p) → wf_mat f = true →
  store_feedforward_col inp dstF j f h = (h', Ok ()) →
  feedforward_block inp h' (c0 + j) = Some f.
Proof.
  intros -> Hwf Hst. unfold store_feedforward_col in Hst. ok_steps.
  match goal with Hd : _ && _ = true |- _ =>
    apply andb_true_iff in Hd as [Hr%Nat.eqb_eq Hc%Nat.eqb_eq] end.
  unfold store1 in Hst. destruct (out1 h) as [a|] eqn:Ha; [|done].
  rewrite <- Nat2Z.inj_add in Hst.
  destruct (store a _ _) as [a'|e] eqn:Hst'; [|done].
  injection Hst as <-. unfold feedforward_block. simpl.
  apply load_store_eq in Hst'.
  rewrite length_join_cols, Hr, Hc in Hst' by done.
  replace (c0 * p + j * p) with ((c0 + j) * p) in Hst' by lia.
  replace (1 * p) with p in Hst' by lia.
  rewrite Hst'. simpl. f_equal.
  destruct f as [r [|col [|? ?]]]; simpl in *; try done.
  by rewrite app_nil_r, Hr.
Qed.

End Frames.

(** ** One stage, lines 74-119 *)

Section Stage.
Context {F : Type} `{Scalar F}.
Variable pinv : mat F → option (mat F).
Variable inp : inputs (F:=F).

Local Abbreviation p := (c_rows (augR inp)).
Local Abbreviation n := (c_rows (augA inp)).
Local Abbreviation M := (numModes inp).

Lemma pinv_chk_Ok X Y : pinv_chk pinv X = Ok Y ↔ pinv X = Some Y.
Proof.
  unfold pinv_chk. destruct (pinv X); split; try intros [= <-]; done.
Qed.

Lemma gain_wf x G : gain pinv x = Ok G → wf_mat G = true.
Proof.
  unfold gain. intros (Pi & _ & [_ ->]%mul_chk_Ok)%bind_Ok. apply wf_mk.
Qed.

Lemma feedforward_wf x f : feedforward pinv x = Ok f → wf_mat f = true.
Proof.
  unfold feedforward. intros (Pi & _ & [_ ->]%mul_chk_Ok)%bind_Ok. apply wf_mk.
Qed.

Lemma store_feedforward_col_out0 dstF j f h h' r :
  store_feedforward_col inp dstF j f h = (h', r) → out0 h' = out0 h.
Proof.
  unfold store_feedforward_col, mbind, mex_bind, lift, guard_chk, store1.
  destruct (_ && _); [|by intros [= <- _]].
  destruct (out1 h); [|by intros [= <- _]].
  destruct (store _ _ _); by intros [= <- _].
Qed.

Section Body.
Variable k : nat.
Variables dstL dstF : Z.
Hypothesis dstL_eq : dstL = Z.of_nat (k * M * (p * n)).
Hypothesis dstF_eq : dstF = Z.of_nat (k * M * p).

(** The iteration for mode [j] writes only the cells of stage [k] and
    mode [j]. *)
Lemma current_mode_frame t vf j :
  frame inp (λ c, c = k * M + j) (current_mode pinv inp k dstL dstF t vf j).
Proof using dstL_eq dstF_eq.
  unfold current_mode.
  repeat (apply frame_bind; [apply frame_lift|intros ? ? ? ?]).
  apply frame_bind.
  { match goal with Hg : lift (gain _ _) _ = _ |- _ =>
      injection Hg as _ Hg; apply gain_wf in Hg end.
    by apply store_L_slice_frame. }
  intros _ _ _ _.
  apply frame_bind; [apply frame_lift|intros ? ? ? ?].
  apply frame_bind; [|intros; apply frame_ret].
  match goal with Hg : lift (feedforward _ _) _ = _ |- _ =>
    injection Hg as _ Hg; apply feedforward_wf in Hg end.
  by apply store_feedforward_col_frame.
Qed.

Variable K_prev : cube F.
Variable sigma_prev : mat F.
Variable t : per_mode (F:=F).
Hypothesis t_inv : per_mode_inv inp K_prev sigma_prev M t.

Lemma current_mode_Ok vf j h vf' h' :
  j < M →
  current_mode pinv inp k dstL dstF t vf j h = (h', Ok vf') →
  mode_done pinv inp k K_prev sigma_prev j vf' h' ∧
  set_slice vf.1 j (slice_of vf'.1 j) = Ok vf'.1 ∧
  set_col vf.2 j (col_of vf'.2 j) = Ok vf'.2.
Proof using dstL_eq dstF_eq t_inv.
  intros Hj Hrun. unfold current_mode in Hrun. ok_steps.
  match goal with Hx : mixture_loop _ _ _ = Ok ?x |- _ =>
    eapply mixture_loop_Ok in Hx as (HP1 & HP2 & HP3 & Hs1 & Hs2);
      [|exact t_inv|lia] end.
  match goal with Hg : gain _ _ = Ok ?G |- _ =>
    pose proof (gain_wf _ _ Hg) as HGwf; unfold gain in Hg end.
  match goal with Hg : feedforward _ _ = Ok ?G |- _ =>
    pose proof (feedforward_wf _ _ Hg) as Hfwf; unfold feedforward in Hg end.
  match goal with Hg : update_K _ _ = Ok _ |- _ => unfold update_K in Hg end.
  match goal with Hg : update_sigma _ _ _ _ = Ok _ |- _ =>
    unfold update_sigma in Hg end.
  ok_steps.
  repeat match goal with
  | Hp : pinv_chk _ _ = Ok _ |- _ => apply pinv_chk_Ok in Hp
  | Hp : times3 _ _ _ = Ok _ |- _ => apply times3_Ok in Hp as [_ ->]
  | Hp : symmatu_chk _ = Ok _ |- _ => apply symmatu_chk_Ok in Hp as [_ ->]
  | Hp : sub_chk _ _ = Ok _ |- _ => apply sub_chk_Ok in Hp as [_ ->]
  | Hp : add_chk _ _ = Ok _ |- _ => apply add_chk_Ok in Hp as [_ ->]
  | Hp : mul_chk _ _ = Ok _ |- _ => apply mul_chk_Ok in Hp as [_ ->]
  end.
  match goal with Hp : col (refWeightings inp) _ = Ok _ |- _ =>
    apply col_Ok in Hp as (c_k & Hck & ->);
    rewrite <- (col_of_lookup _ _ _ Hck) in * end.
  rewrite HP1, HP2, HP3, ?Hs1, ?Hs2 in *.
  repeat match goal with
  | Hp : pinv (P3_of inp K_prev j) = Some ?Pi,
    Hq : pinv (P3_of inp K_prev j) = Some ?Pj |- _ =>
      assert (Pj = Pi) as -> by congruence; clear Hq
  end.
  match goal with Hp : pinv (P3_of inp K_prev j) = Some ?Pi |- _ =>
    rename Hp into HPi end.
  match goal with Hs : set_slice vf.1 j ?X = Ok _ |- _ =>
    pose proof Hs as (HjK & _ & HK)%set_slice_Ok end.
  match goal with Hs : set_col vf.2 j ?X = Ok _ |- _ =>
    pose proof Hs as (c & Hjs & Hc & Hr & Hsig)%set_col_Ok end.
  match goal with Hs : store_L_slice _ _ _ _ _ = _ |- _ =>
    eapply (store_L_slice_Ok _ _ (k * M)) in Hs; [|by rewrite dstL_eq|done] end.
  match goal with Hs : store_feedforward_col _ _ _ _ ?h1 = (?h2, _) |- _ =>
    pose proof (store_feedforward_col_out0 _ _ _ _ _ _ Hs) as Hout0;
    eapply (store_feedforward_col_Ok _ _ (k * M)) in Hs;
      [|by rewrite dstF_eq|done] end.
  split; [split|split].
  - eexists. split; [unfold K_of; rewrite HPi; reflexivity|].
    rewrite HK. unfold slice. simpl. by rewrite list_lookup_insert_eq.
  - eexists. split; [unfold sigma_of; rewrite HPi; reflexivity|].
    rewrite Hsig. by apply col_set_col_eq.
  - eexists. split; [unfold gain_of; rewrite HPi; reflexivity|].
    unfold gain_block in *. by rewrite Hout0.
  - eexists. split; [unfold feedforward_of; rewrite HPi; reflexivity|]. done.
  - simpl. erewrite slice_of_lookup; [eassumption|].
    rewrite HK. simpl. by apply list_lookup_insert_eq.
  - simpl. erewrite col_of_lookup;
      [|rewrite Hsig; simpl; by apply list_lookup_insert_eq].
    replace (n_rows _) with (n_rows vf.2) by by rewrite Hsig.
    rewrite <- Hr. rewrite <- (single_col _ _ Hc). eassumption.
Qed.

(** The loop over the current modes, for any duplicate-free list of
    modes. *)
Lemma mode_loop_Ok js vf0 h vf' h' :
  NoDup js → Forall (λ j, j < M) js →
  foldM (current_mode pinv inp k dstL dstF t) js vf0 h = (h', Ok vf') →
  (∀ j, j ∈ js → mode_done pinv inp k K_prev sigma_prev j vf' h') ∧
  (∀ j, j ∉ js →
     slices vf'.1 !! j = slices vf0.1 !! j ∧ cols vf'.2 !! j = cols vf0.2 !! j) ∧
  (c_rows vf'.1 = c_rows vf0.1 ∧ c_cols vf'.1 = c_cols vf0.1 ∧
   n_slices vf'.1 = n_slices vf0.1) ∧
  (n_rows vf'.2 = n_rows vf0.2 ∧ n_cols vf'.2 = n_cols vf0.2).
Proof using dstL_eq dstF_eq t_inv.
  intros Hnd Hlt. revert vf0 h.
  induction js as [|j0 js IH]; intros vf0 h Hrun; simpl in Hrun.
  - apply mex_ret_Ok in Hrun as [-> ->].
    split; [intros j Hj; by apply elem_of_nil in Hj|]. done.
  - apply mex_bind_Ok in Hrun as (h1 & vf1 & Hj0 & Hrest).
    apply NoDup_cons in Hnd as [Hj0js Hnd].
    apply Forall_cons in Hlt as [Hj0M Hlt].
    pose proof Hrest as Hfr.
    apply IH in Hrest as (Hdone & Hkeep & (Hcr & Hcc & Hns) & (Hnr & Hnc));
      [|done|done].
    apply current_mode_Ok in Hj0 as (Hd0 & HK & Hs); [|done].
    apply set_slice_Ok in HK as (_ & _ & HK).
    apply set_col_Ok in Hs as (c & _ & _ & _ & Hs).
    assert (same_outside inp (λ c, ∃ j, j ∈ js ∧ c = k * M + j) h1 h') as Hsame.
    { eapply frame_foldM; [|exact Hfr].
      intros s a Ha. eapply frame_mono; [|apply current_mode_frame].
      simpl. intros c0 ->. eauto. }
    destruct (Hsame (k * M + j0)) as [Hg Hf].
    { intros (j & Hj & Heq). assert (j = j0) as -> by lia. done. }
    destruct (Hkeep j0 Hj0js) as [HkK Hks].
    split; [|split; [|split]].
    + intros j [->|Hj]%elem_of_cons; [|by apply Hdone].
      destruct Hd0 as [(K_j & ? & HKj) (s_j & ? & Hsj) (G & ? & HG) (f & ? & Hff)].
      split.
      * exists K_j. split; [done|]. unfold slice in *. by rewrite HkK.
      * exists s_j. split; [done|]. unfold col in *. by rewrite Hks, Hnr.
      * exists G. split; [done|]. by rewrite Hg.
      * exists f. split; [done|]. by rewrite Hf.
    + intros j Hj. apply not_elem_of_cons in Hj as [Hne Hj].
      destruct (Hkeep j Hj) as [-> ->]. rewrite HK, Hs. simpl.
      by rewrite !list_lookup_insert_ne.
    + rewrite Hcr, Hcc, Hns, HK. unfold n_slices. simpl.
      by rewrite length_insert.
    + rewrite Hnr, Hnc, Hs. unfold n_cols. simpl. by rewrite length_insert.
Qed.

End Body.

(** The stage writes only its own cells. *)
Lemma stage_frame k dstL dstF vf :
  dstL = Z.of_nat (k * M * (p * n)) → dstF = Z.of_nat (k * M * p) →
  frame inp (λ c, k * M ≤ c < k * M + M) (stage pinv inp k dstL dstF vf).
Proof.
  intros HL HF. unfold stage.
  apply frame_bind; [apply frame_lift|intros t _ _ _].
  apply frame_foldM. intros s j Hj%list_elem_of_In%in_seq.
  eapply frame_mono; [|by apply current_mode_frame].
  simpl. intros c ->. lia.
Qed.

(** A stage that completes leaves, for every mode, the quantities of
    the formulas taken at the state it was entered with. *)
Lemma stage_Ok k dstL dstF vf h vf' h' :
  dstL = Z.of_nat (k * M * (p * n)) → dstF = Z.of_nat (k * M * p) →
  stage pinv inp k dstL dstF vf h = (h', Ok vf') →
  (∀ j, j < M → mode_done pinv inp k vf.1 vf.2 j vf' h') ∧
  (∀ j, M ≤ j →
     slices vf'.1 !! j = slices vf.1 !! j ∧ cols vf'.2 !! j = cols vf.2 !! j) ∧
  (c_rows vf'.1 = c_rows vf.1 ∧ c_cols vf'.1 = c_cols vf.1 ∧
   n_slices vf'.1 = n_slices vf.1) ∧
  (n_rows vf'.2 = n_rows vf.2 ∧ n_cols vf'.2 = n_cols vf.2).
Proof.
  intros HL HF Hrun. unfold stage in Hrun.
  apply mex_bind_Ok in Hrun as (h1 & t & [-> Ht]%lift_Ok & Hloop).
  apply per_mode_loop_Ok in Ht.
  eapply mode_loop_Ok in Hloop as (Hdone & Hkeep & Hdims); eauto.
  - split; [|split; [|done]].
    + intros j Hj. apply Hdone. apply list_elem_of_In, in_seq. lia.
    + intros j Hj. apply Hkeep. intros Hin%list_elem_of_In%in_seq. lia.
  - apply NoDup_seq.
  - apply Forall_forall. intros j Hj%list_elem_of_In%in_seq. lia.
Qed.

End Stage.

(** ** The loop over the stages *)

Section Sweep.
Context {F : Type} `{Scalar F}.
Variable pinv : mat F → option (mat F).
Variable inp : inputs (F:=F).

Local Abbreviation p := (c_rows (augR inp)).
Local Abbreviation n := (c_rows (augA inp)).
Local Abbreviation M := (numModes inp).

Lemma mex_bind_assoc {A B C} (m : mex F A) (f : A → mex F B) (g : B → mex F C) h :
  ((m ≫= f) ≫= g) h = (m ≫= (λ a, f a ≫= g)) h.
Proof.
  unfold mbind, mex_bind. destruct (m h) as [h1 [a|e]]; done.
Qed.

Lemma mex_bind_ext {A B} (m : mex F A) (f g : A → mex F B) h :
  (∀ a h1, f a h1 = g a h1) → (m ≫= f) h = (m ≫= g) h.
Proof.
  intros Hfg. unfold mbind, mex_bind. destruct (m h) as [h1 [a|e]]; auto.
Qed.

(** The pointers stand at the cells of the stage about to be done. *)
Lemma dstL_step k :
  (Z.of_nat (S k * M * (p * n)) - L_stride inp = Z.of_nat (k * M * (p * n)))%Z.
Proof. unfold L_stride. lia. Qed.

Lemma dstF_step k :
  (Z.of_nat (S k * M * p) - feedforward_stride inp = Z.of_nat (k * M * p))%Z.
Proof. unfold feedforward_stride. lia. Qed.

(** The stages still to do write only below the stage they start at. *)
Lemma stage_loop_frame k1 dstL dstF vf :
  dstL = (Z.of_nat (k1 * M * (p * n)) - L_stride inp)%Z →
  dstF = (Z.of_nat (k1 * M * p) - feedforward_stride inp)%Z →
  frame inp (λ c, c < k1 * M) (stage_loop pinv inp k1 dstL dstF vf).
Proof.
  revert dstL dstF vf. induction k1 as [|k IH]; intros dstL dstF vf HL HF; simpl.
  - apply frame_ret.
  - rewrite dstL_step in HL. rewrite dstF_step in HF.
    apply frame_bind.
    + eapply frame_mono; [|by apply stage_frame]. simpl. lia.
    + intros vf' _ _ _. eapply frame_mono; [|apply IH; by subst].
      simpl. lia.
Qed.

Lemma stage_loop_is_prefix k1 dstL dstF vf h :
  stage_loop pinv inp k1 dstL dstF vf h =
  stage_loop_prefix pinv inp k1 k1 dstL dstF vf h.
Proof.
  revert dstL dstF vf h. induction k1 as [|k IH]; intros; simpl; [done|].
  apply mex_bind_ext. intros. apply IH.
Qed.

(** The first [a + b] iterations are the first [a], then [b] more. *)
Lemma stage_loop_prefix_add a b k1 dstL dstF vf h :
  a ≤ k1 →
  stage_loop_prefix pinv inp (a + b) k1 dstL dstF vf h =
  (stage_loop_prefix pinv inp a k1 dstL dstF vf ≫= λ vf1,
   stage_loop_prefix pinv inp b (k1 - a)
     (dstL - Z.of_nat a * L_stride inp)
     (dstF - Z.of_nat a * feedforward_stride inp) vf1) h.
Proof.
  revert k1 dstL dstF vf h.
  induction a as [|a IH]; intros k1 dstL dstF vf h Ha.
  - simpl. unfold mbind, mex_bind, mret, mex_ret.
    rewrite Nat.sub_0_r. f_equal; lia.
  - destruct k1 as [|k]; [lia|]. simpl.
    rewrite mex_bind_assoc. apply mex_bind_ext. intros vf' h1.
    rewrite IH by lia. apply mex_bind_ext. intros vf1 h2.
    f_equal; lia.
Qed.

End Sweep.

(** ** A completed call, stage by stage *)

Section Run.
Context {F : Type} `{Scalar F}.
Variable pinv : mat F → option (mat F).
Variable mx_can_alloc : list Z → bool.
Variable inp : inputs (F:=F).

Local Abbreviation p := (c_rows (augR inp)).
Local Abbreviation n := (c_rows (augA inp)).
Local Abbreviation M := (numModes inp).
Local Abbreviation N := (Z.to_nat (horizonLength inp)).

Lemma dstL_at k :
  k < N →
  ((horizonLength inp - 1) * L_stride inp
   - Z.of_nat (N - 1 - k) * L_stride inp
   = Z.of_nat (k * M * (p * n)))%Z.
Proof.
  intros Hk. unfold L_stride.
  assert (horizonLength inp = Z.of_nat N) as Heq by lia.
  rewrite Heq at 1.
  replace (Z.of_nat N - 1)%Z with (Z.of_nat (N - 1 - k) + Z.of_nat k)%Z by lia.
  lia.
Qed.

Lemma dstF_at k :
  k < N →
  ((horizonLength inp - 1) * feedforward_stride inp
   - Z.of_nat (N - 1 - k) * feedforward_stride inp
   = Z.of_nat (k * M * p))%Z.
Proof.
  intros Hk. unfold feedforward_stride.
  assert (horizonLength inp = Z.of_nat N) as Heq by lia.
  rewrite Heq at 1.
  replace (Z.of_nat N - 1)%Z with (Z.of_nat (N - 1 - k) + Z.of_nat k)%Z by lia.
  lia.
Qed.

(** A completed call went through stage [k]: it entered it in the state
    of stage [k + 1], the stage ran to its end, and no later iteration
    wrote over its cells. *)
Lemma run_stage h k :
  mexFunction pinv mx_can_alloc inp no_outputs = (h, Ok ()) →
  k < N →
  ∃ h1 vf1 h2 vf2,
    state_before_stage pinv mx_can_alloc inp k no_outputs = (h1, Ok vf1) ∧
    stage pinv inp k (Z.of_nat (k * M * (p * n))) (Z.of_nat (k * M * p)) vf1 h1
      = (h2, Ok vf2) ∧
    state_after_stage pinv mx_can_alloc inp k no_outputs = (h2, Ok vf2) ∧
    same_outside inp (λ c, c < k * M) h2 h.
Proof.
  intros Hrun Hk. unfold mexFunction in Hrun.
  apply mex_bind_Ok in Hrun as (h0 & [] & Hc & Hrun).
  apply mex_bind_Ok in Hrun as (? & vf0 & [-> Hi]%lift_Ok & Hrun).
  apply mex_bind_Ok in Hrun as (? & vfN & Hloop & [-> _]%mex_ret_Ok).
  rewrite stage_loop_is_prefix in Hloop.
  replace N with ((N - 1 - k) + S k) in Hloop at 1 by lia.
  rewrite stage_loop_prefix_add in Hloop by lia.
  apply mex_bind_Ok in Hloop as (h1 & vf1 & Hpre & Hloop).
  replace (N - (N - 1 - k)) with (S k) in Hloop by lia.
  rewrite dstL_at, dstF_at in Hloop by done.
  simpl in Hloop.
  apply mex_bind_Ok in Hloop as (h2 & vf2 & Hstage & Hrest).
  rewrite <- stage_loop_is_prefix in Hrest.
  exists h1, vf1, h2, vf2. split; [|split; [done|split]].
  - unfold state_before_stage.
    apply mex_bind_Ok. exists h0, (). split; [done|].
    apply mex_bind_Ok. exists h0, vf0. by rewrite lift_Ok.
  - unfold state_after_stage.
    apply mex_bind_Ok. exists h0, (). split; [done|].
    apply mex_bind_Ok. exists h0, vf0. rewrite lift_Ok. split; [done|].
    replace (N - k) with ((N - 1 - k) + 1) by lia.
    rewrite stage_loop_prefix_add by lia.
    apply mex_bind_Ok. exists h1, vf1. split; [done|].
    replace (N - (N - 1 - k)) with (S k) by lia.
    rewrite dstL_at, dstF_at by done. simpl.
    apply mex_bind_Ok. exists h2, vf2. split; [done|]. by apply mex_ret_Ok.
  - eapply stage_loop_frame; [| |exact Hrest].
    + by rewrite <- dstL_step.
    + by rewrite <- dstF_step.
Qed.

End Run.

(** ** Gains, feedforward terms and the value-function update *)

Section Recursion.
Context {F : Type} `{Scalar F}.
Variable pinv : mat F → option (mat F).
Variable mx_can_alloc : list Z → bool.
Variable inp : inputs (F:=F).

Local Abbreviation M := (numModes inp).
Local Abbreviation N := (Z.to_nat (horizonLength inp)).

(** What a completed call has emitted for stage [k] and mode [j]. *)
Lemma run_emitted h k j :
  mexFunction pinv mx_can_alloc inp no_outputs = (h, Ok ()) →
  k < N → j < M →
  ∃ h1 K_next sigma_next,
    state_before_stage pinv mx_can_alloc inp k no_outputs
      = (h1, Ok (K_next, sigma_next)) ∧
    (∃ G, gain_of pinv inp K_next j = Some G ∧
          emitted_gain inp h k j = Some G) ∧
    (∃ f, feedforward_of pinv inp K_next sigma_next j = Some f ∧
          emitted_feedforward inp h k j = Some f).
Proof.
  intros Hrun Hk Hj.
  destruct (run_stage _ _ _ _ _ Hrun Hk)
    as (h1 & [K_next sigma_next] & h2 & vf2 & Hbefore & Hstage & _ & Hsame).
  apply stage_Ok in Hstage as (Hdone & _); [|done|done].
  destruct (Hdone j Hj) as [_ _ (G & HG & HGh) (f & Hf & Hfh)].
  destruct (Hsame (k * M + j)) as [HgE HfE]; [lia|].
  exists h1, K_next, sigma_next. split; [done|]. split.
  - exists G. split; [done|]. unfold emitted_gain. by rewrite HgE.
  - exists f. split; [done|]. unfold emitted_feedforward. by rewrite HfE.
Qed.

(** C1, as the code has it.  When the call completes, then for every
    stage [k < horizonLength] and every mode [j < numModes] the cells
    [L(:,:,j,k)] hold [-pinv(P3)·P2] and the cells [feedforward(:,j,k)]
    hold [pinv(P3)·s2], where
    [P2 = Σ_m T[j,m]·Bᵗ[m]·K_next[m]·A[m]],
    [P3 = Σ_m T[j,m]·(R[m] + symmatu(Bᵗ[m]·K_next[m]·B[m]))],
    [s2 = Σ_m T[j,m]·Bᵗ[m]·σ_next[m]], [symmatu] reflects the upper
    triangle into the lower one, and [(K_next, σ_next)] is the state in
    which the loop enters stage [k], that is the value-function state of
    stage [k+1]. *)
Theorem gain_and_feedforward_formula h k j :
  mexFunction pinv mx_can_alloc inp no_outputs = (h, Ok ()) →
  k < N → j < M →
  ∃ h1 K_next sigma_next,
    state_before_stage pinv mx_can_alloc inp k no_outputs
      = (h1, Ok (K_next, sigma_next)) ∧
    (∃ G, gain_of pinv inp K_next j = Some G ∧
          emitted_gain inp h k j = Some G) ∧
    (∃ f, feedforward_of pinv inp K_next sigma_next j = Some f ∧
          emitted_feedforward inp h k j = Some f).
Proof. apply run_emitted. Qed.

(** C5, as the code has it.  When the call completes, stage [k] takes
    the state [(K_next, σ_next)] to a state whose slice [j] is
    [P1 - symmatu(P2ᵗ·pinv(P3)·P2)] (only the product is symmetrised,
    by reflecting its upper triangle) and whose column [j] is
    [RefWeightings[:,k] + s1 - P2ᵗ·pinv(P3)·s2]; the column of the
    reference weightings read at stage [k] is column [k], so column [0]
    at the last iteration. *)
Theorem value_function_update h k j :
  mexFunction pinv mx_can_alloc inp no_outputs = (h, Ok ()) →
  k < N → j < M →
  ∃ h1 K_next sigma_next h2 K_k sigma_k,
    state_before_stage pinv mx_can_alloc inp k no_outputs
      = (h1, Ok (K_next, sigma_next)) ∧
    state_after_stage pinv mx_can_alloc inp k no_outputs
      = (h2, Ok (K_k, sigma_k)) ∧
    (∃ K_j, K_of pinv inp K_next j = Some K_j ∧ slice K_k j = Ok K_j) ∧
    (∃ sigma_j, sigma_of pinv inp K_next sigma_next k j = Some sigma_j ∧
                col sigma_k j = Ok sigma_j).
Proof.
  intros Hrun Hk Hj.
  destruct (run_stage _ _ _ _ _ Hrun Hk)
    as (h1 & [K_next sigma_next] & h2 & [K_k sigma_k]
        & Hbefore & Hstage & Hafter & _).
  apply stage_Ok in Hstage as (Hdone & _); [|done|done].
  destruct (Hdone j Hj) as [HK Hs _ _].
  by exists h1, K_next, sigma_next, h2, K_k, sigma_k.
Qed.

End Recursion.

(** ** Symmetry *)

Section Symmetry.
Context {F : Type} `{Scalar F}.
Implicit Types X Y : mat F.

Lemma at_mk_out r c (f : nat → nat → F) i j :
  ¬ (i < r ∧ j < c) → at_ (mk r c f) i j = zero.
Proof.
  intros Hout. unfold at_. rewrite (nth_lookup_default (cols _)).
  destruct (decide (j < c)) as [Hj|Hj].
  - rewrite cols_mk_lookup by done. simpl.
    apply nth_overflow. rewrite length_map, length_seq. lia.
  - rewrite (proj2 (lookup_ge_None _ _)).
    + simpl. by destruct i.
    + fold (n_cols (mk r c f)). rewrite n_cols_mk. lia.
Qed.

Lemma sym_entries_mk m (f : nat → nat → F) :
  (∀ i j, i < m → j < m → f i j = f j i) → sym_entries (mk m m f).
Proof.
  intros Hf i j.
  destruct (decide (i < m ∧ j < m)) as [[Hi Hj]|Hout].
  - rewrite !at_mk by done. by apply Hf.
  - rewrite !at_mk_out by lia. done.
Qed.

Lemma symmetric_mk m (f : nat → nat → F) :
  (∀ i j, i < m → j < m → f i j = f j i) → symmetric (mk m m f).
Proof.
  intros Hf. unfold symmetric, trans. rewrite n_cols_mk, n_rows_mk.
  apply mk_ext. intros i j Hi Hj. rewrite at_mk by done. by apply Hf.
Qed.

Lemma symmetric_square X : symmetric X → n_rows X = n_cols X.
Proof.
  unfold symmetric. intros Hs.
  change (n_cols X) with (n_rows (trans X)). by rewrite Hs.
Qed.

Lemma symmetric_entries X : symmetric X → sym_entries X.
Proof.
  intros Hs. pose proof (symmetric_square X Hs) as Hsq.
  assert (∀ a b, at_ X a b = at_ (trans X) a b) as Hat
    by (intros; by rewrite Hs).
  intros i j. unfold trans in Hat.
  destruct (decide (i < n_rows X ∧ j < n_rows X)) as [[Hi Hj]|Hout].
  - rewrite (Hat i j), at_mk by lia. done.
  - rewrite (Hat i j), (Hat j i), !at_mk_out by lia. done.
Qed.

Lemma symmetric_zeros m : symmetric (zeros (F:=F) m m).
Proof. by apply symmetric_mk. Qed.

Lemma symmetric_madd X Y :
  n_rows X = n_cols X → sym_entries X → sym_entries Y → symmetric (madd X Y).
Proof.
  intros Hsq HX HY. unfold madd. rewrite <- Hsq.
  apply symmetric_mk. intros i j _ _. by rewrite HX, HY.
Qed.

Lemma symmetric_msub X Y :
  n_rows X = n_cols X → sym_entries X → sym_entries Y → symmetric (msub X Y).
Proof.
  intros Hsq HX HY. unfold msub. rewrite <- Hsq.
  apply symmetric_mk. intros i j _ _. by rewrite HX, HY.
Qed.

Lemma symmetric_scale w X :
  n_rows X = n_cols X → sym_entries X → symmetric (scale w X).
Proof.
  intros Hsq HX. unfold scale. rewrite <- Hsq.
  apply symmetric_mk. intros i j _ _. by rewrite HX.
Qed.

(** [symmatu] of a square matrix is symmetric, whatever its entries. *)
Lemma symmetric_symmatu X : n_rows X = n_cols X → symmetric (symmatu X).
Proof.
  intros Hsq. unfold symmatu. rewrite <- Hsq.
  apply symmetric_mk. intros i j _ _.
  destruct (i <=? j) eqn:Hij, (j <=? i) eqn:Hji; try done.
  - apply Nat.leb_le in Hij, Hji. by assert (i = j) as -> by lia.
  - apply Nat.leb_gt in Hij, Hji. lia.
Qed.

(** A mixture of symmetric matrices is symmetric. *)
Lemma symmetric_mix (w : nat → F) (X : nat → mat F) M :
  (∀ m, symmetric (X m)) → symmetric (mix w X M).
Proof.
  intros HX. unfold mix.
  assert (symmetric (zeros (F:=F) (n_rows (X 0)) (n_cols (X 0)))) as Hz.
  { rewrite <- (symmetric_square _ (HX 0)). apply symmetric_zeros. }
  revert Hz. generalize (zeros (F:=F) (n_rows (X 0)) (n_cols (X 0))).
  induction (seq 0 M) as [|m l IH]; intros acc Hacc; simpl; [done|].
  apply IH. unfold mix_step. apply symmetric_madd.
  - by apply symmetric_square.
  - by apply symmetric_entries.
  - apply symmetric_entries, symmetric_scale.
    + by apply symmetric_square.
    + by apply symmetric_entries.
Qed.

Lemma mmul3_square X Y Z :
  n_rows (mmul (mmul (trans X) Y) Z) = n_cols X.
Proof. rewrite !n_rows_mmul. apply n_rows_mk. Qed.

End Symmetry.

Section SymmetricCosts.
Context {F : Type} `{Scalar F}.
Variable pinv : mat F → option (mat F).
Variable mx_can_alloc : list Z → bool.
Variable inp : inputs (F:=F).

Local Abbreviation M := (numModes inp).
Local Abbreviation N := (Z.to_nat (horizonLength inp)).

Lemma symmetric_QAKA K_next m : (symmetric_Q inp) → symmetric (QAKA_of inp K_next m).
Proof.
  intros HQ. unfold QAKA_of.
  assert (symmetric (Q_ inp m)) as HQm.
  { unfold Q_, slice_of. destruct (slices (augQ inp) !! m) as [Q_m|] eqn:Hm.
    - simpl. by eapply HQ.
    - simpl. apply symmetric_zeros. }
  apply symmetric_madd.
  - by apply symmetric_square.
  - by apply symmetric_entries.
  - apply symmetric_entries, symmetric_symmatu.
    by rewrite mmul3_square, n_cols_mmul.
Qed.

Lemma symmetric_K_of K_next j K_j :
  (symmetric_Q inp) → K_of pinv inp K_next j = Some K_j → symmetric K_j.
Proof.
  intros HQ. unfold K_of. destruct (pinv _) as [Pi|]; [|done]. simpl.
  intros [= <-].
  assert (symmetric (P1_of inp K_next j)) as HP1.
  { apply symmetric_mix. intros m. by apply symmetric_QAKA. }
  apply symmetric_msub.
  - by apply symmetric_square.
  - by apply symmetric_entries.
  - apply symmetric_entries, symmetric_symmatu.
    rewrite !n_rows_mmul, n_cols_mmul. apply n_rows_mk.
Qed.

(** C4, as the code has it.  When every [Q[m]] is symmetric and the
    call completes, every matrix [K[stage, mode]] that a stage computes
    is symmetric: [K = Kᵗ], entry for entry.  (Without the symmetry of
    [Q] this fails: only the products are passed through [symmatu].) *)
Theorem computed_K_symmetric h k j :
  (symmetric_Q inp) →
  mexFunction pinv mx_can_alloc inp no_outputs = (h, Ok ()) →
  k < N → j < M →
  ∃ h2 K_k sigma_k K_j,
    state_after_stage pinv mx_can_alloc inp k no_outputs
      = (h2, Ok (K_k, sigma_k)) ∧
    slice K_k j = Ok K_j ∧ symmetric K_j.
Proof.
  intros HQ Hrun Hk Hj.
  destruct (run_stage _ _ _ _ _ Hrun Hk)
    as (h1 & [K_next sigma_next] & h2 & [K_k sigma_k]
        & _ & Hstage & Hafter & _).
  apply stage_Ok in Hstage as (Hdone & _); [|done|done].
  destruct (Hdone j Hj) as [(K_j & HK & Hslice) _ _ _].
  exists h2, K_k, sigma_k, K_j. split; [done|]. split; [done|].
  by eapply symmetric_K_of.
Qed.

End SymmetricCosts.

(** ** The terminal state, the unused argument, a longer horizon *)

Section Boundary.
Context {F : Type} `{Scalar F}.
Variable pinv : mat F → option (mat F).
Variable mx_can_alloc : list Z → bool.

Local Abbreviation M := (numModes _).

(** C10.  [Qref] is read and never used: two calls that differ in
    [Qref] only end with the same arrays and the same outcome. *)
Theorem Qref_is_unused (inp : inputs (F:=F)) (Q' : mat F) (h : heap F) :
  mexFunction pinv mx_can_alloc (with_Qref inp Q') h
  = mexFunction pinv mx_can_alloc inp h.
Proof. reflexivity. Qed.

End Boundary.

Section LongerHorizon.
Context {F : Type} `{Scalar F}.
Variable pinv : mat F → option (mat F).
Variable mx_can_alloc : list Z → bool.
Variable inp : inputs (F:=F).
Variable c : list F.

Local Abbreviation M := (numModes inp).
Local Abbreviation N := (Z.to_nat (horizonLength inp)).

Local Abbreviation inp' := (extend_horizon inp c).

Hypothesis horizon_nonneg : (0 ≤ horizonLength inp)%Z.

Lemma extend_horizon_N : Z.to_nat (horizonLength inp') = S N.
Proof using horizon_nonneg. simpl. lia. Qed.

Lemma extend_initial_state vf :
  initial_state inp = Ok vf → initial_state inp' = Ok vf.
Proof.
  unfold initial_state. simpl. intros Hinit. ok_steps.
  match goal with Ht : tail_cols1 _ = Ok _ |- _ => rename Ht into Hlast end.
  change (numModes inp') with M.
  match goal with Ht : each_slice _ _ _ _ = Ok _ |- _ => rewrite Ht end.
  simpl. unfold tail_cols1 in *. simpl.
  destruct (cols (refWeightings inp)) as [|c0 cs] eqn:Hcols; [done|].
  change (last (c :: c0 :: cs)) with (last (c0 :: cs)).
  destruct (last (c0 :: cs)); [|done]. injection Hlast as <-.
  simpl. unfold each_col in *. simpl in *.
  match goal with He : (if _ then _ else _) = Ok _ |- _ => by rewrite He end.
Qed.

(** A stage of the longer horizon does to a state what the stage one
    below does to it in the shorter one. *)
Lemma extend_stage k dstL dstF dstL' dstF' vf h h2 vf2 h' h2' vf2' :
  dstL = Z.of_nat (k * M * (c_rows (augR inp) * c_rows (augA inp))) →
  dstF = Z.of_nat (k * M * c_rows (augR inp)) →
  dstL' = Z.of_nat (S k * M * (c_rows (augR inp) * c_rows (augA inp))) →
  dstF' = Z.of_nat (S k * M * c_rows (augR inp)) →
  stage pinv inp k dstL dstF vf h = (h2, Ok vf2) →
  stage pinv inp' (S k) dstL' dstF' vf h' = (h2', Ok vf2') →
  vf2' = vf2.
Proof.
  intros HL HF HL' HF' Hs Hs'.
  apply stage_Ok in Hs as (Hdone & Hkeep & (Hcr & Hcc & _) & (Hnr & Hnc));
    [|done|done].
  apply stage_Ok in Hs' as (Hdone' & Hkeep' & (Hcr' & Hcc' & _) & (Hnr' & Hnc'));
    [|done|done].
  change (numModes inp') with M in *.
  destruct vf2 as [[r1 c1 sl1] [nr1 cs1]], vf2' as [[r2 c2 sl2] [nr2 cs2]].
  simpl in *. rewrite Hcr, Hcc, Hnr, Hcr', Hcc', Hnr'.
  f_equal; f_equal.
  - apply list_eq. intros j. destruct (decide (j < M)) as [Hj|Hj].
    + destruct (Hdone j Hj) as [(K_j & HK & Hsl) _ _ _].
      destruct (Hdone' j Hj) as [(K_j' & HK' & Hsl') _ _ _].
      change (K_of pinv inp' vf.1 j) with (K_of pinv inp vf.1 j) in HK'.
      apply slice_Ok in Hsl, Hsl'. simpl in *. congruence.
    + destruct (Hkeep j) as [-> _]; [lia|].
      by destruct (Hkeep' j) as [-> _]; [lia|].
  - apply list_eq. intros j. destruct (decide (j < M)) as [Hj|Hj].
    + destruct (Hdone j Hj) as [_ (s_j & Hsg & Hcol) _ _].
      destruct (Hdone' j Hj) as [_ (s_j' & Hsg' & Hcol') _ _].
      change (sigma_of pinv inp' vf.1 vf.2 (S k) j)
        with (sigma_of pinv inp vf.1 vf.2 k j) in Hsg'.
      apply col_Ok in Hcol as (c1' & Hc1 & Hs1).
      apply col_Ok in Hcol' as (c2' & Hc2 & Hs2). simpl in *.
      rewrite Hc1, Hc2. congruence.
    + destruct (Hkeep j) as [_ ->]; [lia|].
      by destruct (Hkeep' j) as [_ ->]; [lia|].
Qed.

Hypothesis run_short :
  ∃ h, mexFunction pinv mx_can_alloc inp no_outputs = (h, Ok ()).
Hypothesis run_long :
  ∃ h', mexFunction pinv mx_can_alloc inp' no_outputs = (h', Ok ()).

(** At the same distance [d] from the terminal stage, both calls enter
    their stage in the same value-function state. *)
Lemma extend_states d :
  d < N →
  ∃ h1 h1' vf,
    state_before_stage pinv mx_can_alloc inp (N - 1 - d) no_outputs
      = (h1, Ok vf) ∧
    state_before_stage pinv mx_can_alloc inp' (N - d) no_outputs
      = (h1', Ok vf).
Proof using horizon_nonneg run_short run_long.
  destruct run_short as (h & Hrun), run_long as (h' & Hrun').
  induction d as [|d IH]; intros Hd.
  - destruct (run_stage _ _ _ _ (N - 1) Hrun) as (h1 & vf1 & _ & _ & Hb & _);
      [lia|].
    destruct (run_stage _ _ _ _ N Hrun') as (h1' & vf1' & _ & _ & Hb' & _);
      [rewrite extend_horizon_N; lia|].
    exists h1, h1', vf1. rewrite !Nat.sub_0_r. split; [done|].
    rewrite Hb'. do 2 f_equal.
    unfold state_before_stage in Hb, Hb'.
    rewrite extend_horizon_N in Hb'.
    replace (N - 1 - (N - 1)) with 0 in Hb by lia.
    replace (S N - 1 - N) with 0 in Hb' by lia.
    apply mex_bind_Ok in Hb as (? & ? & _ & Hb).
    apply mex_bind_Ok in Hb as (? & vf0 & [-> Hi]%lift_Ok & Hb).
    apply mex_bind_Ok in Hb' as (? & ? & _ & Hb').
    apply mex_bind_Ok in Hb' as (? & vf0' & [-> Hi']%lift_Ok & Hb').
    simpl in Hb, Hb'.
    apply mex_ret_Ok in Hb as [_ ->]. apply mex_ret_Ok in Hb' as [_ ->].
    apply extend_initial_state in Hi. congruence.
  - destruct IH as (h1 & h1' & vf & Hb & Hb'); [lia|].
    destruct (run_stage _ _ _ _ (N - 1 - d) Hrun)
      as (h1a & vf1 & h2 & vf2 & Hba & Hst & Haf & _); [lia|].
    destruct (run_stage _ _ _ _ (N - d) Hrun')
      as (h1a' & vf1' & h2' & vf2' & Hba' & Hst' & Haf' & _);
      [rewrite extend_horizon_N; lia|].
    assert (vf1 = vf) as -> by congruence.
    assert (vf1' = vf) as -> by congruence.
    assert (h1a = h1) as -> by congruence.
    assert (h1a' = h1') as -> by congruence.
    replace (N - d) with (S (N - 1 - d)) in Hst' by lia.
    change (numModes inp') with M in Hst'.
    pose proof (extend_stage _ _ _ _ _ _ _ _ _ _ _ _
                  eq_refl eq_refl eq_refl eq_refl Hst Hst') as ->.
    exists h2, h2', vf2. split.
    + unfold state_before_stage. unfold state_after_stage in Haf.
      replace (N - 1 - (N - 1 - S d)) with (N - (N - 1 - d)) by lia. done.
    + unfold state_before_stage. unfold state_after_stage in Haf'.
      replace (Z.to_nat (horizonLength inp') - 1 - (N - S d))
        with (Z.to_nat (horizonLength inp') - (N - d))
        by (rewrite extend_horizon_N; lia).
      done.
Qed.

End LongerHorizon.

(** C7.  The gain and the feedforward term emitted for a stage are
    functions ([gain_of], [feedforward_of]) of the inputs and of the
    state in which the stage is entered, which is the state of the
    following stage, and of nothing else.  So, when the call for a
    horizon and the call for the horizon one longer, whose reference
    weightings are the shorter ones with one column in front, both
    complete, stage [k + 1] of the longer call is entered in the state
    in which stage [k] of the shorter one is, and emits the same gain
    and feedforward term: the same at the same distance from the
    terminal stage. *)
Theorem horizon_extension {F : Type} `{Scalar F}
    (pinv : mat F → option (mat F)) (mx_can_alloc : list Z → bool)
    (inp : inputs (F:=F)) (c : list F) (h h' : heap F) (k j : nat) :
  (0 ≤ horizonLength inp)%Z →
  mexFunction pinv mx_can_alloc inp no_outputs = (h, Ok ()) →
  mexFunction pinv mx_can_alloc (extend_horizon inp c) no_outputs = (h', Ok ()) →
  k < Z.to_nat (horizonLength inp) → j < numModes inp →
  ∃ h1 h1' K_next sigma_next G f,
    state_before_stage pinv mx_can_alloc inp k no_outputs
      = (h1, Ok (K_next, sigma_next)) ∧
    state_before_stage pinv mx_can_alloc (extend_horizon inp c) (S k) no_outputs
      = (h1', Ok (K_next, sigma_next)) ∧
    gain_of pinv inp K_next j = Some G ∧
    feedforward_of pinv inp K_next sigma_next j = Some f ∧
    emitted_gain inp h k j = Some G ∧
    emitted_gain (extend_horizon inp c) h' (S k) j = Some G ∧
    emitted_feedforward inp h k j = Some f ∧
    emitted_feedforward (extend_horizon inp c) h' (S k) j = Some f.
Proof.
  intros Hnn Hrun Hrun' Hk Hj.
  destruct (run_emitted _ _ _ _ _ _ Hrun Hk Hj)
    as (h1 & K & sigma & Hb & (G & HG & HGe) & (f & Hf & Hfe)).
  destruct (run_emitted _ _ _ _ (S k) j Hrun')
    as (h1' & K' & sigma' & Hb' & (G' & HG' & HGe') & (f' & Hf' & Hfe'));
    [rewrite extend_horizon_N by done; lia|done|].
  destruct (extend_states pinv mx_can_alloc inp c Hnn
              (ex_intro _ h Hrun) (ex_intro _ h' Hrun')
              (Z.to_nat (horizonLength inp) - 1 - k))
    as (h2 & h2' & vf & Hs & Hs'); [lia|].
  replace (Z.to_nat (horizonLength inp) - 1
           - (Z.to_nat (horizonLength inp) - 1 - k)) with k in Hs by lia.
  replace (Z.to_nat (horizonLength inp)
           - (Z.to_nat (horizonLength inp) - 1 - k)) with (S k) in Hs' by lia.
  assert (vf = (K, sigma)) as -> by congruence.
  assert ((K', sigma') = (K, sigma)) as [= -> ->] by congruence.
  change (gain_of pinv (extend_horizon inp c) K j)
    with (gain_of pinv inp K j) in HG'.
  change (feedforward_of pinv (extend_horizon inp c) K sigma j)
    with (feedforward_of pinv inp K sigma j) in Hf'.
  exists h1, h1', K, sigma, G, f. repeat split; try done; congruence.
Qed.

(** ** Inputs on which the call fails *)

Section Failures.
Context {F : Type} `{Scalar F}.
Variable pinv : mat F → option (mat F).
Variable mx_can_alloc : list Z → bool.
Variable inp : inputs (F:=F).

Local Abbreviation M := (numModes inp).
Local Abbreviation N := (Z.to_nat (horizonLength inp)).

Lemma logic_only_Ok {A} (a : A) : logic_only (Ok a).
Proof. intros e [=]. Qed.

Lemma logic_only_Err {A} c : logic_only (Err (A:=A) (LogicError c)).
Proof. intros e [= <-]. eauto. Qed.

Lemma logic_only_bind {A B} (m : outcome A) (f : A → outcome B) :
  logic_only m → (∀ a, logic_only (f a)) → logic_only (m ≫= f).
Proof.
  intros Hm Hf e. destruct m as [a|e']; simpl; [apply Hf|].
  intros [= <-]. by apply Hm.
Qed.

Lemma logic_only_if {A} (b : bool) (a : A) c :
  logic_only (if b then Ok a else Err (LogicError c)).
Proof. destruct b; [apply logic_only_Ok|apply logic_only_Err]. Qed.

Lemma logic_only_foldO {A St} (body : St → A → outcome St) l s :
  (∀ s a, logic_only (body s a)) → logic_only (foldO body l s).
Proof.
  intros Hb. revert s. induction l as [|a l IH]; intros s; simpl.
  - apply logic_only_Ok.
  - apply logic_only_bind; [apply Hb|apply IH].
Qed.

Lemma logic_only_slice (C : cube F) i : logic_only (slice C i).
Proof.
  unfold slice. destruct (_ !! _); [apply logic_only_Ok|apply logic_only_Err].
Qed.

Lemma logic_only_col (X : mat F) i : logic_only (col X i).
Proof.
  unfold col. destruct (_ !! _); [apply logic_only_Ok|apply logic_only_Err].
Qed.

Lemma logic_only_set_col (X : mat F) i v : logic_only (set_col X i v).
Proof.
  unfold set_col. destruct (_ !! _); [|apply logic_only_Err].
  destruct (cols v) as [|? [|? ?]]; try apply logic_only_Err.
  apply logic_only_if.
Qed.

Lemma logic_only_set_slice (C : cube F) i X : logic_only (set_slice C i X).
Proof.
  unfold set_slice. destruct (_ !! _); [|apply logic_only_Err].
  apply logic_only_if.
Qed.

Lemma logic_only_times3 (X Y Z : mat F) : logic_only (times3 X Y Z).
Proof.
  unfold times3, mul_chk.
  apply logic_only_bind; [|intros ?]; apply logic_only_if.
Qed.

Lemma logic_only_slice_add (C : cube F) i X : logic_only (slice_add C i X).
Proof.
  unfold slice_add. apply logic_only_bind; [apply logic_only_slice|intros Y].
  apply logic_only_bind; [apply logic_only_if|intros ?; apply logic_only_Ok].
Qed.

Lemma logic_only_per_mode_step K_prev sigma_prev t i :
  logic_only (per_mode_step inp K_prev sigma_prev t i).
Proof.
  unfold per_mode_step.
  repeat (apply logic_only_bind;
          [first [apply logic_only_slice | apply logic_only_times3
                 | apply logic_only_if | apply logic_only_slice_add
                 | apply logic_only_set_slice | apply logic_only_col
                 | apply logic_only_set_col]
          |intros ?]).
  apply logic_only_Ok.
Qed.

Lemma logic_only_initial_state : logic_only (initial_state inp).
Proof.
  unfold initial_state.
  apply logic_only_bind; [apply logic_only_if|intros ?].
  apply logic_only_bind;
    [unfold tail_cols1; destruct (last _);
       [apply logic_only_Ok|apply logic_only_Err]|intros v].
  apply logic_only_bind; [|intros ?; apply logic_only_Ok].
  unfold each_col. destruct (cols v) as [|? [|? ?]];
    try apply logic_only_Err. apply logic_only_if.
Qed.

Lemma wf_cube_lookup (C : cube F) i X :
  wf_cube C = true → slices C !! i = Some X →
  n_rows X = c_rows C ∧ n_cols X = c_cols C.
Proof.
  unfold wf_cube. rewrite forallb_forall. intros Hwf HX.
  apply list_elem_of_lookup_2, list_elem_of_In, Hwf in HX.
  apply andb_true_iff in HX as [HX _].
  by apply andb_true_iff in HX as [?%Nat.eqb_eq ?%Nat.eqb_eq].
Qed.

(** Line 89 passes only when [B] has as many columns as [R] has rows
    and columns. *)
Lemma per_mode_step_B_R K_prev sigma_prev i t' :
  wf_cube (augB inp) = true → wf_cube (augR inp) = true →
  per_mode_step inp K_prev sigma_prev (per_mode_init inp) i = Ok t' →
  c_cols (augB inp) = c_rows (augR inp) ∧ c_cols (augB inp) = c_cols (augR inp).
Proof.
  intros HwB HwR Hstep. unfold per_mode_step in Hstep. ok_steps.
  match goal with Hb : slice (augB inp) i = Ok ?B |- _ =>
    apply slice_Ok in Hb; apply (wf_cube_lookup _ _ _ HwB) in Hb as [_ HBc] end.
  match goal with Hr : slice_add (RBKB _) i _ = Ok _ |- _ =>
    apply slice_add_Ok in Hr as (Y & HY & [Hr1 Hr2] & _);
    apply (wf_cube_lookup _ _ _ HwR) in HY as [HYr HYc] end.
  repeat match goal with
  | Hp : times3 _ _ _ = Ok _ |- _ => apply times3_Ok in Hp as [_ ->]
  | Hp : symmatu_chk _ = Ok _ |- _ => apply symmatu_chk_Ok in Hp as [_ ->]
  end.
  rewrite n_cols_symmatu, n_cols_mmul in Hr2.
  unfold symmatu in Hr1. rewrite n_rows_mk, mmul3_square in Hr1.
  lia.
Qed.

(** A call that goes through a stage has as many modes as [A] and [B]
    have columns. *)
Lemma completion_needs_mode_count h :
  0 < N → 0 < M →
  mexFunction pinv mx_can_alloc inp no_outputs = (h, Ok ()) →
  c_cols (augA inp) = M ∧ c_cols (augB inp) = M.
Proof.
  intros HN HM Hrun.
  destruct (run_stage _ _ _ _ (N - 1) Hrun)
    as (h1 & vf1 & h2 & vf2 & _ & Hstage & _); [lia|].
  unfold stage in Hstage.
  apply mex_bind_Ok in Hstage as (? & t & [-> Ht]%lift_Ok & Hloop).
  apply per_mode_loop_Ok in Ht.
  destruct M as [|M'] eqn:HMe; [lia|]. simpl in Hloop.
  apply mex_bind_Ok in Hloop as (? & ? & Hmode & _).
  unfold current_mode in Hmode.
  apply mex_bind_Ok in Hmode as (? & mixt & [-> Hmix]%lift_Ok & _).
  unfold mixture_loop in Hmix. rewrite HMe in Hmix.
  apply bind_Ok in Hmix as (_ & _ & Hfold). simpl in Hfold.
  apply bind_Ok in Hfold as (mixt0 & Hstep & _).
  destruct Ht as [_ _ _ _ _ Ad Ar Ac Sd Sr Sc].
  unfold mixture_step in Hstep. ok_steps.
  repeat match goal with
  | Hc : col (Asigma t) 0 = Ok _ |- _ =>
      apply col_Ok in Hc as (? & _ & ->)
  | Hc : col (Bsigma t) 0 = Ok _ |- _ =>
      apply col_Ok in Hc as (? & _ & ->)
  | Ha : add_chk (s1 _) _ = Ok _ |- _ =>
      apply add_chk_Ok in Ha as [[Ha _] _]; simpl in Ha
  | Ha : add_chk (s2 _) _ = Ok _ |- _ =>
      apply add_chk_Ok in Ha as [[Ha _] _]; simpl in Ha
  end.
  lia.
Qed.

(** C3: the slip of lines 104-105.  [s1] and [s2] are made with
    [Asigma.n_cols] and [Bsigma.n_cols] entries, which is the number of
    modes, and then take up columns of [Asigma] and [Bsigma], which
    have as many entries as [A] and [B] have columns.  So a call with
    at least one stage and one mode fails whenever the number of
    columns of [A], or of [B], is not the number of modes. *)
Theorem mixture_vectors_sized_by_modes h r :
  0 < N → 0 < M →
  c_cols (augA inp) ≠ M ∨ c_cols (augB inp) ≠ M →
  mexFunction pinv mx_can_alloc inp no_outputs = (h, r) →
  ∃ e, r = Err e.
Proof.
  intros HN HM Hne Hrun. destruct r as [[]|e]; [exfalso|by eauto].
  destruct (completion_needs_mode_count h HN HM Hrun). lia.
Qed.

End Failures.

(** ** Where the call completes *)

Section Completion.
Context {F : Type} `{Scalar F}.
Variable pinv : mat F → option (mat F).
Variable mx_can_alloc : list Z → bool.
Variable inp : inputs (F:=F).
Variables n p : nat.

Local Abbreviation M := (numModes inp).
Local Abbreviation N := (Z.to_nat (horizonLength inp)).

Ltac solve_dims :=
  autorewrite with dims; simpl; first [done | lia | congruence | eassumption].

Lemma cube_is_shape r c s (C : cube F) :
  cube_is r c s C = true → cube_shape r c s C.
Proof.
  unfold cube_is. rewrite !andb_true_iff, !Nat.eqb_eq.
  intros [[[<- <-] <-] Hwf]. repeat split; try done.
  all: by eapply wf_cube_lookup.
Qed.

Lemma cube_shape_slice r c s (C : cube F) i :
  cube_shape r c s C → i < s →
  ∃ X, slices C !! i = Some X ∧ n_rows X = r ∧ n_cols X = c.
Proof.
  intros (_ & _ & Hs & Hall) Hi.
  destruct (slices C !! i) as [X|] eqn:HX.
  - exists X. split; [done|]. by eapply Hall.
  - apply lookup_ge_None in HX. unfold n_slices in Hs. lia.
Qed.

Lemma cube_shape_insert r c s (C : cube F) i X :
  cube_shape r c s C → n_rows X = r → n_cols X = c →
  cube_shape r c s (Cube (c_rows C) (c_cols C) (<[i:=X]> (slices C))).
Proof.
  intros (Hr & Hc & Hs & Hall) HXr HXc.
  split; [done|]. split; [done|]. split.
  - unfold n_slices in *. simpl. by rewrite length_insert.
  - simpl. intros m Y HY.
    apply list_lookup_insert_Some in HY as [(_ & <- & _)|[_ HY]]; [done|].
    by eapply Hall.
Qed.

Lemma preconditions_facts :
  preconditions inp n p = true →
  1 ≤ M ∧
  cube_shape n n M (augA inp) ∧ cube_shape n p M (augB inp) ∧
  cube_shape n n M (augQ inp) ∧ cube_shape p p M (augR inp) ∧
  (n_rows (transitionMatrix inp) = M ∧ n_cols (transitionMatrix inp) = M ∧
   wf_mat (transitionMatrix inp) = true) ∧
  (n_rows (terminalK inp) = n ∧ n_cols (terminalK inp) = n) ∧
  n_rows (refWeightings inp) = n ∧
  N + 1 ≤ n_cols (refWeightings inp) ∧
  (1 ≤ horizonLength inp < 2 ^ 31)%Z.
Proof.
  unfold preconditions, mat_is.
  rewrite !andb_true_iff, !Nat.eqb_eq, !Nat.leb_le, Z.leb_le, Z.ltb_lt.
  intros [[[[[[[[[[[HM HA] HB] HQ] HR] [[? ?] ?]] [[? ?] ?]] ?] ?] ?] ?] ?].
  repeat (split; [try done; by apply cube_is_shape|]).
  done.
Qed.


Lemma times3_same (X Y Z : mat F) :
  n_cols X = n_rows Y → n_cols Y = n_rows Z →
  times3 X Y Z = Ok (mmul (mmul X Y) Z).
Proof. intros. by apply times3_Ok. Qed.

Lemma mul_chk_same (X Y : mat F) :
  n_cols X = n_rows Y → mul_chk X Y = Ok (mmul X Y).
Proof. intros. by apply mul_chk_Ok. Qed.

Lemma add_chk_same (X Y : mat F) :
  n_rows X = n_rows Y → n_cols X = n_cols Y → add_chk X Y = Ok (madd X Y).
Proof. intros. by apply add_chk_Ok. Qed.

Lemma sub_chk_same (X Y : mat F) :
  n_rows X = n_rows Y → n_cols X = n_cols Y → sub_chk X Y = Ok (msub X Y).
Proof. intros. by apply sub_chk_Ok. Qed.

Lemma symmatu_chk_same (X : mat F) :
  n_rows X = n_cols X → symmatu_chk X = Ok (symmatu X).
Proof. intros. by apply symmatu_chk_Ok. Qed.

Lemma slice_same (C : cube F) i X : slices C !! i = Some X → slice C i = Ok X.
Proof. apply slice_Ok. Qed.

Lemma slice_add_same (C : cube F) i X Y :
  slices C !! i = Some Y → n_rows Y = n_rows X → n_cols Y = n_cols X →
  slice_add C i X = Ok (Cube (c_rows C) (c_cols C) (<[i:=madd Y X]> (slices C))).
Proof. intros. apply slice_add_Ok. eauto 10. Qed.

Lemma set_slice_same (C : cube F) i X :
  i < n_slices C → n_rows X = c_rows C → n_cols X = c_cols C →
  set_slice C i X = Ok (Cube (c_rows C) (c_cols C) (<[i:=X]> (slices C))).
Proof. intros. by apply set_slice_Ok. Qed.

Lemma col_same (X : mat F) j :
  j < n_cols X → ∃ c, cols X !! j = Some c ∧ col X j = Ok (Mat (n_rows X) [c]).
Proof.
  intros Hj. destruct (cols X !! j) as [c|] eqn:Hc.
  - exists c. split; [done|]. apply col_Ok. eauto.
  - apply lookup_ge_None in Hc. unfold n_cols in Hj. lia.
Qed.

Lemma set_col_same (X : mat F) j r f :
  j < n_cols X → r = n_rows X →
  set_col X j (mk r 1 f)
  = Ok (Mat (n_rows X) (<[j:=map (λ i, f i 0) (seq 0 r)]> (cols X))).
Proof. intros Hj ->. apply set_col_Ok. eexists. eauto. Qed.

Lemma set_col_vec (X : mat F) j (v : mat F) :
  j < n_cols X → n_cols v = 1 → wf_mat v = true → n_rows v = n_rows X →
  ∃ X', set_col X j v = Ok X' ∧ n_rows X' = n_rows X ∧ n_cols X' = n_cols X.
Proof.
  intros Hj Hc _ Hr. destruct v as [r [|c [|? ?]]]; try done.
  eexists. split.
  - apply set_col_Ok. eexists. eauto.
  - unfold n_cols. simpl. by rewrite length_insert.
Qed.

Ltac ok_with E := rewrite E; cbn [mbind outcome_bind].

(** Lines 88-92 pass on matrices of the right shapes. *)
Lemma per_mode_step_total K sigma t i :
  preconditions inp n p = true →
  state_shape n M (K, sigma) → per_mode_shape n p M t → i < M →
  ∃ t', per_mode_step inp K sigma t i = Ok t' ∧ per_mode_shape n p M t'.
Proof.
  intros (_ & HA & HB & _)%preconditions_facts (HK & Hsr & Hsc)
         (HQt & HRt & HBt & [Har Hac] & [Hbr Hbc]) Hi.
  simpl in *.
  destruct (cube_shape_slice _ _ _ _ i HA Hi) as (A_i & HAi & HAr & HAc).
  destruct (cube_shape_slice _ _ _ _ i HB Hi) as (B_i & HBi & HBr & HBc).
  destruct (cube_shape_slice _ _ _ _ i HK Hi) as (K_i & HKi & HKr & HKc).
  destruct (cube_shape_slice _ _ _ _ i HQt Hi) as (Q_i & HQi & HQr & HQc).
  destruct (cube_shape_slice _ _ _ _ i HRt Hi) as (R_i & HRi & HRr & HRc).
  destruct (col_same sigma i) as (c_i & Hci & Hcol); [lia|].
  destruct HBt as (HBtr & HBtc & HBts & HBtall).
  destruct (set_col_vec (Asigma t) i
              (mmul (trans A_i) (Mat (n_rows sigma) [c_i])))
    as (As' & HAs & HAsr & HAsc); [lia|solve_dims|apply wf_mk|solve_dims|].
  destruct (set_col_vec (Bsigma t) i
              (mmul (trans B_i) (Mat (n_rows sigma) [c_i])))
    as (Bs' & HBs & HBsr & HBsc); [lia|solve_dims|apply wf_mk|solve_dims|].
  eexists. split.
  { unfold per_mode_step.
  ok_with (slice_same _ _ _ HAi). ok_with (slice_same _ _ _ HKi).
  rewrite (times3_same (trans A_i) K_i A_i) by solve_dims.
  cbn [mbind outcome_bind].
  rewrite symmatu_chk_same by solve_dims. cbn [mbind outcome_bind].
  erewrite slice_add_same by (try exact HQi; solve_dims).
  cbn [mbind outcome_bind].
  ok_with (slice_same _ _ _ HBi).
  rewrite (times3_same (trans B_i) K_i B_i) by solve_dims.
  cbn [mbind outcome_bind].
  rewrite symmatu_chk_same by solve_dims. cbn [mbind outcome_bind].
  erewrite slice_add_same by (try exact HRi; solve_dims).
  cbn [mbind outcome_bind].
  rewrite (times3_same (trans B_i) K_i A_i) by solve_dims.
  cbn [mbind outcome_bind].
  rewrite set_slice_same by solve_dims. cbn [mbind outcome_bind].
  ok_with Hcol.
  rewrite (mul_chk_same (trans A_i)) by solve_dims. cbn [mbind outcome_bind].
  rewrite HAs. cbn [mbind outcome_bind].
  rewrite (mul_chk_same (trans B_i)) by solve_dims. cbn [mbind outcome_bind].
  rewrite HBs. cbn [mbind outcome_bind].
  reflexivity. }
  split; [|split; [|split; [|split]]]; simpl.
  - apply cube_shape_insert; solve_dims.
  - apply cube_shape_insert; solve_dims.
  - apply (cube_shape_insert p n M (BKA t)); [done|solve_dims|solve_dims].
  - lia.
  - lia.
Qed.


Lemma per_mode_init_shape :
  preconditions inp n p = true → per_mode_shape n p M (per_mode_init inp).
Proof.
  intros (_ & HA & HB & HQ & HR & _)%preconditions_facts.
  destruct HA as (HAr & HAc & _), HB as (HBr & HBc & _).
  unfold per_mode_init, per_mode_shape. simpl.
  rewrite HAr, HAc, HBc.
  split; [exact HQ|]. split; [exact HR|]. split.
  - split; [done|]. split; [done|]. split.
    + unfold n_slices. simpl. apply length_replicate.
    + simpl. intros m X [-> _]%lookup_replicate.
      split; [done|apply n_cols_zeros].
  - split; (split; [done|apply n_cols_zeros]).
Qed.

Lemma per_mode_fold_total K sigma l t :
  preconditions inp n p = true →
  state_shape n M (K, sigma) → per_mode_shape n p M t →
  Forall (λ i, i < M) l →
  ∃ t', foldO (per_mode_step inp K sigma) l t = Ok t' ∧ per_mode_shape n p M t'.
Proof.
  intros Hpre HK Ht Hl. revert t Ht.
  induction Hl as [|i l Hi _ IH]; intros t Ht; simpl.
  - by exists t.
  - destruct (per_mode_step_total K sigma t i Hpre HK Ht Hi) as (t1 & -> & Ht1).
    cbn [mbind outcome_bind]. by apply IH.
Qed.

Lemma Forall_seq_lt m : Forall (λ i, i < m) (seq 0 m).
Proof. apply Forall_forall. intros i Hi%list_elem_of_In%in_seq. lia. Qed.

Lemma per_mode_loop_total K sigma :
  preconditions inp n p = true → state_shape n M (K, sigma) →
  ∃ t, per_mode_loop inp K sigma = Ok t ∧ per_mode_shape n p M t.
Proof.
  intros Hpre HK. apply per_mode_fold_total; try done.
  - by apply per_mode_init_shape.
  - apply Forall_seq_lt.
Qed.

Lemma row_deref_total (T : mat F) j m :
  wf_mat T = true → j < n_rows T → m < n_cols T →
  ∃ w, row_deref T j m = Ok w.
Proof.
  intros Hwf Hj Hm. unfold row_deref.
  destruct (cols T !! m) as [c|] eqn:Hc.
  - pose proof (wf_mat_lookup _ _ _ Hwf Hc) as Hlen.
    destruct (c !! j) as [w|] eqn:Hw; [eauto|].
    apply lookup_ge_None in Hw. lia.
  - apply lookup_ge_None in Hc. unfold n_cols in Hm. lia.
Qed.

(** Lines 108-112 pass when the accumulators have the shapes of the
    summands. *)
Lemma mixture_step_total t j x m :
  preconditions inp n p = true →
  per_mode_shape n p M t → mixture_shape n p x → j < M → m < M →
  ∃ x', mixture_step inp t j x m = Ok x' ∧ mixture_shape n p x'.
Proof.
  intros (_ & _ & _ & _ & _ & (HTr & HTc & HTwf) & _)%preconditions_facts
         (HQt & HRt & HBt & [Har Hac] & [Hbr Hbc])
         ([? ?] & [? ?] & [? ?] & [? ?] & [? ?]) Hj Hm.
  destruct (row_deref_total (transitionMatrix inp) j m) as (w & Hw);
    [done|lia|lia|].
  destruct (cube_shape_slice _ _ _ _ m HQt Hm) as (Q_m & HQm & ? & ?).
  destruct (cube_shape_slice _ _ _ _ m HRt Hm) as (R_m & HRm & ? & ?).
  destruct (cube_shape_slice _ _ _ _ m HBt Hm) as (B_m & HBm & ? & ?).
  destruct (col_same (Asigma t) m) as (a_m & _ & Ham); [lia|].
  destruct (col_same (Bsigma t) m) as (b_m & _ & Hbm); [lia|].
  eexists. split.
  { unfold mixture_step.
    ok_with Hw.
    ok_with (slice_same _ _ _ HQm).
    rewrite (add_chk_same (P1 x)) by solve_dims. cbn [mbind outcome_bind].
    ok_with (slice_same _ _ _ HBm).
    rewrite (add_chk_same (P2 x)) by solve_dims. cbn [mbind outcome_bind].
    ok_with (slice_same _ _ _ HRm).
    rewrite (add_chk_same (P3 x)) by solve_dims. cbn [mbind outcome_bind].
    ok_with Ham.
    rewrite (add_chk_same (s1 x)) by solve_dims. cbn [mbind outcome_bind].
    ok_with Hbm.
    rewrite (add_chk_same (s2 x)) by solve_dims. cbn [mbind outcome_bind].
    reflexivity. }
  unfold mixture_shape. simpl. autorewrite with dims. auto 10.
Qed.

(** Lines 99-113 pass when [s1] and [s2], made with [numModes]
    entries, have to hold [n] and [p] entries: [n = p = numModes]. *)
Lemma mixture_loop_total t j :
  preconditions inp n p = true →
  per_mode_shape n p M t → j < M → n = M → p = M →
  ∃ x, mixture_loop inp t j = Ok x ∧ mixture_shape n p x.
Proof.
  intros Hpre Ht Hj Hn Hp.
  pose proof Hpre as (_ & HA & HB & _ & HR & (HTr & _) & _)%preconditions_facts.
  pose proof Ht as (_ & _ & _ & [Har Hac] & [Hbr Hbc]).
  destruct HA as (HAr & HAc & _), HB as (HBr & HBc & _), HR as (HRr & HRc & _).
  unfold mixture_loop, begin_row.
  replace (j <? n_rows (transitionMatrix inp)) with true
    by (symmetry; apply Nat.ltb_lt; lia).
  cbn [guard_chk mbind outcome_bind].
  assert (mixture_shape n p (mixture_init inp t)) as Hinit.
  { unfold mixture_init, mixture_shape, zeros_vec. simpl.
    autorewrite with dims. rewrite HAr, HAc, HBc, HRr, HRc, Hac, Hbc.
    repeat split; lia. }
  revert Hinit. generalize (mixture_init inp t).
  pose proof (Forall_seq_lt M) as Hl. revert Hl.
  generalize (seq 0 M). intros l Hl.
  induction Hl as [|m l Hm _ IH]; intros x Hx; simpl.
  - by exists x.
  - destruct (mixture_step_total t j x m Hpre Ht Hx Hj Hm) as (x1 & -> & Hx1).
    cbn [mbind outcome_bind]. by apply IH.
Qed.


Hypothesis pre : preconditions inp n p = true.
Hypothesis pinv_ok : pinv_total pinv.
Hypothesis n_is_M : n = M.
Hypothesis p_is_M : p = M.

Lemma dims_of_outputs : c_rows (augR inp) = p ∧ c_rows (augA inp) = n.
Proof using pre.
  pose proof pre as (_ & HA & _ & _ & HR & _)%preconditions_facts.
  destruct HA as (? & _), HR as (? & _). done.
Qed.

Lemma pinv_chk_total X :
  ∃ Y, pinv_chk pinv X = Ok Y ∧ n_rows Y = n_cols X ∧ n_cols Y = n_rows X.
Proof using pinv_ok.
  destruct (pinv_ok X) as (Y & HY & ? & ?). exists Y.
  unfold pinv_chk. by rewrite HY.
Qed.

Lemma update_K_total x :
  mixture_shape n p x →
  ∃ K_j, update_K pinv x = Ok K_j ∧ n_rows K_j = n ∧ n_cols K_j = n.
Proof using pre pinv_ok n_is_M p_is_M.
  intros ([? ?] & [? ?] & [? ?] & _).
  destruct (pinv_chk_total (P3 x)) as (Pi & HPi & ? & ?).
  eexists. split.
  { unfold update_K. ok_with HPi.
    rewrite times3_same by solve_dims. cbn [mbind outcome_bind].
    rewrite symmatu_chk_same by solve_dims. cbn [mbind outcome_bind].
    apply sub_chk_same; solve_dims. }
  split; solve_dims.
Qed.

Lemma update_sigma_total k x :
  mixture_shape n p x → k < N →
  ∃ s_j, update_sigma pinv inp k x = Ok s_j ∧
         n_rows s_j = n ∧ n_cols s_j = 1 ∧ wf_mat s_j = true.
Proof using pre pinv_ok n_is_M p_is_M.
  intros ([? ?] & [? ?] & [? ?] & [? ?] & [? ?]) Hk.
  pose proof pre as (_ & _ & _ & _ & _ & _ & _ & Hrr & Hrc & _)%preconditions_facts.
  destruct (pinv_chk_total (P3 x)) as (Pi & HPi & ? & ?).
  destruct (col_same (refWeightings inp) k) as (c_k & _ & Hck); [lia|].
  eexists. split.
  { unfold update_sigma. ok_with Hck.
    rewrite add_chk_same by solve_dims. cbn [mbind outcome_bind].
    ok_with HPi.
    rewrite times3_same by solve_dims. cbn [mbind outcome_bind].
    apply sub_chk_same; solve_dims. }
  split; [solve_dims|]. split; [solve_dims|apply wf_mk].
Qed.

Lemma gain_total x :
  mixture_shape n p x →
  ∃ G, gain pinv x = Ok G ∧ n_rows G = p ∧ n_cols G = n ∧ wf_mat G = true.
Proof using pre pinv_ok n_is_M p_is_M.
  intros ([? ?] & [? ?] & [? ?] & _).
  destruct (pinv_chk_total (P3 x)) as (Pi & HPi & ? & ?).
  eexists. split.
  { unfold gain. ok_with HPi. apply mul_chk_same; solve_dims. }
  split; [solve_dims|]. split; [solve_dims|apply wf_mk].
Qed.

Lemma feedforward_total x :
  mixture_shape n p x →
  ∃ f, feedforward pinv x = Ok f ∧ n_rows f = p ∧ n_cols f = 1 ∧
       wf_mat f = true.
Proof using pre pinv_ok n_is_M p_is_M.
  intros ([? ?] & [? ?] & [? ?] & [? ?] & [? ?]).
  destruct (pinv_chk_total (P3 x)) as (Pi & HPi & ? & ?).
  eexists. split.
  { unfold feedforward. ok_with HPi. apply mul_chk_same; solve_dims. }
  split; [solve_dims|]. split; [solve_dims|apply wf_mk].
Qed.

Lemma heap_shape_store0 c0 c1 (h : heap F) (off : nat) vals :
  heap_shape c0 c1 h → off + length vals ≤ c0 →
  ∃ h', store0 (Z.of_nat off) vals h = (h', Ok ()) ∧ heap_shape c0 c1 h'.
Proof.
  clear pre pinv_ok n_is_M p_is_M.
  intros (a0 & a1 & Ha0 & Hl0 & Ha1 & Hl1) Hoff.
  unfold store0. rewrite Ha0.
  destruct (store a0 (Z.of_nat off) vals) as [a0'|e] eqn:Hst.
  - eexists. split; [reflexivity|].
    apply store_Ok in Hst as [_ ->].
    exists (MxArray (mx_dims a0)
              (list_inserts (Z.to_nat (Z.of_nat off)) (Some <$> vals) (mx_pr a0))), a1.
    simpl. by rewrite length_inserts.
  - exfalso. unfold store in Hst.
    destruct (_ && _) eqn:Hb; [done|].
    apply andb_false_iff in Hb as [Hb|Hb].
    + apply Z.leb_gt in Hb. lia.
    + apply Z.leb_gt in Hb. lia.
Qed.

Lemma heap_shape_store1 c0 c1 (h : heap F) (off : nat) vals :
  heap_shape c0 c1 h → off + length vals ≤ c1 →
  ∃ h', store1 (Z.of_nat off) vals h = (h', Ok ()) ∧ heap_shape c0 c1 h'.
Proof.
  clear pre pinv_ok n_is_M p_is_M.
  intros (a0 & a1 & Ha0 & Hl0 & Ha1 & Hl1) Hoff.
  unfold store1. rewrite Ha1.
  destruct (store a1 (Z.of_nat off) vals) as [a1'|e] eqn:Hst.
  - eexists. split; [reflexivity|].
    apply store_Ok in Hst as [_ ->].
    exists a0, (MxArray (mx_dims a1)
              (list_inserts (Z.to_nat (Z.of_nat off)) (Some <$> vals) (mx_pr a1))).
    simpl. by rewrite length_inserts.
  - exfalso. unfold store in Hst.
    destruct (_ && _) eqn:Hb; [done|].
    apply andb_false_iff in Hb as [Hb|Hb].
    + apply Z.leb_gt in Hb. lia.
    + apply Z.leb_gt in Hb. lia.
Qed.

Local Abbreviation cells0 := (p * n * M * N).
Local Abbreviation cells1 := (p * M * N).

(** Lines 99-117 pass for every mode of every stage. *)
Lemma current_mode_total k t vf j h :
  per_mode_shape n p M t → state_shape n M vf → heap_shape cells0 cells1 h →
  k < N → j < M →
  ∃ h' vf',
    current_mode pinv inp k (Z.of_nat (k * M * (p * n))) (Z.of_nat (k * M * p))
                 t vf j h = (h', Ok vf') ∧
    state_shape n M vf' ∧ heap_shape cells0 cells1 h'.
Proof using pre pinv_ok n_is_M p_is_M.
  intros Ht (HK & Hsr & Hsc) Hh Hk Hj.
  destruct dims_of_outputs as [HpR HnA].
  destruct (mixture_loop_total t j pre Ht Hj n_is_M p_is_M) as (x & Hx & Hxs).
  destruct (update_K_total x Hxs) as (K_j & HKj & HKr & HKc).
  destruct (update_sigma_total k x Hxs Hk) as (s_j & Hsj & Hsjr & Hsjc & Hsjw).
  destruct (gain_total x Hxs) as (G & HG & HGr & HGc & HGw).
  destruct (feedforward_total x Hxs) as (f & Hf & Hfr & Hfc & Hfw).
  pose proof HK as (HKcr & HKcc & HKs & HKall).
  destruct (set_col_vec vf.2 j s_j) as (sig' & Hsig & Hsigr & Hsigc);
    [lia|done|done|lia|].
  destruct (heap_shape_store0 _ _ h ((k * M + j) * (p * n)) (mjoin (cols G)) Hh)
    as (h1 & Hst0 & Hh1).
  { rewrite length_join_cols, HGr, HGc by done.
    assert (k * M + j + 1 ≤ M * N) as Hc by nia.
    replace ((k * M + j) * (p * n) + n * p)
      with ((k * M + j + 1) * (p * n)) by lia.
    replace cells0 with (M * N * (p * n)) by lia.
    by apply Nat.mul_le_mono_r. }
  destruct (heap_shape_store1 _ _ h1 ((k * M + j) * p) (mjoin (cols f)) Hh1)
    as (h2 & Hst1 & Hh2).
  { rewrite length_join_cols, Hfr, Hfc by done.
    assert (k * M + j + 1 ≤ M * N) as Hc by nia.
    replace ((k * M + j) * p + 1 * p) with ((k * M + j + 1) * p) by lia.
    replace cells1 with (M * N * p) by lia.
    by apply Nat.mul_le_mono_r. }
  exists h2, (Cube (c_rows vf.1) (c_cols vf.1) (<[j:=K_j]> (slices vf.1)), sig').
  split; [|split; [split|done]].
  - unfold current_mode.
    apply mex_bind_Ok. exists h, x. split; [by apply lift_Ok|].
    apply mex_bind_Ok. eexists h, _. split.
    { apply lift_Ok. split; [done|]. rewrite HKj. cbn [mbind outcome_bind].
      apply set_slice_same; lia. }
    apply mex_bind_Ok. exists h, sig'. split.
    { apply lift_Ok. split; [done|]. rewrite Hsj. by cbn [mbind outcome_bind]. }
    apply mex_bind_Ok. exists h, G. split; [by apply lift_Ok|].
    apply mex_bind_Ok. exists h1, (). split.
    { unfold store_L_slice. rewrite HpR, HnA, HGr, HGc, !Nat.eqb_refl.
      unfold mbind, mex_bind, lift, guard_chk. simpl.
      rewrite <- Nat2Z.inj_add.
      replace (k * M * (p * n) + j * (p * n)) with ((k * M + j) * (p * n)) by lia.
      done. }
    apply mex_bind_Ok. exists h1, f. split; [by apply lift_Ok|].
    apply mex_bind_Ok. exists h2, (). split.
    { unfold store_feedforward_col. rewrite HpR, Hfr, Hfc, !Nat.eqb_refl.
      unfold mbind, mex_bind, lift, guard_chk. simpl.
      rewrite <- Nat2Z.inj_add.
      replace (k * M * p + j * p) with ((k * M + j) * p) by lia.
      done. }
    by apply mex_ret_Ok.
  - simpl. by apply cube_shape_insert.
  - simpl. lia.
Qed.


Lemma mode_loop_total k t l vf h :
  per_mode_shape n p M t → state_shape n M vf → heap_shape cells0 cells1 h →
  k < N → Forall (λ j, j < M) l →
  ∃ h' vf',
    foldM (current_mode pinv inp k (Z.of_nat (k * M * (p * n)))
                        (Z.of_nat (k * M * p)) t) l vf h = (h', Ok vf') ∧
    state_shape n M vf' ∧ heap_shape cells0 cells1 h'.
Proof using pre pinv_ok n_is_M p_is_M.
  intros Ht Hvf Hh Hk Hl. revert vf h Hvf Hh.
  induction Hl as [|j l Hj _ IH]; intros vf h Hvf Hh; simpl.
  - by exists h, vf.
  - destruct (current_mode_total k t vf j h Ht Hvf Hh Hk Hj)
      as (h1 & vf1 & Hrun & Hvf1 & Hh1).
    destruct (IH vf1 h1 Hvf1 Hh1) as (h2 & vf2 & Hrest & Hvf2 & Hh2).
    exists h2, vf2. split; [|done].
    apply mex_bind_Ok. by exists h1, vf1.
Qed.

(** A stage passes. *)
Lemma stage_total k vf h :
  state_shape n M vf → heap_shape cells0 cells1 h → k < N →
  ∃ h' vf',
    stage pinv inp k (Z.of_nat (k * M * (p * n))) (Z.of_nat (k * M * p)) vf h
      = (h', Ok vf') ∧
    state_shape n M vf' ∧ heap_shape cells0 cells1 h'.
Proof using pre pinv_ok n_is_M p_is_M.
  intros Hvf Hh Hk.
  destruct (per_mode_loop_total vf.1 vf.2 pre) as (t & Ht & Hts);
    [by destruct vf|].
  destruct (mode_loop_total k t (seq 0 M) vf h Hts Hvf Hh Hk (Forall_seq_lt M))
    as (h' & vf' & Hrun & Hvf' & Hh').
  exists h', vf'. split; [|done].
  unfold stage. apply mex_bind_Ok. exists h, t. by rewrite lift_Ok.
Qed.

(** The stages that remain pass. *)
Lemma stage_loop_total k1 vf h :
  state_shape n M vf → heap_shape cells0 cells1 h → k1 ≤ N →
  ∃ h' vf',
    stage_loop pinv inp k1
      (Z.of_nat (k1 * M * (c_rows (augR inp) * c_rows (augA inp))) - L_stride inp)
      (Z.of_nat (k1 * M * c_rows (augR inp)) - feedforward_stride inp) vf h
      = (h', Ok vf').
Proof using pre pinv_ok n_is_M p_is_M.
  destruct dims_of_outputs as [HpR HnA].
  revert vf h. induction k1 as [|k IH]; intros vf h Hvf Hh Hk.
  - by exists h, vf.
  - cbn [stage_loop]. rewrite !dstL_step, !dstF_step.
    destruct (stage_total k vf h Hvf Hh) as (h1 & vf1 & Hst & Hvf1 & Hh1); [lia|].
    destruct (IH vf1 h1 Hvf1 Hh1) as (h2 & vf2 & Hrest); [lia|].
    exists h2, vf2. apply mex_bind_Ok. exists h1, vf1. split; [|done].
    by rewrite HpR, HnA.
Qed.


Lemma initial_state_total :
  ∃ vf, initial_state inp = Ok vf ∧ state_shape n M vf.
Proof using pre.
  clear pinv_ok n_is_M p_is_M.
  pose proof pre as (HM & HA & _ & _ & _ & _ & (HKr & HKc) & Hrr & Hrc & _)
                      %preconditions_facts.
  destruct HA as (HAr & HAc & _).
  unfold initial_state, each_slice.
  rewrite HAr, HAc, HKr, HKc, !Nat.eqb_refl. cbn [andb mbind outcome_bind].
  unfold tail_cols1. rewrite last_lookup.
  destruct (cols (refWeightings inp) !! _) as [c|] eqn:Hlast.
  2:{ apply lookup_ge_None in Hlast. unfold n_cols in Hrc. lia. }
  cbn [mbind outcome_bind]. unfold each_col. cbn [cols n_rows].
  rewrite Nat.eqb_refl. cbn [mbind outcome_bind].
  eexists. split; [reflexivity|].
  split; [|split]; simpl.
  - split; [done|]. split; [done|]. split.
    + unfold n_slices. simpl. apply length_replicate.
    + simpl. by intros m X [-> _]%lookup_replicate.
  - done.
  - unfold n_cols. simpl. apply length_replicate.
Qed.

(** Where the slip of lines 104-105 does no harm, the call completes:
    on every input that satisfies the preconditions with
    [n = p = numModes], for a [pinv] that does not throw, when the
    output arrays can be made. *)
Lemma call_completes :
  room_for_outputs inp mx_can_alloc = true →
  ∃ h, mexFunction pinv mx_can_alloc inp no_outputs = (h, Ok ()).
Proof using pre pinv_ok n_is_M p_is_M.
  intros [Hr0 Hr1]%andb_true_iff.
  destruct dims_of_outputs as [HpR HnA].
  pose proof pre as (_ & _ & _ & _ & _ & _ & _ & _ & _ & HN)%preconditions_facts.
  destruct initial_state_total as (vf0 & Hinit & Hvf0).
  assert (to_size_t (horizonLength inp) = Z.of_nat N) as Hsz.
  { unfold to_size_t. rewrite Z.mod_small; lia. }
  set (h0 := Heap
    (Some (MxArray [Z.of_nat (c_rows (augR inp)); Z.of_nat (c_rows (augA inp));
                    Z.of_nat M; to_size_t (horizonLength inp)]
             (replicate cells0 (None : option F))))
    (Some (MxArray [Z.of_nat (c_rows (augR inp)); Z.of_nat M;
                    to_size_t (horizonLength inp)]
             (replicate cells1 (None : option F))))).
  assert (create_outputs mx_can_alloc inp no_outputs = (h0, Ok ())) as Hcreate.
  { unfold create_outputs, mxCreateUninitNumericArray. rewrite Hr0, Hr1.
    unfold h0, numel. simpl foldr. rewrite Hsz, HpR, HnA.
    do 6 f_equal; f_equal; lia. }
  assert (heap_shape cells0 cells1 h0) as Hh0.
  { unfold h0. eexists _, _. simpl.
    split; [reflexivity|]. split; [apply length_replicate|].
    split; [reflexivity|apply length_replicate]. }
  destruct (stage_loop_total N vf0 h0 Hvf0 Hh0) as (h & vfN & Hloop); [lia|].
  exists h. unfold mexFunction.
  apply mex_bind_Ok. exists h0, (). split; [done|].
  apply mex_bind_Ok. exists h0, vf0. split; [by apply lift_Ok|].
  apply mex_bind_Ok. exists h, vfN. split; [|by apply mex_ret_Ok].
  rewrite <- Hloop. f_equal.
  - unfold L_stride. lia.
  - unfold feedforward_stride. lia.
Qed.

End Completion.

(** X6.  On inputs of the shapes of the data model, with a [pinv] that
    returns and room for the outputs, the call completes exactly when
    the state and input dimensions are the number of modes. *)
Lemma completes_iff_dimensions_are_mode_count {F : Type} `{Scalar F}
    (pinv : mat F → option (mat F)) (mx_can_alloc : list Z → bool)
    (inp : inputs (F:=F)) (n p : nat) :
  preconditions inp n p = true → pinv_total pinv →
  room_for_outputs inp mx_can_alloc = true →
  (∃ h, mexFunction pinv mx_can_alloc inp no_outputs = (h, Ok ()))
  ↔ n = numModes inp ∧ p = numModes inp.
Proof.
  intros Hpre Hpinv Hroom. split.
  - intros (h & Hrun).
    pose proof Hpre as (HM & HA & HB & _ & _ & _ & _ & _ & _ & HN)
                        %preconditions_facts.
    destruct HA as (_ & HAc & _), HB as (_ & HBc & _).
    destruct (completion_needs_mode_count pinv mx_can_alloc inp h) as [? ?];
      [lia|lia|done|]. lia.
  - intros [Hn Hp]. by eapply call_completes.
Qed.

(** Whatever satisfies the second equation of Penrose takes a zero
    matrix to a zero matrix: with [R = 0] and a zero [P3] the gain is
    the product of a zero matrix. *)
Section PinvOfZero.
Context {F : Type} `{Scalar F}.
Variable pinv : mat F → option (mat F).
Hypothesis mul_zero_r : ∀ x : F, mul x zero = zero.
Hypothesis mul_zero_l : ∀ x : F, mul zero x = zero.
Hypothesis add_zero_zero : add (zero : F) zero = zero.

Lemma fold_add_zero (l : list nat) (g : nat → F) :
  (∀ k, k ∈ l → g k = zero) →
  fold_left (λ acc k, add acc (g k)) l zero = zero.
Proof using add_zero_zero.
  induction l as [|k l IH]; intros Hg; simpl; [done|].
  rewrite (Hg k) by by left. rewrite add_zero_zero.
  apply IH. intros k' Hk'. apply Hg. by right.
Qed.

Lemma mmul_zeros_r (X : mat F) r c :
  n_cols X = r → mmul X (zeros r c) = zeros (n_rows X) c.
Proof using mul_zero_r add_zero_zero.
  intros HX. unfold mmul. rewrite n_cols_zeros. apply mk_ext.
  intros i j Hi Hj. unfold dot. apply fold_add_zero.
  intros k Hk%list_elem_of_In%in_seq.
  unfold zeros. rewrite at_mk by lia. apply mul_zero_r.
Qed.

Lemma mmul_zeros_l (Y : mat F) r c :
  mmul (zeros r c) Y = zeros r (n_cols Y).
Proof using mul_zero_l add_zero_zero.
  unfold mmul. rewrite n_rows_zeros. apply mk_ext.
  intros i j Hi Hj. unfold dot. apply fold_add_zero.
  intros k Hk%list_elem_of_In%in_seq. rewrite n_cols_zeros in Hk.
  unfold zeros at 1. rewrite at_mk by lia. apply mul_zero_l.
Qed.

Lemma pinv_of_zero r c :
  pinv_total pinv → penrose_second pinv →
  pinv (zeros r c) = Some (zeros c r).
Proof using mul_zero_r mul_zero_l add_zero_zero.
  intros Htot Hpen. destruct (Htot (zeros r c)) as (X & HX & HXr & HXc).
  rewrite HX. f_equal.
  rewrite <- (Hpen _ _ HX).
  rewrite n_cols_zeros in HXr. rewrite n_rows_zeros in HXc.
  rewrite (mmul_zeros_r X r c HXc), mmul_zeros_l. by rewrite HXr, HXc.
Qed.

End PinvOfZero.

Lemma greville_shape (r : nat) (cs : list (list Q)) (st : mat Q * mat Q) :
  n_rows st.1 = r → n_cols st.2 = r →
  n_rows (fold_left greville_step cs st).2 = n_rows st.2 + length cs ∧
  n_cols (fold_left greville_step cs st).2 = r.
Proof.
  revert st. induction cs as [|a cs IH]; intros [Ak Akp] HAk HAkp;
    cbn [fold_left length].
  - split; [lia|done].
  - simpl in HAk, HAkp.
    destruct (IH (greville_step (Ak, Akp) a)) as [IHr IHc].
    + simpl. exact HAk.
    + simpl. unfold stack_row. rewrite n_cols_mk.
      destruct (is_zeroQ _); autorewrite with dims; simpl; congruence.
    + split; [|exact IHc]. rewrite IHr. simpl. lia.
Qed.

(** [pinvQ] never fails and transposes the shape. *)
Lemma pinvQ_total : pinv_total pinvQ.
Proof.
  intros X. eexists. split; [reflexivity|].
  destruct (greville_shape (n_rows X) (cols X)
              (Mat (n_rows X) [], Mat 0 (replicate (n_rows X) [])))
    as [Hr Hc].
  - reflexivity.
  - unfold n_cols. simpl. apply length_replicate.
  - split; [exact Hr|exact Hc].
Qed.

(** On rationals: the call completes when [n = p = numModes]. *)
Lemma rational_call_completes (inp : inputs) (n : nat) :
  preconditions inp n n = true → n = numModes inp →
  ∃ h, run inp = (h, Ok ()).
Proof.
  intros Hpre Hn.
  apply (call_completes pinvQ always_alloc inp n n Hpre pinvQ_total Hn Hn).
  reflexivity.
Qed.

(** [pinvQ] is the pseudo-inverse on the matrices it meets in the runs
    on [skew_cost_system]. *)
Lemma pinvQ_penrose_on_skew_run :
  penrose (M22 2 0 0 2) (M22 (1#2) 0 0 (1#2)) = true ∧
  pinvQ (M22 2 0 0 2) = Some (M22 (1#2) 0 0 (1#2)) ∧
  option_map (penrose (M22 (5#2) 1 1 (5#2))) (pinvQ (M22 (5#2) 1 1 (5#2)))
    = Some true ∧
  option_map (penrose (M22 (5#2) (1#2) (1#2) (5#2)))
             (pinvQ (M22 (5#2) (1#2) (1#2) (5#2)))
    = Some true.
Proof. vm_compute. auto. Qed.

(** C1: a completed call satisfies the formulas; here on two modes. *)
Lemma gain_and_feedforward_formula_witness :
  ∃ h1 K_next sigma_next,
    state_before_stage pinvQ always_alloc two_mode_system 0 no_outputs
      = (h1, Ok (K_next, sigma_next)) ∧
    (∃ G, gain_of pinvQ two_mode_system K_next 1 = Some G ∧
          emitted_gain two_mode_system (run two_mode_system).1 0 1 = Some G) ∧
    (∃ f, feedforward_of pinvQ two_mode_system K_next sigma_next 1 = Some f ∧
          emitted_feedforward two_mode_system (run two_mode_system).1 0 1
            = Some f).
Proof.
  apply (gain_and_feedforward_formula pinvQ always_alloc two_mode_system).
  - vm_compute. reflexivity.
  - vm_compute. lia.
  - vm_compute. lia.
Defined.

(** C1 as worded fails: with the state cost [[1 1; 0 1]] the state of
    stage 1 is not symmetric, and the gain emitted for stage 0 is not
    the one that [sym(X) = (X + Xᵗ)/2] inside [P3] would give. *)
Lemma gain_formula_with_averaging_fails :
  ∃ h h1 K_next sigma_next,
    preconditions skew_cost_system 2 2 = true ∧
    run skew_cost_system = (h, Ok ()) ∧
    state_before_stage pinvQ always_alloc skew_cost_system 0 no_outputs
      = (h1, Ok (K_next, sigma_next)) ∧
    emitted_gain skew_cost_system h 0 0
      = Some (M22 (-5#7) (-4#21) (2#7) (-11#21)) ∧
    claimed_gain_of pinvQ halfQ skew_cost_system K_next 0
      = Some (M22 (-5#8) (-7#24) (1#8) (-13#24)) ∧
    emitted_gain skew_cost_system h 0 0
      ≠ claimed_gain_of pinvQ halfQ skew_cost_system K_next 0.
Proof.
  eexists _, _, _, _.
  split; [vm_compute; reflexivity|].
  split; [vm_compute; reflexivity|].
  split; [vm_compute; reflexivity|].
  split; [vm_compute; reflexivity|].
  split; [vm_compute; reflexivity|].
  vm_compute. discriminate.
Qed.

(** C2 as worded fails: with two columns in [B] against a 1-by-1 [R]
    the failure is the addition check of line 89, and both output
    arrays exist by then. *)
Lemma mismatch_found_after_allocation :
  ∃ h, run B_against_R = (h, Err (LogicError IncompatibleAddition)) ∧
       out0 h ≠ None ∧ out1 h ≠ None ∧ h ≠ no_outputs.
Proof.
  eexists. split; [vm_compute; reflexivity|].
  repeat split; discriminate.
Qed.

(** C3: one mode, two states. *)
Lemma mixture_vectors_sized_by_modes_witness :
  ∃ e, (run (double_integrator 1)).2 = Err e.
Proof.
  apply (mixture_vectors_sized_by_modes pinvQ always_alloc (double_integrator 1)
           (run (double_integrator 1)).1).
  - vm_compute. lia.
  - vm_compute. lia.
  - left. vm_compute. lia.
  - apply surjective_pairing.
Defined.

(** C4: symmetric costs, symmetric [K]. *)
Lemma computed_K_symmetric_witness :
  ∃ h2 K_k sigma_k K_j,
    state_after_stage pinvQ always_alloc two_mode_system 0 no_outputs
      = (h2, Ok (K_k, sigma_k)) ∧
    slice K_k 1 = Ok K_j ∧ symmetric K_j.
Proof.
  apply (computed_K_symmetric pinvQ always_alloc two_mode_system
           (run two_mode_system).1).
  - intros [|[|m]] Q_m; simpl; intros [= <-]; reflexivity.
  - vm_compute. reflexivity.
  - vm_compute. lia.
  - vm_compute. lia.
Defined.

(** C4 as worded fails: a state cost that is not symmetric gives a [K]
    that is not. *)
Lemma computed_K_not_symmetric :
  ∃ h2 K_k sigma_k,
    preconditions skew_cost_system 2 2 = true ∧
    run skew_cost_system = ((run skew_cost_system).1, Ok ()) ∧
    state_after_stage pinvQ always_alloc skew_cost_system 1 no_outputs
      = (h2, Ok (K_k, sigma_k)) ∧
    slice K_k 0 = Ok (M22 (3#2) 1 0 (3#2)) ∧
    ¬ symmetric (M22 (3#2) 1 0 (3#2)).
Proof.
  eexists _, _, _.
  split; [vm_compute; reflexivity|].
  split; [vm_compute; reflexivity|].
  split; [vm_compute; reflexivity|].
  split; [vm_compute; reflexivity|].
  unfold symmetric. vm_compute. discriminate.
Qed.

(** C5: the update of the state, here at the last iteration, which
    reads column 0 of the reference weightings. *)
Lemma value_function_update_witness :
  ∃ h1 K_next sigma_next h2 K_k sigma_k,
    state_before_stage pinvQ always_alloc two_mode_system 0 no_outputs
      = (h1, Ok (K_next, sigma_next)) ∧
    state_after_stage pinvQ always_alloc two_mode_system 0 no_outputs
      = (h2, Ok (K_k, sigma_k)) ∧
    (∃ K_j, K_of pinvQ two_mode_system K_next 1 = Some K_j ∧
            slice K_k 1 = Ok K_j) ∧
    (∃ sigma_j,
        sigma_of pinvQ two_mode_system K_next sigma_next 0 1 = Some sigma_j ∧
        col sigma_k 1 = Ok sigma_j).
Proof.
  apply (value_function_update pinvQ always_alloc two_mode_system
           (run two_mode_system).1).
  - vm_compute. reflexivity.
  - vm_compute. lia.
  - vm_compute. lia.
Defined.

(** C5 as worded fails: the code subtracts the symmetrised product from
    [P1] and leaves the difference as it is. *)
Lemma update_is_not_averaged :
  ∃ h1 K_next sigma_next h2 K_k sigma_k,
    preconditions skew_cost_system 2 2 = true ∧
    run skew_cost_system = ((run skew_cost_system).1, Ok ()) ∧
    state_before_stage pinvQ always_alloc skew_cost_system 1 no_outputs
      = (h1, Ok (K_next, sigma_next)) ∧
    state_after_stage pinvQ always_alloc skew_cost_system 1 no_outputs
      = (h2, Ok (K_k, sigma_k)) ∧
    slice K_k 0 = Ok (M22 (3#2) 1 0 (3#2)) ∧
    claimed_K_of pinvQ halfQ skew_cost_system K_next 0
      = Some (M22 (3#2) (1#2) (1#2) (3#2)) ∧
    M22 (3#2) 1 0 (3#2) ≠ M22 (3#2) (1#2) (1#2) (3#2).
Proof.
  eexists _, _, _, _, _, _.
  split; [vm_compute; reflexivity|].
  split; [vm_compute; reflexivity|].
  split; [vm_compute; reflexivity|].
  split; [vm_compute; reflexivity|].
  split; [vm_compute; reflexivity|].
  split; [vm_compute; reflexivity|].
  discriminate.
Qed.

(** C7: a third stage in front of the two. *)
Lemma horizon_extension_witness :
  ∃ h1 h1' K_next sigma_next G f,
    state_before_stage pinvQ always_alloc two_mode_system 1 no_outputs
      = (h1, Ok (K_next, sigma_next)) ∧
    state_before_stage pinvQ always_alloc
                       (extend_horizon two_mode_system [5; 7]%Q) 2 no_outputs
      = (h1', Ok (K_next, sigma_next)) ∧
    gain_of pinvQ two_mode_system K_next 0 = Some G ∧
    feedforward_of pinvQ two_mode_system K_next sigma_next 0 = Some f ∧
    emitted_gain two_mode_system (run two_mode_system).1 1 0 = Some G ∧
    emitted_gain (extend_horizon two_mode_system [5; 7]%Q)
                 (run (extend_horizon two_mode_system [5; 7]%Q)).1 2 0
      = Some G ∧
    emitted_feedforward two_mode_system (run two_mode_system).1 1 0 = Some f ∧
    emitted_feedforward (extend_horizon two_mode_system [5; 7]%Q)
                        (run (extend_horizon two_mode_system [5; 7]%Q)).1 2 0
      = Some f.
Proof.
  apply (horizon_extension pinvQ always_alloc two_mode_system [5; 7]%Q).
  - vm_compute. discriminate.
  - vm_compute. reflexivity.
  - vm_compute. reflexivity.
  - vm_compute. lia.
  - vm_compute. lia.
Defined.

(** C8: on the scalar system of the claim the call emits the gains
    [-3/5] (stage 0) and [-1/2] (stage 1), those of the single-mode
    recursion; on a single-mode system with two states the single-mode
    recursion has gains and the call has none: it fails at line 111. *)
Theorem single_mode_reduction_only_for_one_state :
  preconditions scalar_system 1 1 = true ∧
  (run scalar_system).2 = Ok () ∧
  emitted_gain scalar_system (run scalar_system).1 0 0 = Some (M11 (-3#5)) ∧
  emitted_gain scalar_system (run scalar_system).1 1 0 = Some (M11 (-1#2)) ∧
  standard_recursion pinvQ (M11 1) (M11 1) (M11 1) (M11 1)
                     (refWeightings scalar_system) 2 (M11 1) (M11 0)
    = Some [(M11 (-3#5), M11 0); (M11 (-1#2), M11 0)] ∧
  standard_recursion pinvQ (M22 1 1 0 1) (Mat 2 [[0; 1]]%Q) I2 (M11 1)
                     (refWeightings (double_integrator 1)) 2
                     I2 (Mat 2 [[0; 0]]%Q)
    = Some [(Mat 1 [[-2#7]; [-1]]%Q, M11 0); (Mat 1 [[0]; [-1#2]]%Q, M11 0)] ∧
  preconditions (double_integrator 1) 2 1 = true ∧
  (run (double_integrator 1)).2 = Err (LogicError IncompatibleAddition).
Proof. vm_compute. repeat split. Qed.

(** C9: with [R = 0], one state and a zero [P3] the call completes,
    [pinv] takes the zero matrix to the zero matrix and the gain and the
    feedforward emitted are zero; with [R = 0] and two states in one
    mode the call fails at line 111, before [pinv] is reached. *)
Theorem zero_input_cost_fails_on_two_states :
  preconditions zero_cost_scalar 1 1 = true ∧
  R_ zero_cost_scalar 0 = zeros 1 1 ∧
  (run zero_cost_scalar).2 = Ok () ∧
  P3_of zero_cost_scalar (one_mode 1 1 (M11 1)) 0 = zeros 1 1 ∧
  pinvQ (zeros 1 1) = Some (zeros 1 1) ∧
  emitted_gain zero_cost_scalar (run zero_cost_scalar).1 0 0 = Some (M11 0) ∧
  emitted_gain zero_cost_scalar (run zero_cost_scalar).1 1 0 = Some (M11 0) ∧
  emitted_feedforward zero_cost_scalar (run zero_cost_scalar).1 0 0
    = Some (M11 0) ∧
  emitted_feedforward zero_cost_scalar (run zero_cost_scalar).1 1 0
    = Some (M11 0) ∧
  preconditions (double_integrator 0) 2 1 = true ∧
  R_ (double_integrator 0) 0 = zeros 1 1 ∧
  (run (double_integrator 0)).2 = Err (LogicError IncompatibleAddition).
Proof. vm_compute. repeat split. Qed.

(** ** The call as a whole: its failures and its cells *)

Section Safety.
Context {F : Type} `{Scalar F}.
Variable pinv : mat F → option (mat F).
Variable inp : inputs (F:=F).
Variable P : error → Prop.

Local Abbreviation p := (c_rows (augR inp)).
Local Abbreviation n := (c_rows (augA inp)).
Local Abbreviation M := (numModes inp).

Hypothesis P_logic : ∀ c, P (LogicError c).
Hypothesis P_pinv : P PinvFailed.
Hypothesis P_row : ∀ j m,
  j < n_rows (transitionMatrix inp) → m < M →
  fails_only P (row_deref (transitionMatrix inp) j m).

Lemma fails_only_logic {A} (o : outcome A) : logic_only o → fails_only P o.
Proof using P_logic.
  intros Ho e He. destruct (Ho e He) as (c & ->). apply P_logic.
Qed.

Lemma fails_only_bind {A B} (m : outcome A) (f : A → outcome B) :
  fails_only P m → (∀ a, fails_only P (f a)) → fails_only P (m ≫= f).
Proof.
  intros Hm Hf e. destruct m as [a|e']; simpl; [by apply Hf|].
  intros [= <-]. by apply Hm.
Qed.

Lemma fails_only_foldO {A St} (body : St → A → outcome St) l s :
  (∀ s a, a ∈ l → fails_only P (body s a)) → fails_only P (foldO body l s).
Proof.
  revert s. induction l as [|a l IH]; intros s Hb; simpl.
  - intros e [=].
  - apply fails_only_bind; [apply Hb; by left|].
    intros s'. apply IH. intros s'' a' Ha'. apply Hb. by right.
Qed.

Lemma fails_only_pinv_chk X : fails_only P (pinv_chk pinv X).
Proof using P_pinv.
  unfold pinv_chk. destruct (pinv X); intros e [= <-]. done.
Qed.

Ltac fails_step :=
  first [ apply fails_only_pinv_chk
        | apply fails_only_logic;
          first [ apply logic_only_times3 | apply logic_only_slice
                | apply logic_only_col | apply logic_only_set_col
                | apply logic_only_set_slice | apply logic_only_Ok
                | unfold add_chk, sub_chk, mul_chk, symmatu_chk;
                  apply logic_only_if ] ].

Ltac fails_steps :=
  repeat (apply fails_only_bind; [fails_step|intros ?]); fails_step.

Lemma fails_only_update_K x : fails_only P (update_K pinv x).
Proof using P_logic P_pinv. unfold update_K. fails_steps. Qed.

Lemma fails_only_update_sigma k x : fails_only P (update_sigma pinv inp k x).
Proof using P_logic P_pinv. unfold update_sigma. fails_steps. Qed.

Lemma fails_only_gain x : fails_only P (gain pinv x).
Proof using P_logic P_pinv. unfold gain. fails_steps. Qed.

Lemma fails_only_feedforward x : fails_only P (feedforward pinv x).
Proof using P_logic P_pinv. unfold feedforward. fails_steps. Qed.

Lemma fails_only_mixture_loop t j : fails_only P (mixture_loop inp t j).
Proof using P_logic P_row.
  unfold mixture_loop, begin_row, guard_chk.
  destruct (j <? n_rows (transitionMatrix inp)) eqn:Hj; simpl.
  2:{ intros e [= <-]. apply P_logic. }
  apply Nat.ltb_lt in Hj.
  apply fails_only_foldO. intros x m Hm%list_elem_of_In%in_seq.
  unfold mixture_step.
  apply fails_only_bind; [apply P_row; lia|intros w].
  fails_steps.
Qed.

Lemma fails_only_per_mode_loop K sigma :
  fails_only P (per_mode_loop inp K sigma).
Proof using P_logic.
  apply fails_only_logic, logic_only_foldO.
  intros. apply logic_only_per_mode_step.
Qed.

Lemma mex_safe_ret (I : heap F → Prop) {A} (a : A) : mex_safe I P (mret a : mex F A).
Proof. intros h h' r Hh [= <- <-]. split; [done|]. intros e [=]. Qed.

Lemma mex_safe_lift (I : heap F → Prop) {A} (o : outcome A) :
  fails_only P o → mex_safe I P (lift o).
Proof. intros Ho h h' r Hh [= <- <-]. split; [done|]. exact Ho. Qed.

Lemma mex_safe_bind (I : heap F → Prop) {A B} (m : mex F A) (f : A → mex F B) :
  mex_safe I P m →
  (∀ a h h1, m h = (h1, Ok a) → mex_safe I P (f a)) →
  mex_safe I P (m ≫= f).
Proof.
  intros Hm Hf h h' r Hh. unfold mbind, mex_bind.
  destruct (m h) as [h1 [a|e]] eqn:Hmh.
  - intros Hfa. destruct (Hm _ _ _ Hh Hmh) as [Hh1 _].
    exact (Hf _ _ _ Hmh _ _ _ Hh1 Hfa).
  - intros [= <- <-]. destruct (Hm _ _ _ Hh Hmh) as [Hh1 He].
    split; [done|]. intros e' [= <-]. by apply He.
Qed.

Lemma mex_safe_foldM (I : heap F → Prop) {A St} (body : St → A → mex F St) l s :
  (∀ s a, a ∈ l → mex_safe I P (body s a)) → mex_safe I P (foldM body l s).
Proof.
  revert s. induction l as [|a l IH]; intros s Hb; simpl.
  - apply mex_safe_ret.
  - apply mex_safe_bind; [apply Hb; by left|].
    intros s' _ _ _. apply IH. intros s'' a' Ha'. apply Hb. by right.
Qed.

Variables (d0 d1 : list Z) (c0 c1 : nat).

(** [L.slice(j) = G] stays within the array when the block does. *)
Lemma store_L_slice_safe dstL b j G :
  dstL = Z.of_nat (b * (p * n)) → wf_mat G = true →
  (b + j + 1) * (p * n) ≤ c0 →
  mex_safe (heap_layout d0 c0 d1 c1) P (store_L_slice inp dstL j G).
Proof using P_logic.
  intros -> Hwf Hrange h h' r (a0 & a1 & Ha0 & Hd0 & Hl0 & Ha1 & Hd1 & Hl1).
  unfold store_L_slice, mbind, mex_bind, lift, guard_chk.
  destruct (_ && _) eqn:Hdims.
  2:{ intros [= <- <-]. split; [by exists a0, a1|].
      intros e [= <-]. apply P_logic. }
  apply andb_true_iff in Hdims as [Hr%Nat.eqb_eq Hc%Nat.eqb_eq].
  unfold store0. rewrite Ha0. rewrite <- Nat2Z.inj_add.
  destruct (store a0 _ _) as [a0'|e] eqn:Hst.
  - intros [= <- <-]. split; [|intros e [=]].
    apply store_Ok in Hst as [_ ->]. eexists _, a1.
    split; [reflexivity|]. simpl. by rewrite length_inserts.
  - exfalso. unfold store in Hst. destruct (_ && _) eqn:Hb; [done|].
    rewrite length_join_cols, Hr, Hc in Hb by done.
    assert (b * (p * n) + j * (p * n) + n * p = (b + j + 1) * (p * n))
      by lia.
    apply andb_false_iff in Hb as [Hb|Hb]; apply Z.leb_gt in Hb; lia.
Qed.

(** [feedforward.col(j) = f] stays within the array when the block
    does. *)
Lemma store_feedforward_col_safe dstF b j f :
  dstF = Z.of_nat (b * p) → wf_mat f = true →
  (b + j + 1) * p ≤ c1 →
  mex_safe (heap_layout d0 c0 d1 c1) P (store_feedforward_col inp dstF j f).
Proof using P_logic.
  intros -> Hwf Hrange h h' r (a0 & a1 & Ha0 & Hd0 & Hl0 & Ha1 & Hd1 & Hl1).
  unfold store_feedforward_col, mbind, mex_bind, lift, guard_chk.
  destruct (_ && _) eqn:Hdims.
  2:{ intros [= <- <-]. split; [by exists a0, a1|].
      intros e [= <-]. apply P_logic. }
  apply andb_true_iff in Hdims as [Hr%Nat.eqb_eq Hc%Nat.eqb_eq].
  unfold store1. rewrite Ha1. rewrite <- Nat2Z.inj_add.
  destruct (store a1 _ _) as [a1'|e] eqn:Hst.
  - intros [= <- <-]. split; [|intros e [=]].
    apply store_Ok in Hst as [_ ->]. eexists a0, _.
    do 3 (split; [done|]). split; [reflexivity|]. simpl.
    by rewrite length_inserts.
  - exfalso. unfold store in Hst. destruct (_ && _) eqn:Hb; [done|].
    rewrite length_join_cols, Hr, Hc in Hb by done.
    assert (b * p + j * p + 1 * p = (b + j + 1) * p) by lia.
    apply andb_false_iff in Hb as [Hb|Hb]; apply Z.leb_gt in Hb; lia.
Qed.

Lemma current_mode_safe k t vf j :
  (k * M + j + 1) * (p * n) ≤ c0 → (k * M + j + 1) * p ≤ c1 →
  mex_safe (heap_layout d0 c0 d1 c1) P
    (current_mode pinv inp k (Z.of_nat (k * M * (p * n)))
                  (Z.of_nat (k * M * p)) t vf j).
Proof using P_logic P_pinv P_row.
  intros H0 H1. unfold current_mode.
  apply mex_safe_bind;
    [apply mex_safe_lift, fails_only_mixture_loop|intros x _ _ _].
  apply mex_safe_bind; [apply mex_safe_lift|intros K_k' _ _ _].
  { apply fails_only_bind; [apply fails_only_update_K|intros ?; fails_step]. }
  apply mex_safe_bind; [apply mex_safe_lift|intros sigma_k' _ _ _].
  { apply fails_only_bind; [apply fails_only_update_sigma|intros ?; fails_step]. }
  apply mex_safe_bind; [apply mex_safe_lift, fails_only_gain|intros G ? ? HG].
  injection HG as _ HG. apply gain_wf in HG.
  apply mex_safe_bind; [by apply (store_L_slice_safe _ (k * M))|intros _ _ _ _].
  apply mex_safe_bind;
    [apply mex_safe_lift, fails_only_feedforward|intros f ? ? Hf].
  injection Hf as _ Hf. apply feedforward_wf in Hf.
  apply mex_safe_bind;
    [by apply (store_feedforward_col_safe _ (k * M))|intros _ _ _ _].
  apply mex_safe_ret.
Qed.

Lemma stage_safe k vf :
  S k * M * (p * n) ≤ c0 → S k * M * p ≤ c1 →
  mex_safe (heap_layout d0 c0 d1 c1) P
    (stage pinv inp k (Z.of_nat (k * M * (p * n))) (Z.of_nat (k * M * p)) vf).
Proof using P_logic P_pinv P_row.
  intros H0 H1. unfold stage.
  apply mex_safe_bind;
    [apply mex_safe_lift, fails_only_per_mode_loop|intros t _ _ _].
  apply mex_safe_foldM. intros s j Hj%list_elem_of_In%in_seq.
  apply current_mode_safe.
  - etrans; [|exact H0]. apply Nat.mul_le_mono_r. lia.
  - etrans; [|exact H1]. apply Nat.mul_le_mono_r. lia.
Qed.

Lemma stage_loop_safe k1 vf :
  k1 * M * (p * n) ≤ c0 → k1 * M * p ≤ c1 →
  mex_safe (heap_layout d0 c0 d1 c1) P
    (stage_loop pinv inp k1
       (Z.of_nat (k1 * M * (p * n)) - L_stride inp)
       (Z.of_nat (k1 * M * p) - feedforward_stride inp) vf).
Proof using P_logic P_pinv P_row.
  revert vf. induction k1 as [|k IH]; intros vf H0 H1.
  - apply mex_safe_ret.
  - cbn [stage_loop]. rewrite !dstL_step, !dstF_step.
    apply mex_safe_bind; [by apply stage_safe|intros vf' _ _ _].
    apply IH.
    + etrans; [|exact H0]. do 2 apply Nat.mul_le_mono_r. lia.
    + etrans; [|exact H1]. do 2 apply Nat.mul_le_mono_r. lia.
Qed.

End Safety.

Section WholeCall.
Context {F : Type} `{Scalar F}.
Variable pinv : mat F → option (mat F).
Variable mx_can_alloc : list Z → bool.
Variable inp : inputs (F:=F).

Local Abbreviation p := (c_rows (augR inp)).
Local Abbreviation n := (c_rows (augA inp)).
Local Abbreviation M := (numModes inp).
Local Abbreviation N := (Z.to_nat (horizonLength inp)).
Local Abbreviation dimsL :=
  [Z.of_nat p; Z.of_nat n; Z.of_nat M; to_size_t (horizonLength inp)].
Local Abbreviation dimsF :=
  [Z.of_nat p; Z.of_nat M; to_size_t (horizonLength inp)].

(** Without room for both arrays the call stops at line 55. *)
Lemma call_without_room :
  room_for_outputs inp mx_can_alloc = false →
  ∃ h, mexFunction pinv mx_can_alloc inp no_outputs = (h, Err AllocationFailed) ∧
       ∀ a, out0 h = Some a ∨ out1 h = Some a → unwritten a.
Proof.
  intros Hroom. unfold room_for_outputs in Hroom.
  unfold mexFunction, create_outputs, mxCreateUninitNumericArray.
  unfold mbind at 1, mex_bind at 1.
  destruct (mx_can_alloc [_; _; _; _]); destruct (mx_can_alloc [_; _; _]);
    simpl in Hroom; try done.
  all: eexists; split; [reflexivity|]; simpl.
  all: intros a [Ha|Ha]; try discriminate; injection Ha as <-.
  all: by apply Forall_replicate.
Qed.

(** With room for them, both arrays keep their dimensions and their
    size to the end of the call, no write leaves them, and the call
    fails only as the checks of Armadillo, [pinv] and the row iterator
    of the transition matrix fail. *)
Lemma call_safe (P : error → Prop) h r :
  (∀ c, P (LogicError c)) → P PinvFailed →
  (∀ j m, j < n_rows (transitionMatrix inp) → m < M →
     fails_only P (row_deref (transitionMatrix inp) j m)) →
  (horizonLength inp < 2 ^ 64)%Z →
  room_for_outputs inp mx_can_alloc = true →
  mexFunction pinv mx_can_alloc inp no_outputs = (h, r) →
  heap_layout dimsL (Z.to_nat (numel dimsL)) dimsF (Z.to_nat (numel dimsF)) h ∧
  ∀ e, r = Err e → P e.
Proof.
  intros Plog Ppinv Prow Hhl [H0 H1]%andb_true_iff.
  set (h0 := Heap
    (Some (MxArray dimsL (replicate (Z.to_nat (numel dimsL)) (None : option F))))
    (Some (MxArray dimsF (replicate (Z.to_nat (numel dimsF)) (None : option F))))).
  assert (create_outputs mx_can_alloc inp no_outputs = (h0, Ok ())) as Hc.
  { unfold create_outputs, mxCreateUninitNumericArray. by rewrite H0, H1. }
  assert (heap_layout dimsL (Z.to_nat (numel dimsL))
                      dimsF (Z.to_nat (numel dimsF)) h0) as Hh0.
  { eexists _, _. split; [reflexivity|]. split; [reflexivity|].
    split; [apply length_replicate|]. split; [reflexivity|].
    split; [reflexivity|apply length_replicate]. }
  unfold mexFunction. unfold mbind at 1, mex_bind at 1. rewrite Hc.
  unfold mbind at 1, mex_bind at 1, lift at 1.
  destruct (initial_state inp) as [vf|e0] eqn:Hinit.
  2:{ intros [= <- <-]. split; [done|]. intros e [= <-].
      destruct (logic_only_initial_state inp e0 Hinit) as (c & ->).
      apply Plog. }
  assert (mex_safe
            (heap_layout dimsL (Z.to_nat (numel dimsL))
                         dimsF (Z.to_nat (numel dimsF))) P
            (stage_loop pinv inp N
               ((horizonLength inp - 1) * L_stride inp)
               ((horizonLength inp - 1) * feedforward_stride inp) vf))
    as Hloop.
  { destruct N as [|k] eqn:HN.
    - apply mex_safe_ret.
    - assert (horizonLength inp = Z.of_nat (S k)) as Hk by lia.
      replace ((horizonLength inp - 1) * L_stride inp)%Z
        with (Z.of_nat (S k * M * (p * n)) - L_stride inp)%Z
        by (unfold L_stride; lia).
      replace ((horizonLength inp - 1) * feedforward_stride inp)%Z
        with (Z.of_nat (S k * M * p) - feedforward_stride inp)%Z
        by (unfold feedforward_stride; lia).
      apply stage_loop_safe; try done.
      + unfold numel, to_size_t. simpl foldr.
        rewrite Z.mod_small by lia. rewrite Hk. lia.
      + unfold numel, to_size_t. simpl foldr.
        rewrite Z.mod_small by lia. rewrite Hk. lia. }
  unfold mbind, mex_bind.
  destruct (stage_loop _ _ _ _ _ _ h0) as [h1 [vf'|e1]] eqn:Hrun;
    intros [= <- <-]; destruct (Hloop _ _ _ Hh0 Hrun) as [Hh1 He];
    (split; [done|]).
  - intros e [=].
  - intros e [= <-]. by apply He.
Qed.

(** The cells that [load] reads have all been written. *)
Lemma load_Some_lookup (a : mxArray F) off len vs i :
  load a off len = Some vs → i < len →
  ∃ v, mx_pr a !! (off + i) = Some (Some v).
Proof.
  unfold load. destruct (length _ =? len) eqn:Hlen; [|done].
  apply Nat.eqb_eq in Hlen. intros Hm%mapM_Some Hi.
  destruct (lookup_lt_is_Some_2 (take len (drop off (mx_pr a))) i)
    as [x Hx]; [lia|].
  destruct (Forall2_lookup_l _ _ _ _ _ Hm Hx) as (v & _ & Hv).
  simpl in Hv. subst x.
  rewrite lookup_take, lookup_drop in Hx. case_decide; [|done]. eauto.
Qed.

(** An array made of [B] blocks of [len] cells, each of them written. *)
Lemma all_blocks_written (l : list (option F)) len B :
  length l = B * len →
  (∀ b i, b < B → i < len → ∃ v, l !! (b * len + i) = Some (Some v)) →
  Forall is_Some l.
Proof.
  intros Hlen Hall. apply Forall_lookup. intros c x Hc.
  pose proof (lookup_lt_Some _ _ _ Hc) as Hlt. rewrite Hlen in Hlt.
  assert (len ≠ 0) as Hne by (intros ->; lia).
  pose proof (Nat.div_mod_eq c len) as Hdm.
  pose proof (Nat.mod_upper_bound c len Hne) as Hmod.
  assert (c / len < B) as Hdiv
    by (apply Nat.Div0.div_lt_upper_bound; lia).
  destruct (Hall (c / len) (c mod len) Hdiv Hmod) as (v & Hv).
  replace (c / len * len + c mod len) with c in Hv by lia.
  rewrite Hc in Hv. injection Hv as ->. eauto.
Qed.

(** Which stage and mode a block below [M * N] belongs to. *)
Lemma block_of_stage_and_mode b :
  b < M * N → ∃ k j, k < N ∧ j < M ∧ b = k * M + j.
Proof.
  intros Hb. assert (M ≠ 0) as Hne by (intros HM; rewrite HM in Hb; lia).
  exists (b / M), (b mod M). split; [|split].
  - apply Nat.Div0.div_lt_upper_bound. lia.
  - by apply Nat.mod_upper_bound.
  - pose proof (Nat.div_mod_eq b M). lia.
Qed.

End WholeCall.

Section WholeCallResults.
Context {F : Type} `{Scalar F}.
Variable pinv : mat F → option (mat F).
Variable mx_can_alloc : list Z → bool.
Variable inp : inputs (F:=F).

Local Abbreviation p := (c_rows (augR inp)).
Local Abbreviation n := (c_rows (augA inp)).
Local Abbreviation M := (numModes inp).
Local Abbreviation N := (Z.to_nat (horizonLength inp)).

(** X1.  The arrays of lines 50 and 52 are made uninitialised; a call
    that completes (for a horizon that is not negative) has written
    every cell of both.  They have the dimensions
    [p, n, numModes, horizonLength] and [p, numModes, horizonLength],
    where [p] and [n] are the row counts of [augR] and [augA]. *)
Theorem outputs_fully_written h :
  (0 ≤ horizonLength inp < 2 ^ 31)%Z →
  mexFunction pinv mx_can_alloc inp no_outputs = (h, Ok ()) →
  ∃ a0 a1,
    out0 h = Some a0 ∧ out1 h = Some a1 ∧
    mx_dims a0 = [Z.of_nat p; Z.of_nat n; Z.of_nat M; horizonLength inp] ∧
    mx_dims a1 = [Z.of_nat p; Z.of_nat M; horizonLength inp] ∧
    length (mx_pr a0) = p * n * M * N ∧ length (mx_pr a1) = p * M * N ∧
    Forall is_Some (mx_pr a0) ∧ Forall is_Some (mx_pr a1).
Proof.
  intros Hhl Hrun.
  destruct (room_for_outputs inp mx_can_alloc) eqn:Hroom.
  2:{ destruct (call_without_room pinv _ _ Hroom) as (h' & Hrun' & _).
      congruence. }
  destruct (call_safe pinv mx_can_alloc inp (λ _, True) h (Ok ()))
    as [(a0 & a1 & Ha0 & Hd0 & Hl0 & Ha1 & Hd1 & Hl1) _];
    [done|done|done|lia|done|done|].
  assert (to_size_t (horizonLength inp) = horizonLength inp) as Hsz
    by (unfold to_size_t; apply Z.mod_small; lia).
  rewrite Hsz in *. unfold numel in Hl0, Hl1. simpl foldr in Hl0, Hl1.
  assert (length (mx_pr a0) = M * N * (p * n)) as Hl0' by lia.
  assert (length (mx_pr a1) = M * N * p) as Hl1' by lia.
  exists a0, a1. do 4 (split; [done|]).
  split; [lia|]. split; [lia|]. split.
  - apply (all_blocks_written _ _ _ Hl0'). intros b i Hb Hi.
    destruct (block_of_stage_and_mode inp b Hb) as (k & j & Hk & Hj & ->).
    destruct (run_emitted _ _ _ _ _ _ Hrun Hk Hj)
      as (_ & _ & _ & _ & (G & _ & HG) & _).
    unfold emitted_gain, gain_block in HG. rewrite Ha0 in HG. simpl in HG.
    destruct (load a0 _ _) as [cells|] eqn:Hload; [|done].
    by eapply load_Some_lookup.
  - apply (all_blocks_written _ _ _ Hl1'). intros b i Hb Hi.
    destruct (block_of_stage_and_mode inp b Hb) as (k & j & Hk & Hj & ->).
    destruct (run_emitted _ _ _ _ _ _ Hrun Hk Hj)
      as (_ & _ & _ & _ & _ & (f & _ & Hf)).
    unfold emitted_feedforward, feedforward_block in Hf.
    rewrite Ha1 in Hf. simpl in Hf.
    destruct (load a1 _ _) as [cells|] eqn:Hload; [|done].
    by eapply load_Some_lookup.
Qed.

(** X2.  With a transition matrix of at least [numModes] columns the
    call stays within its matrices and arrays: when it fails, then
    because MATLAB has no room for the output arrays, or [pinv] throws,
    or a size or bounds check of Armadillo throws; it never reads or
    writes outside an array. *)
Theorem failures_are_checked h e :
  wf_mat (transitionMatrix inp) = true →
  M ≤ n_cols (transitionMatrix inp) →
  (horizonLength inp < 2 ^ 31)%Z →
  mexFunction pinv mx_can_alloc inp no_outputs = (h, Err e) →
  (e = AllocationFailed ∧ room_for_outputs inp mx_can_alloc = false) ∨
  e = PinvFailed ∨ ∃ c, e = LogicError c.
Proof.
  intros Hwf HT Hhl Hrun.
  destruct (room_for_outputs inp mx_can_alloc) eqn:Hroom.
  - right.
    eapply (call_safe pinv mx_can_alloc inp
              (λ e, e = PinvFailed ∨ ∃ c, e = LogicError c));
      [| | | |exact Hroom|exact Hrun|reflexivity]; [eauto|eauto| |lia].
    intros j m Hj Hm e' He'.
    destruct (row_deref_total _ j m Hwf Hj) as (w & Hw); [lia|]. congruence.
  - left. destruct (call_without_room pinv _ _ Hroom) as (h' & Hrun' & _).
    split; [congruence|done].
Qed.

(** X3.  Lines 53-57: the call ends with the allocation failure exactly
    when MATLAB has no room for one of the two output arrays, whatever
    the other arguments are; nothing has been written then. *)
Theorem allocation_failure h r :
  (horizonLength inp < 2 ^ 31)%Z →
  mexFunction pinv mx_can_alloc inp no_outputs = (h, r) →
  (r = Err AllocationFailed ↔ room_for_outputs inp mx_can_alloc = false) ∧
  (room_for_outputs inp mx_can_alloc = false →
   ∀ a, out0 h = Some a ∨ out1 h = Some a → unwritten a).
Proof.
  intros Hhl Hrun.
  destruct (room_for_outputs inp mx_can_alloc) eqn:Hroom.
  - split; [|done]. split; [|done]. intros ->.
    exfalso.
    eapply (call_safe pinv mx_can_alloc inp (λ e, e ≠ AllocationFailed));
      [| | | |exact Hroom|exact Hrun|reflexivity|reflexivity];
      [done|done| |lia].
    intros j m _ _ e'. unfold row_deref.
    destruct (_ !! m) as [c|]; [destruct (c !! j)|]; intros [= <-]; done.
  - destruct (call_without_room pinv _ _ Hroom) as (h' & Hrun' & Hcells).
    assert (h' = h ∧ r = Err AllocationFailed) as [-> ->]
      by (split; congruence).
    done.
Qed.

End WholeCallResults.

(** ** What the gains depend on *)

Section Reference.
Context {F : Type} `{Scalar F}.
Variable pinv : mat F → option (mat F).
Variable mx_can_alloc : list Z → bool.
Variable inp : inputs (F:=F).
Variable W : mat F.

Local Abbreviation M := (numModes inp).
Local Abbreviation N := (Z.to_nat (horizonLength inp)).
Local Abbreviation inp' := (with_refWeightings inp W).

(** The terminal cost is the initial [K], whatever the reference. *)
Lemma reference_initial_K vf vf' :
  initial_state inp = Ok vf → initial_state inp' = Ok vf' → vf'.1 = vf.1.
Proof.
  unfold initial_state. simpl. intros Hi Hi'. ok_steps.
  change (numModes inp') with M in *. simpl. congruence.
Qed.

(** A stage takes [K] to the same [K], whatever [σ] and the reference. *)
Lemma reference_stage_K k dstL dstF K sigma sigma' h h' h2 h2' vf2 vf2' :
  dstL = Z.of_nat (k * M * (c_rows (augR inp) * c_rows (augA inp))) →
  dstF = Z.of_nat (k * M * c_rows (augR inp)) →
  stage pinv inp k dstL dstF (K, sigma) h = (h2, Ok vf2) →
  stage pinv inp' k dstL dstF (K, sigma') h' = (h2', Ok vf2') →
  vf2'.1 = vf2.1.
Proof.
  intros HL HF Hs Hs'.
  apply stage_Ok in Hs as (Hdone & Hkeep & (Hcr & Hcc & _) & _); [|done|done].
  apply stage_Ok in Hs' as (Hdone' & Hkeep' & (Hcr' & Hcc' & _) & _);
    [|done|done].
  change (numModes inp') with M in *.
  destruct vf2 as [[r1 c1 sl1] s1], vf2' as [[r2 c2 sl2] s2].
  simpl in *. rewrite Hcr, Hcr', Hcc, Hcc'. f_equal.
  apply list_eq. intros j. destruct (decide (j < M)) as [Hj|Hj].
  - destruct (Hdone j Hj) as [(K_j & HK & Hsl) _ _ _].
    destruct (Hdone' j Hj) as [(K_j' & HK' & Hsl') _ _ _].
    change (K_of pinv inp' K j) with (K_of pinv inp K j) in HK'.
    apply slice_Ok in Hsl, Hsl'. simpl in *. congruence.
  - destruct (Hkeep j) as [-> _]; [lia|].
    by destruct (Hkeep' j) as [-> _]; [lia|].
Qed.

Hypothesis run_inp :
  ∃ h, mexFunction pinv mx_can_alloc inp no_outputs = (h, Ok ()).
Hypothesis run_inp' :
  ∃ h', mexFunction pinv mx_can_alloc inp' no_outputs = (h', Ok ()).

(** Both calls enter every stage with the same [K]. *)
Lemma reference_states_K d :
  d < N →
  ∃ h1 h1' vf vf',
    state_before_stage pinv mx_can_alloc inp (N - 1 - d) no_outputs
      = (h1, Ok vf) ∧
    state_before_stage pinv mx_can_alloc inp' (N - 1 - d) no_outputs
      = (h1', Ok vf') ∧
    vf'.1 = vf.1.
Proof using run_inp run_inp'.
  destruct run_inp as (h & Hrun), run_inp' as (h' & Hrun').
  induction d as [|d IH]; intros Hd.
  - destruct (run_stage _ _ _ _ (N - 1) Hrun) as (h1 & vf1 & _ & _ & Hb & _);
      [lia|].
    destruct (run_stage _ _ _ _ (N - 1) Hrun') as (h1' & vf1' & _ & _ & Hb' & _);
      [simpl; lia|].
    exists h1, h1', vf1, vf1'. rewrite !Nat.sub_0_r.
    split; [done|]. split; [done|].
    unfold state_before_stage in Hb, Hb'.
    change (horizonLength inp') with (horizonLength inp) in Hb'.
    replace (N - 1 - (N - 1)) with 0 in Hb, Hb' by lia.
    apply mex_bind_Ok in Hb as (? & ? & _ & Hb).
    apply mex_bind_Ok in Hb as (? & vf0 & [-> Hi]%lift_Ok & Hb).
    apply mex_bind_Ok in Hb' as (? & ? & _ & Hb').
    apply mex_bind_Ok in Hb' as (? & vf0' & [-> Hi']%lift_Ok & Hb').
    simpl in Hb, Hb'.
    apply mex_ret_Ok in Hb as [_ ->]. apply mex_ret_Ok in Hb' as [_ ->].
    by eapply reference_initial_K.
  - destruct IH as (h1 & h1' & vf & vf' & Hb & Hb' & HK); [lia|].
    destruct (run_stage _ _ _ _ (N - 1 - d) Hrun)
      as (h1a & vf1 & h2 & vf2 & Hba & Hst & Haf & _); [lia|].
    destruct (run_stage _ _ _ _ (N - 1 - d) Hrun')
      as (h1a' & vf1' & h2' & vf2' & Hba' & Hst' & Haf' & _); [simpl; lia|].
    assert (vf1 = vf) as -> by congruence.
    assert (vf1' = vf') as -> by congruence.
    change (numModes inp') with M in Hst'.
    destruct vf as [K sigma], vf' as [K' sigma']. simpl in HK. subst K'.
    pose proof (reference_stage_K _ _ _ _ _ _ _ _ _ _ _ _
                  eq_refl eq_refl Hst Hst') as HK2.
    exists h2, h2', vf2, vf2'. split; [|split; [|done]].
    + unfold state_before_stage. unfold state_after_stage in Haf.
      replace (N - 1 - (N - 1 - S d)) with (N - (N - 1 - d)) by lia. done.
    + unfold state_before_stage. unfold state_after_stage in Haf'.
      change (horizonLength inp') with (horizonLength inp) in *.
      replace (N - 1 - (N - 1 - S d)) with (N - (N - 1 - d)) by lia. done.
Qed.

End Reference.

(** X4.  The feedback gains do not depend on the reference weightings:
    two calls that differ in [refWeightings] only and both complete
    have written the same gain for every stage and mode. *)
Theorem gains_do_not_depend_on_reference {F : Type} `{Scalar F}
    (pinv : mat F → option (mat F)) (mx_can_alloc : list Z → bool)
    (inp : inputs (F:=F)) (W : mat F) (h h' : heap F) (k j : nat) :
  mexFunction pinv mx_can_alloc inp no_outputs = (h, Ok ()) →
  mexFunction pinv mx_can_alloc (with_refWeightings inp W) no_outputs
    = (h', Ok ()) →
  k < Z.to_nat (horizonLength inp) → j < numModes inp →
  ∃ G, emitted_gain inp h k j = Some G ∧
       emitted_gain (with_refWeightings inp W) h' k j = Some G.
Proof.
  intros Hrun Hrun' Hk Hj.
  destruct (run_emitted _ _ _ _ _ _ Hrun Hk Hj)
    as (h1 & K & sigma & Hb & (G & HG & HGe) & _).
  destruct (run_emitted _ _ _ _ k j Hrun')
    as (h1' & K' & sigma' & Hb' & (G' & HG' & HGe') & _); [done|done|].
  destruct (reference_states_K pinv mx_can_alloc inp W
              (ex_intro _ h Hrun) (ex_intro _ h' Hrun')
              (Z.to_nat (horizonLength inp) - 1 - k))
    as (h2 & h2' & vf & vf' & Hs & Hs' & HK); [lia|].
  replace (Z.to_nat (horizonLength inp) - 1
           - (Z.to_nat (horizonLength inp) - 1 - k)) with k in Hs, Hs' by lia.
  assert (vf = (K, sigma)) as -> by congruence.
  assert (vf' = (K', sigma')) as -> by congruence.
  simpl in HK. subst K'.
  change (gain_of pinv (with_refWeightings inp W) K j)
    with (gain_of pinv inp K j) in HG'.
  exists G. split; [done|]. congruence.
Qed.

(** ** No reference, no feedforward *)

Section ZeroReference.
Context {F : Type} `{Scalar F}.
Variable pinv : mat F → option (mat F).
Variable mx_can_alloc : list Z → bool.
Variable inp : inputs (F:=F).

Hypothesis mul_zero_r : ∀ x : F, mul x zero = zero.
Hypothesis add_zero_zero : add (zero : F) zero = zero.
Hypothesis sub_zero_zero : sub (zero : F) zero = zero.

Local Abbreviation M := (numModes inp).
Local Abbreviation N := (Z.to_nat (horizonLength inp)).

Lemma zero_entries_mk r c (f : nat → nat → F) :
  (∀ i j, i < r → j < c → f i j = zero) → zero_entries (mk r c f).
Proof.
  intros Hf i j. destruct (decide (i < r ∧ j < c)) as [[Hi Hj]|Hout].
  - rewrite at_mk by done. by apply Hf.
  - by apply at_mk_out.
Qed.

Lemma zero_entries_mmul X Y : zero_entries Y → zero_entries (mmul X Y).
Proof using mul_zero_r add_zero_zero.
  intros HY. apply zero_entries_mk. intros i j _ _.
  unfold dot. apply (fold_add_zero add_zero_zero).
  intros k _. by rewrite HY.
Qed.

Lemma zero_entries_scale w X : zero_entries X → zero_entries (scale w X).
Proof using mul_zero_r.
  intros HX. apply zero_entries_mk. intros i j _ _. by rewrite HX.
Qed.

Lemma zero_entries_madd X Y :
  zero_entries X → zero_entries Y → zero_entries (madd X Y).
Proof using add_zero_zero.
  intros HX HY. apply zero_entries_mk. intros i j _ _. by rewrite HX, HY.
Qed.

Lemma zero_entries_msub X Y :
  zero_entries X → zero_entries Y → zero_entries (msub X Y).
Proof using sub_zero_zero.
  intros HX HY. apply zero_entries_mk. intros i j _ _. by rewrite HX, HY.
Qed.

Lemma zero_entries_col_of X m : zero_entries X → zero_entries (col_of X m).
Proof.
  intros HX i [|j]; unfold col_of, at_; simpl.
  - specialize (HX i m). unfold at_ in HX.
    by rewrite (nth_lookup_default (cols X)) in HX.
  - by destruct j, i.
Qed.

Lemma zero_entries_mix (w : nat → F) (X : nat → mat F) m :
  (∀ i, zero_entries (X i)) → zero_entries (mix w X m).
Proof using mul_zero_r add_zero_zero.
  intros HX. unfold mix.
  assert (zero_entries (zeros (n_rows (X 0)) (n_cols (X 0)))) as Hacc
    by by apply zero_entries_mk.
  revert Hacc. generalize (zeros (n_rows (X 0)) (n_cols (X 0))).
  generalize (seq 0 m). intros l. induction l as [|a l IH]; intros acc Hacc.
  - done.
  - simpl. apply IH. unfold mix_step.
    apply zero_entries_madd; [done|]. by apply zero_entries_scale.
Qed.

(** The entries of a matrix, read through its columns. *)
Lemma zero_entries_cols X :
  (∀ j c, cols X !! j = Some c → ∀ i, nth i c zero = zero) → zero_entries X.
Proof.
  intros HX i j. unfold at_. rewrite (nth_lookup_default (cols X)).
  destruct (cols X !! j) as [c|] eqn:Hc; simpl; [by eapply HX|by destruct i].
Qed.

Lemma zero_entries_lookup X j c i :
  zero_entries X → cols X !! j = Some c → nth i c zero = zero.
Proof.
  intros HX Hc. specialize (HX i j). unfold at_ in HX.
  by rewrite (nth_lookup_default (cols X)), Hc in HX.
Qed.

Hypothesis no_reference : zero_entries (refWeightings inp).

(** [σ] starts at zero. *)
Lemma zero_initial_sigma vf :
  initial_state inp = Ok vf → zero_entries vf.2.
Proof using no_reference.
  unfold initial_state. intros Hi. ok_steps. simpl.
  match goal with Ht : tail_cols1 _ = Ok _ |- _ =>
    unfold tail_cols1 in Ht; rewrite last_lookup in Ht;
    destruct (cols (refWeightings inp) !! _) as [c|] eqn:Hlast; [|done];
    injection Ht as <- end.
  match goal with He : each_col _ _ _ = Ok _ |- _ =>
    unfold each_col in He; simpl in He;
    destruct (_ =? _); [|done]; injection He as <- end.
  apply zero_entries_cols. simpl. intros j c' [-> _]%lookup_replicate i.
  by eapply zero_entries_lookup.
Qed.

(** A stage entered with [σ = 0] leaves [σ = 0]. *)
Lemma zero_stage_sigma k dstL dstF vf h vf' h' :
  dstL = Z.of_nat (k * M * (c_rows (augR inp) * c_rows (augA inp))) →
  dstF = Z.of_nat (k * M * c_rows (augR inp)) →
  stage pinv inp k dstL dstF vf h = (h', Ok vf') →
  zero_entries vf.2 → zero_entries vf'.2.
Proof using mul_zero_r add_zero_zero sub_zero_zero no_reference.
  intros HL HF Hs Hz.
  apply stage_Ok in Hs as (Hdone & Hkeep & _ & _); [|done|done].
  apply zero_entries_cols. intros j c Hc i.
  destruct (decide (j < M)) as [Hj|Hj].
  - destruct (Hdone j Hj) as [_ (s_j & Hsg & Hcol) _ _].
    apply col_Ok in Hcol as (c' & Hc' & ->).
    assert (c' = c) as -> by congruence.
    unfold sigma_of in Hsg.
    destruct (pinv _) as [Pi|]; [|done]. apply (inj Some) in Hsg.
    assert (zero_entries (Mat (n_rows vf'.2) [c])) as Hzc.
    { rewrite <- Hsg. apply zero_entries_msub.
      - apply zero_entries_madd; [by apply zero_entries_col_of|].
        apply zero_entries_mix. intros m.
        by apply zero_entries_mmul, zero_entries_col_of.
      - apply zero_entries_mmul, zero_entries_mix. intros m.
        by apply zero_entries_mmul, zero_entries_col_of. }
    apply (Hzc i 0).
  - destruct (Hkeep j) as [_ Hk]; [lia|]. rewrite Hk in Hc.
    by eapply zero_entries_lookup.
Qed.

Hypothesis run_inp :
  ∃ h, mexFunction pinv mx_can_alloc inp no_outputs = (h, Ok ()).

(** Every stage is entered with [σ = 0]. *)
Lemma zero_states_sigma d :
  d < N →
  ∃ h1 vf,
    state_before_stage pinv mx_can_alloc inp (N - 1 - d) no_outputs
      = (h1, Ok vf) ∧
    zero_entries vf.2.
Proof using mul_zero_r add_zero_zero sub_zero_zero no_reference run_inp.
  destruct run_inp as (h & Hrun).
  induction d as [|d IH]; intros Hd.
  - destruct (run_stage _ _ _ _ (N - 1) Hrun) as (h1 & vf1 & _ & _ & Hb & _);
      [lia|].
    exists h1, vf1. rewrite !Nat.sub_0_r. split; [done|].
    unfold state_before_stage in Hb.
    replace (N - 1 - (N - 1)) with 0 in Hb by lia.
    apply mex_bind_Ok in Hb as (? & ? & _ & Hb).
    apply mex_bind_Ok in Hb as (? & vf0 & [-> Hi]%lift_Ok & Hb).
    simpl in Hb. apply mex_ret_Ok in Hb as [_ ->].
    by apply zero_initial_sigma.
  - destruct IH as (h1 & vf & Hb & Hz); [lia|].
    destruct (run_stage _ _ _ _ (N - 1 - d) Hrun)
      as (h1a & vf1 & h2 & vf2 & Hba & Hst & Haf & _); [lia|].
    assert (vf1 = vf) as -> by congruence.
    exists h2, vf2. split.
    + unfold state_before_stage. unfold state_after_stage in Haf.
      replace (N - 1 - (N - 1 - S d)) with (N - (N - 1 - d)) by lia. done.
    + by eapply zero_stage_sigma.
Qed.

End ZeroReference.

(** X5.  Where zero times anything is zero, a call without reference
    (all reference weightings zero) that completes has written a zero
    feedforward term for every stage and mode. *)
Theorem zero_reference_zero_feedforward {F : Type} `{Scalar F}
    (pinv : mat F → option (mat F)) (mx_can_alloc : list Z → bool)
    (inp : inputs (F:=F)) (h : heap F) (k j : nat) :
  (∀ x : F, mul x zero = zero) →
  add (zero : F) zero = zero → sub (zero : F) zero = zero →
  zero_entries (refWeightings inp) →
  mexFunction pinv mx_can_alloc inp no_outputs = (h, Ok ()) →
  k < Z.to_nat (horizonLength inp) → j < numModes inp →
  emitted_feedforward inp h k j = Some (zeros (c_rows (augR inp)) 1).
Proof.
  intros Hmul Hadd Hsub Hz Hrun Hk Hj.
  destruct (run_emitted _ _ _ _ _ _ Hrun Hk Hj)
    as (h1 & K & sigma & Hb & _ & (f & Hf & Hfe)).
  destruct (zero_states_sigma pinv mx_can_alloc inp Hmul Hadd Hsub Hz
              (ex_intro _ h Hrun) (Z.to_nat (horizonLength inp) - 1 - k))
    as (h2 & vf & Hs & Hzs); [lia|].
  replace (Z.to_nat (horizonLength inp) - 1
           - (Z.to_nat (horizonLength inp) - 1 - k)) with k in Hs by lia.
  assert (vf = (K, sigma)) as -> by congruence. simpl in Hzs.
  rewrite Hfe. f_equal.
  unfold emitted_feedforward, feedforward_block in Hfe.
  destruct (out1 h) as [a1|]; [|done]. simpl in Hfe.
  destruct (load a1 _ _) as [cells|]; [|done]. injection Hfe as Hshape.
  unfold feedforward_of in Hf.
  destruct (pinv _) as [Pi|]; [|done]. injection Hf as Hf.
  assert (n_rows f = c_rows (augR inp)) as Hr by by rewrite <- Hshape.
  assert (n_cols f = 1) as Hc by by rewrite <- Hshape.
  rewrite <- Hf in Hr, Hc |- *. rewrite n_rows_mmul in Hr.
  rewrite n_cols_mmul in Hc.
  unfold mmul, zeros. rewrite Hr, Hc. apply mk_ext. intros i l _ _.
  unfold dot. apply (fold_add_zero Hadd). intros m _.
  assert (zero_entries (s2_of inp sigma j)) as Hs2.
  { apply (zero_entries_mix Hmul Hadd). intros m'.
    apply (zero_entries_mmul Hmul Hadd).
    by apply zero_entries_col_of. }
  by rewrite Hs2.
Qed.

(** ** Modes that switch alike *)

Section SameRow.
Context {F : Type} `{Scalar F}.
Variable pinv : mat F → option (mat F).
Variable mx_can_alloc : list Z → bool.
Variable inp : inputs (F:=F).

Local Abbreviation M := (numModes inp).
Local Abbreviation N := (Z.to_nat (horizonLength inp)).

Lemma mix_ext (w w' : nat → F) (X : nat → mat F) m :
  (∀ i, i < m → w i = w' i) → mix w X m = mix w' X m.
Proof.
  intros Hw. unfold mix. generalize (zeros (n_rows (X 0)) (n_cols (X 0))).
  pose proof (Forall_seq_lt m) as Hl. revert Hl. generalize (seq 0 m).
  intros l Hl. induction Hl as [|i l Hi _ IH]; intros acc; simpl; [done|].
  unfold mix_step at 2 4. rewrite (Hw i Hi). apply IH.
Qed.

(** X7.  The current mode enters a stage through its row of the
    transition matrix only: in a call that completes, two modes with
    the same row have the same gain and the same feedforward term at
    every stage. *)
Theorem same_row_same_outputs h k j j' :
  mexFunction pinv mx_can_alloc inp no_outputs = (h, Ok ()) →
  k < N → j < M → j' < M →
  (∀ m, m < M →
     at_ (transitionMatrix inp) j m = at_ (transitionMatrix inp) j' m) →
  emitted_gain inp h k j = emitted_gain inp h k j' ∧
  emitted_feedforward inp h k j = emitted_feedforward inp h k j'.
Proof.
  intros Hrun Hk Hj Hj' Hrow.
  destruct (run_emitted _ _ _ _ _ _ Hrun Hk Hj)
    as (h1 & K & sigma & Hb & (G & HG & HGe) & (f & Hf & Hfe)).
  destruct (run_emitted _ _ _ _ _ _ Hrun Hk Hj')
    as (h1' & K' & sigma' & Hb' & (G' & HG' & HGe') & (f' & Hf' & Hfe')).
  assert ((K', sigma') = (K, sigma)) as [= -> ->] by congruence.
  assert (P3_of inp K j = P3_of inp K j') as HP3 by by apply mix_ext.
  assert (P2_of inp K j = P2_of inp K j') as HP2 by by apply mix_ext.
  assert (s2_of inp sigma j = s2_of inp sigma j') as Hs2 by by apply mix_ext.
  unfold gain_of in HG, HG'. unfold feedforward_of in Hf, Hf'.
  rewrite HP3, ?HP2, ?Hs2 in *.
  split; congruence.
Qed.

End SameRow.

(** ** Before the loop *)

Section BeforeTheLoop.
Context {F : Type} `{Scalar F}.
Variable pinv : mat F → option (mat F).
Variable mx_can_alloc : list Z → bool.
Variable inp : inputs (F:=F).

Local Abbreviation p := (c_rows (augR inp)).
Local Abbreviation n := (c_rows (augA inp)).
Local Abbreviation M := (numModes inp).
Local Abbreviation N := (Z.to_nat (horizonLength inp)).
Local Abbreviation dimsL :=
  [Z.of_nat p; Z.of_nat n; Z.of_nat M; to_size_t (horizonLength inp)].
Local Abbreviation dimsF :=
  [Z.of_nat p; Z.of_nat M; to_size_t (horizonLength inp)].

(** Lines 61-66 pass exactly when the terminal cost has the shape of
    the slices of [augA] and the reference weightings have a column. *)
Lemma initial_state_passes :
  (∃ vf, initial_state inp = Ok vf) ↔
  terminal_shape inp ∧ 0 < n_cols (refWeightings inp).
Proof.
  unfold initial_state, each_slice, terminal_shape, tail_cols1, n_cols.
  rewrite last_lookup. split.
  - intros (vf & Hi).
    destruct (_ && _) eqn:Hs; [|done]. simpl in Hi.
    apply andb_true_iff in Hs as [?%Nat.eqb_eq ?%Nat.eqb_eq].
    split; [done|].
    destruct (cols (refWeightings inp)) as [|c cs]; [done|]. simpl. lia.
  - intros [[-> ->] Hc]. rewrite !Nat.eqb_refl. simpl.
    destruct (cols (refWeightings inp) !! _) as [c|] eqn:Hlast.
    + simpl. unfold each_col. simpl. rewrite Nat.eqb_refl. simpl. eauto.
    + apply lookup_ge_None in Hlast. lia.
Qed.

Lemma initial_state_fails :
  ¬ (terminal_shape inp ∧ 0 < n_cols (refWeightings inp)) →
  ∃ c, initial_state inp = Err (LogicError c) ∧
       (¬ terminal_shape inp → c = EachSliceSize) ∧
       (terminal_shape inp → c = TailColsSize).
Proof.
  intros Hno. unfold terminal_shape in *.
  destruct (decide (n_rows (terminalK inp) = n ∧ n_cols (terminalK inp)
                    = c_cols (augA inp))) as [Hshape|Hshape].
  - exists TailColsSize. split; [|done].
    unfold initial_state, each_slice.
    destruct Hshape as [Hr Hcl]. rewrite Hr, Hcl, !Nat.eqb_refl. simpl.
    unfold tail_cols1, n_cols in *.
    destruct (cols (refWeightings inp)) as [|c0 cs] eqn:Hcols; [done|].
    exfalso. apply Hno. split; [done|]. simpl. lia.
  - exists EachSliceSize. split; [|done].
    unfold initial_state, each_slice.
    destruct (_ && _) eqn:Hs; [|done]. exfalso.
    apply andb_true_iff in Hs as [?%Nat.eqb_eq ?%Nat.eqb_eq].
    by apply Hshape.
Qed.

(** What the call has made when it gets to line 61. *)
Lemma call_before_the_loop :
  room_for_outputs inp mx_can_alloc = true →
  ∃ a0 a1,
    create_outputs mx_can_alloc inp no_outputs
      = (Heap (Some a0) (Some a1), Ok ()) ∧
    unwritten a0 ∧ unwritten a1 ∧
    mx_dims a0 = dimsL ∧ mx_dims a1 = dimsF ∧
    length (mx_pr a0) = Z.to_nat (numel dimsL) ∧
    length (mx_pr a1) = Z.to_nat (numel dimsF).
Proof.
  intros [H0 H1]%andb_true_iff.
  unfold create_outputs, mxCreateUninitNumericArray. rewrite H0, H1.
  eexists _, _. split; [reflexivity|]. simpl.
  split; [by apply Forall_replicate|]. split; [by apply Forall_replicate|].
  by rewrite !length_replicate.
Qed.

(** X9.  The only arguments looked at before the loop are the terminal
    cost and the reference weightings: a terminal cost that has not the
    shape of the slices of [augA] fails the check of [each_slice]
    (line 62), reference weightings without a column fail the check of
    [tail_cols] (line 66); both output arrays have been made by then
    and none of their cells is written. *)
Theorem initialisation_checks :
  room_for_outputs inp mx_can_alloc = true →
  ¬ (terminal_shape inp ∧ 0 < n_cols (refWeightings inp)) →
  ∃ a0 a1 c,
    mexFunction pinv mx_can_alloc inp no_outputs
      = (Heap (Some a0) (Some a1), Err (LogicError c)) ∧
    unwritten a0 ∧ unwritten a1 ∧
    (¬ terminal_shape inp → c = EachSliceSize) ∧
    (terminal_shape inp → c = TailColsSize).
Proof.
  intros Hroom Hno.
  destruct (call_before_the_loop Hroom) as (a0 & a1 & Hc & Hu0 & Hu1 & _).
  destruct (initial_state_fails Hno) as (c & Hi & Hc1 & Hc2).
  exists a0, a1, c. split; [|done].
  unfold mexFunction. unfold mbind at 1, mex_bind at 1. rewrite Hc.
  unfold mbind at 1, mex_bind at 1, lift at 1. by rewrite Hi.
Qed.

(** X8.  A horizon that is not positive is not refused: the loop of
    lines 74-119 is not entered, so the call completes as soon as the
    arrays are made and lines 61-66 pass, whatever the system matrices
    are, and returns arrays no cell of which is written (for the
    horizon 0, arrays without cells). *)
Theorem nonpositive_horizon_runs_no_stage :
  (horizonLength inp ≤ 0)%Z →
  room_for_outputs inp mx_can_alloc = true →
  terminal_shape inp → 0 < n_cols (refWeightings inp) →
  ∃ a0 a1,
    mexFunction pinv mx_can_alloc inp no_outputs
      = (Heap (Some a0) (Some a1), Ok ()) ∧
    unwritten a0 ∧ unwritten a1 ∧
    mx_dims a0 = dimsL ∧ mx_dims a1 = dimsF ∧
    (horizonLength inp = 0%Z → mx_pr a0 = [] ∧ mx_pr a1 = []).
Proof.
  intros Hhl Hroom Hshape Hcol.
  destruct (call_before_the_loop Hroom)
    as (a0 & a1 & Hc & Hu0 & Hu1 & Hd0 & Hd1 & Hl0 & Hl1).
  destruct (proj2 initial_state_passes (conj Hshape Hcol)) as (vf & Hi).
  exists a0, a1. split; [|do 4 (split; [done|])].
  - unfold mexFunction. unfold mbind at 1, mex_bind at 1. rewrite Hc.
    unfold mbind at 1, mex_bind at 1, lift at 1. rewrite Hi.
    replace N with 0 by lia. reflexivity.
  - intros Hz. rewrite Hz in Hl0, Hl1.
    unfold numel, to_size_t in Hl0, Hl1. simpl foldr in Hl0, Hl1.
    rewrite Z.mod_0_l in Hl0, Hl1 by done.
    rewrite ?Z.mul_0_l, ?Z.mul_0_r in Hl0, Hl1.
    split; apply nil_length_inv; lia.
Qed.

End BeforeTheLoop.

(** ** The further properties on runs over the rationals *)

Lemma Qred_zero (a : Q) : (a == 0)%Q → Qred a = 0%Q.
Proof. intros Ha. by rewrite (Qred_complete _ _ Ha). Qed.

Lemma Q_mul_zero_r (x : Q) : mul x zero = zero.
Proof. apply Qred_zero. simpl. apply Qmult_0_r. Qed.

(** X1: the sixteen and eight cells of the two-mode system. *)
Lemma outputs_fully_written_witness :
  ∃ a0 a1,
    out0 (run two_mode_system).1 = Some a0 ∧
    out1 (run two_mode_system).1 = Some a1 ∧
    mx_dims a0 = [2; 2; 2; 2]%Z ∧ mx_dims a1 = [2; 2; 2]%Z ∧
    length (mx_pr a0) = 16 ∧ length (mx_pr a1) = 8 ∧
    Forall is_Some (mx_pr a0) ∧ Forall is_Some (mx_pr a1).
Proof.
  apply (outputs_fully_written pinvQ always_alloc two_mode_system
           (run two_mode_system).1).
  - vm_compute. split; [discriminate|reflexivity].
  - vm_compute. reflexivity.
Defined.

(** X2: the failure on [B_against_R] is a failed check. *)
Lemma failures_are_checked_witness :
  (LogicError IncompatibleAddition = AllocationFailed ∧
   room_for_outputs B_against_R always_alloc = false) ∨
  LogicError IncompatibleAddition = PinvFailed ∨
  ∃ c, LogicError IncompatibleAddition = LogicError c.
Proof.
  apply (failures_are_checked pinvQ always_alloc B_against_R
           (run B_against_R).1).
  - reflexivity.
  - vm_compute. lia.
  - vm_compute. reflexivity.
  - vm_compute. reflexivity.
Defined.

(** X3: room for ten cells is room for the feedforward terms of the
    two-mode system, not for its gains. *)
Lemma allocation_failure_witness :
  ((mexFunction pinvQ (alloc_up_to 10) two_mode_system no_outputs).2
     = Err AllocationFailed
   ↔ room_for_outputs two_mode_system (alloc_up_to 10) = false) ∧
  (room_for_outputs two_mode_system (alloc_up_to 10) = false →
   ∀ a,
     out0 (mexFunction pinvQ (alloc_up_to 10) two_mode_system no_outputs).1
       = Some a ∨
     out1 (mexFunction pinvQ (alloc_up_to 10) two_mode_system no_outputs).1
       = Some a →
     unwritten a).
Proof.
  apply (allocation_failure pinvQ (alloc_up_to 10) two_mode_system).
  - vm_compute. reflexivity.
  - apply surjective_pairing.
Defined.

(** X4: the two-mode system, with and without reference. *)
Lemma gains_do_not_depend_on_reference_witness :
  ∃ G,
    emitted_gain two_mode_system (run two_mode_system).1 0 1 = Some G ∧
    emitted_gain (with_refWeightings two_mode_system (zeros 2 3))
                 (run (with_refWeightings two_mode_system (zeros 2 3))).1 0 1
      = Some G.
Proof.
  apply (gains_do_not_depend_on_reference pinvQ always_alloc two_mode_system).
  - vm_compute. reflexivity.
  - vm_compute. reflexivity.
  - vm_compute. lia.
  - vm_compute. lia.
Defined.

(** X5: the system with the skew cost has no reference. *)
Lemma zero_reference_zero_feedforward_witness :
  emitted_feedforward skew_cost_system (run skew_cost_system).1 1 0
  = Some (zeros 2 1).
Proof.
  apply (zero_reference_zero_feedforward pinvQ always_alloc skew_cost_system).
  - apply Q_mul_zero_r.
  - reflexivity.
  - reflexivity.
  - change (refWeightings skew_cost_system) with (zeros (F:=Q) 2 3).
    by apply zero_entries_mk.
  - vm_compute. reflexivity.
  - vm_compute. lia.
  - vm_compute. lia.
Defined.

(** X6: one mode, one state, one input. *)
Lemma completes_iff_dimensions_are_mode_count_witness :
  (∃ h, run scalar_system = (h, Ok ())) ↔
  1 = numModes scalar_system ∧ 1 = numModes scalar_system.
Proof.
  apply (completes_iff_dimensions_are_mode_count pinvQ always_alloc
           scalar_system 1 1).
  - vm_compute. reflexivity.
  - apply pinvQ_total.
  - reflexivity.
Defined.

(** X7: both modes of [uniform_switching] switch alike. *)
Lemma same_row_same_outputs_witness :
  emitted_gain uniform_switching (run uniform_switching).1 0 0
    = emitted_gain uniform_switching (run uniform_switching).1 0 1 ∧
  emitted_feedforward uniform_switching (run uniform_switching).1 0 0
    = emitted_feedforward uniform_switching (run uniform_switching).1 0 1.
Proof.
  apply (same_row_same_outputs pinvQ always_alloc uniform_switching).
  - vm_compute. reflexivity.
  - vm_compute. lia.
  - vm_compute. lia.
  - vm_compute. lia.
  - intros [|[|m]] Hm; [reflexivity|reflexivity|].
    vm_compute in Hm. lia.
Defined.

(** X8: no stage, and [B] against [R] goes unnoticed. *)
Lemma nonpositive_horizon_runs_no_stage_witness :
  ∃ a0 a1,
    run (with_horizonLength B_against_R 0)
      = (Heap (Some a0) (Some a1), Ok ()) ∧
    unwritten a0 ∧ unwritten a1 ∧
    mx_dims a0 = [1; 1; 1; 0]%Z ∧ mx_dims a1 = [1; 1; 0]%Z ∧
    (horizonLength (with_horizonLength B_against_R 0) = 0%Z →
     mx_pr a0 = [] ∧ mx_pr a1 = []).
Proof.
  apply (nonpositive_horizon_runs_no_stage pinvQ always_alloc
           (with_horizonLength B_against_R 0)).
  - vm_compute. discriminate.
  - reflexivity.
  - split; reflexivity.
  - vm_compute. lia.
Defined.

(** X9: a 2-by-2 terminal cost for one state. *)
Lemma initialisation_checks_witness :
  ∃ a0 a1 c,
    run (with_terminalK scalar_system I2)
      = (Heap (Some a0) (Some a1), Err (LogicError c)) ∧
    unwritten a0 ∧ unwritten a1 ∧
    (¬ terminal_shape (with_terminalK scalar_system I2) → c = EachSliceSize) ∧
    (terminal_shape (with_terminalK scalar_system I2) → c = TailColsSize).
Proof.
  apply (initialisation_checks pinvQ always_alloc
           (with_terminalK scalar_system I2)).
  - reflexivity.
  - intros [[Hr _] _]. vm_compute in Hr. discriminate.
Defined.

(** ** A reference with too few columns *)

Section ShortReference.
Context {F : Type} `{Scalar F}.
Variable pinv : mat F → option (mat F).
Variable mx_can_alloc : list Z → bool.
Variable inp : inputs (F:=F).
Variable W : mat F.
Variables n p : nat.

Local Abbreviation M := (numModes inp).
Local Abbreviation N := (Z.to_nat (horizonLength inp)).
Local Abbreviation inp' := (with_refWeightings inp W).

Lemma mex_bind_run_Ok {A B} (m : mex F A) (f : A → mex F B) h h1 a :
  m h = (h1, Ok a) → (m ≫= f) h = f a h1.
Proof. intros Hm. unfold mbind, mex_bind. by rewrite Hm. Qed.

Lemma mex_bind_run_Err {A B} (m : mex F A) (f : A → mex F B) h h1 e :
  m h = (h1, Err e) → (m ≫= f) h = (h1, Err e).
Proof. intros Hm. unfold mbind, mex_bind. by rewrite Hm. Qed.

Hypothesis pre : preconditions inp n p = true.
Hypothesis pinv_ok : pinv_total pinv.
Hypothesis n_is_M : n = M.
Hypothesis p_is_M : p = M.
Hypothesis W_rows : n_rows W = n.
Hypothesis W_cols : 0 < n_cols W < N.

(** Lines 61-66 pass on the short reference. *)
Lemma short_reference_initial_state :
  ∃ vf, initial_state inp' = Ok vf ∧ state_shape n M vf.
Proof using pre W_rows W_cols.
  clear pinv_ok n_is_M p_is_M.
  pose proof pre as (HM & HA & _ & _ & _ & _ & (HKr & HKc) & _)
                      %preconditions_facts.
  destruct HA as (HAr & HAc & _).
  unfold initial_state, each_slice. simpl.
  rewrite HAr, HAc, HKr, HKc, !Nat.eqb_refl. cbn [andb mbind outcome_bind].
  unfold tail_cols1. rewrite last_lookup.
  destruct (cols W !! _) as [c|] eqn:Hlast.
  2:{ apply lookup_ge_None in Hlast. unfold n_cols in W_cols. lia. }
  cbn [mbind outcome_bind]. unfold each_col. cbn [cols n_rows].
  rewrite Nat.eqb_refl. cbn [mbind outcome_bind].
  eexists. split; [reflexivity|].
  split; [|split]; simpl.
  - split; [done|]. split; [done|]. split.
    + unfold n_slices. simpl. apply length_replicate.
    + simpl. by intros m X [-> _]%lookup_replicate.
  - done.
  - unfold n_cols. simpl. apply length_replicate.
Qed.

(** The first stage done, mode 0: line 114 passes, line 115 reads a
    column that the reference has not. *)
Lemma short_reference_first_mode dstL dstF t vf h :
  per_mode_shape n p M t → state_shape n M vf →
  current_mode pinv inp' (N - 1) dstL dstF t vf 0 h
  = (h, Err (LogicError IndexOutOfBounds)).
Proof using pre pinv_ok n_is_M p_is_M W_cols.
  clear W_rows. intros Ht (HK & _).
  pose proof pre as (HM & _)%preconditions_facts.
  destruct (mixture_loop_total inp n p t 0 pre Ht) as (x & Hx & Hxs);
    [lia|done|done|].
  destruct (update_K_total pinv inp n p pre pinv_ok n_is_M p_is_M x Hxs)
    as (K_j & HKj & HKr & HKc).
  destruct HK as (HKcr & HKcc & HKs & _).
  unfold current_mode.
  change (mixture_loop inp' t 0) with (mixture_loop inp t 0). rewrite Hx.
  erewrite mex_bind_run_Ok by reflexivity.
  rewrite HKj. cbn [mbind outcome_bind].
  rewrite set_slice_same by lia.
  erewrite mex_bind_run_Ok by reflexivity.
  unfold update_sigma. simpl refWeightings.
  assert (col W (N - 1) = Err (LogicError IndexOutOfBounds)) as ->.
  { unfold col. destruct (cols W !! _) eqn:Hc; [|done].
    apply lookup_lt_Some in Hc. unfold n_cols in W_cols. lia. }
  reflexivity.
Qed.

End ShortReference.

(** X10.  Reference weightings with fewer columns than stages are found
    at line 115, in the first stage done: on a system of the shapes of
    the data model with [n = p = numModes], with a [pinv] that returns
    and room for the outputs, the call with a reference of [n] rows
    and at least one but fewer than [horizonLength] columns fails the
    bounds check of [col], with both output arrays made and none of
    their cells written. *)
Theorem short_reference_is_out_of_bounds {F : Type} `{Scalar F}
    (pinv : mat F → option (mat F)) (mx_can_alloc : list Z → bool)
    (inp : inputs (F:=F)) (W : mat F) (n p : nat) :
  preconditions inp n p = true → pinv_total pinv →
  n = numModes inp → p = numModes inp →
  room_for_outputs inp mx_can_alloc = true →
  n_rows W = n → 0 < n_cols W < Z.to_nat (horizonLength inp) →
  ∃ a0 a1,
    mexFunction pinv mx_can_alloc (with_refWeightings inp W) no_outputs
      = (Heap (Some a0) (Some a1), Err (LogicError IndexOutOfBounds)) ∧
    unwritten a0 ∧ unwritten a1.
Proof.
  intros Hpre Hpinv Hn Hp Hroom HWr HWc.
  destruct (call_before_the_loop mx_can_alloc inp Hroom)
    as (a0 & a1 & Hc & Hu0 & Hu1 & _).
  destruct (short_reference_initial_state inp W n p Hpre HWr HWc)
    as (vf & Hi & Hvf).
  destruct (per_mode_loop_total inp n p vf.1 vf.2 Hpre) as (t & Ht & Hts);
    [by destruct vf|].
  pose proof Hpre as (HM & _)%preconditions_facts.
  pose proof (λ dstL dstF h,
    short_reference_first_mode pinv inp W n p Hpre Hpinv Hn Hp HWc
      dstL dstF t vf h Hts Hvf) as Hm.
  exists a0, a1. split; [|done].
  unfold mexFunction.
  change (create_outputs mx_can_alloc (with_refWeightings inp W))
    with (create_outputs mx_can_alloc inp).
  erewrite mex_bind_run_Ok by exact Hc.
  erewrite mex_bind_run_Ok by (unfold lift; by rewrite Hi).
  apply mex_bind_run_Err.
  change (horizonLength (with_refWeightings inp W)) with (horizonLength inp).
  destruct (Z.to_nat (horizonLength inp)) as [|k] eqn:HN; [lia|].
  cbn [stage_loop]. apply mex_bind_run_Err.
  unfold stage.
  change (per_mode_loop (with_refWeightings inp W)) with (per_mode_loop inp).
  erewrite mex_bind_run_Ok by (unfold lift; by rewrite Ht).
  change (numModes (with_refWeightings inp W)) with (numModes inp).
  destruct (numModes inp) as [|M'] eqn:HMe; [lia|].
  cbn [seq foldM]. apply mex_bind_run_Err.
  replace (S k - 1) with k in Hm by lia. apply Hm.
Qed.

(** X10: the two-mode system with one column of reference for two
    stages. *)
Lemma short_reference_is_out_of_bounds_witness :
  ∃ a0 a1,
    run (with_refWeightings two_mode_system (Mat 2 [[1; 0]]%Q))
      = (Heap (Some a0) (Some a1), Err (LogicError IndexOutOfBounds)) ∧
    unwritten a0 ∧ unwritten a1.
Proof.
  apply (short_reference_is_out_of_bounds pinvQ always_alloc two_mode_system
           (Mat 2 [[1; 0]]%Q) 2 2).
  - vm_compute. reflexivity.
  - apply pinvQ_total.
  - reflexivity.
  - reflexivity.
  - reflexivity.
  - reflexivity.
  - vm_compute. lia.
Defined.

(** ** One mode, one state, one input *)

Section OneModeOneState.
Context {F : Type} `{Scalar F}.
Variable pinv : mat F → option (mat F).
Variable mx_can_alloc : list Z → bool.
Variable inp : inputs (F:=F).

Local Abbreviation N := (Z.to_nat (horizonLength inp)).
Local Abbreviation A := (A_ inp 0).
Local Abbreviation B := (B_ inp 0).
Local Abbreviation Q := (Q_ inp 0).
Local Abbreviation R := (R_ inp 0).

Hypothesis add_zero_l : ∀ x : F, add zero x = x.
Hypothesis stays : ∀ x : F, mul (T_ inp 0 0) x = x.
Hypothesis one_mode : numModes inp = 1.
Hypothesis one_state : n_cols A = 1.
Hypothesis one_input : n_cols B = 1.

(** The mixture over the one mode is its one summand. *)
Lemma mix_one (X : nat → mat F) :
  wf_mat (X 0) = true → mix (T_ inp 0) X 1 = X 0.
Proof using add_zero_l stays.
  intros Hwf. unfold mix. simpl. unfold mix_step, madd.
  rewrite n_rows_zeros, n_cols_zeros.
  etrans; [|by apply mk_at]. apply mk_ext. intros i j Hi Hj.
  unfold zeros, scale. rewrite !at_mk by done.
  by rewrite stays, add_zero_l.
Qed.

(** A 1-by-1 matrix is its own [symmatu]. *)
Lemma symmatu_one (Y : mat F) :
  n_rows Y = 1 → n_cols Y = 1 → wf_mat Y = true → symmatu Y = Y.
Proof.
  clear add_zero_l stays one_mode one_state one_input.
  intros Hr Hc Hwf. unfold symmatu.
  etrans; [|by apply mk_at]. apply mk_ext. intros i j Hi Hj.
  by replace (i <=? j) with true by (symmetry; apply Nat.leb_le; lia).
Qed.

Lemma symmatu_product (X Y Z : mat F) :
  n_cols X = 1 → n_cols Z = 1 →
  symmatu (mmul (mmul (trans X) Y) Z) = mmul (mmul (trans X) Y) Z.
Proof.
  intros HX HZ. apply symmatu_one; [|by rewrite n_cols_mmul|apply wf_mk].
  by rewrite !n_rows_mmul, n_rows_trans.
Qed.

Section Next.
Variable K_next : cube F.
Variable sigma_next : mat F.

Local Abbreviation K := (slice_of K_next 0).
Local Abbreviation sigma := (col_of sigma_next 0).

Lemma one_P1 : P1_of inp K_next 0 = madd Q (mmul (mmul (trans A) K) A).
Proof using add_zero_l stays one_mode one_state.
  unfold P1_of. rewrite one_mode, mix_one by apply wf_mk.
  unfold QAKA_of. by rewrite symmatu_product.
Qed.

Lemma one_P2 : P2_of inp K_next 0 = mmul (mmul (trans B) K) A.
Proof using add_zero_l stays one_mode.
  unfold P2_of. by rewrite one_mode, mix_one by apply wf_mk.
Qed.

Lemma one_P3 : P3_of inp K_next 0 = madd R (mmul (mmul (trans B) K) B).
Proof using add_zero_l stays one_mode one_input.
  unfold P3_of. rewrite one_mode, mix_one by apply wf_mk.
  unfold RBKB_of. by rewrite symmatu_product.
Qed.

Lemma one_s1 : s1_of inp sigma_next 0 = mmul (trans A) sigma.
Proof using add_zero_l stays one_mode.
  unfold s1_of. by rewrite one_mode, mix_one by apply wf_mk.
Qed.

Lemma one_s2 : s2_of inp sigma_next 0 = mmul (trans B) sigma.
Proof using add_zero_l stays one_mode.
  unfold s2_of. by rewrite one_mode, mix_one by apply wf_mk.
Qed.

(** One step of the single-mode recursion is what mode 0 of a stage
    does. *)
Lemma one_step k K_j sigma_j G f rest :
  K_of pinv inp K_next 0 = Some K_j →
  sigma_of pinv inp K_next sigma_next k 0 = Some sigma_j →
  gain_of pinv inp K_next 0 = Some G →
  feedforward_of pinv inp K_next sigma_next 0 = Some f →
  standard_recursion pinv A B Q R (refWeightings inp) k K_j sigma_j
    = Some rest →
  standard_recursion pinv A B Q R (refWeightings inp) (S k) K sigma
    = Some (rest ++ [(G, f)]).
Proof using add_zero_l stays one_mode one_state one_input.
  unfold K_of, sigma_of, gain_of, feedforward_of.
  rewrite one_P1, one_P2, one_P3, one_s1, one_s2.
  cbn [standard_recursion].
  destruct (pinv _) as [Pi|]; [|done]. cbn [mbind option_bind].
  rewrite symmatu_one;
    [|by rewrite !n_rows_mmul, n_rows_trans, !n_cols_mmul
     |by rewrite !n_cols_mmul|apply wf_mk].
  intros [= <-] [= <-] [= <-] [= <-] ->. done.
Qed.

End Next.

Variable h : heap F.
Hypothesis run_inp : mexFunction pinv mx_can_alloc inp no_outputs = (h, Ok ()).

(** The single-mode recursion over the stages below [k1], started in
    the state in which the call leaves stage [k1]. *)
Lemma one_mode_stages k1 h1 K_k sigma_k :
  k1 ≤ N →
  state_after_stage pinv mx_can_alloc inp k1 no_outputs
    = (h1, Ok (K_k, sigma_k)) →
  ∃ l,
    standard_recursion pinv A B Q R (refWeightings inp) k1
                       (slice_of K_k 0) (col_of sigma_k 0) = Some l ∧
    length l = k1 ∧
    ∀ k, k < k1 →
      ∃ G f, l !! k = Some (G, f) ∧
             emitted_gain inp h k 0 = Some G ∧
             emitted_feedforward inp h k 0 = Some f.
Proof using add_zero_l stays one_mode one_state one_input run_inp.
  revert h1 K_k sigma_k. induction k1 as [|k IH]; intros h1 K_k sigma_k Hk Hst.
  - exists []. split; [done|]. split; [done|]. intros k Hk'. lia.
  - destruct (run_stage _ _ _ _ k run_inp)
      as (h1' & vf1 & h2 & [K' sigma'] & Hb & Hstage & Haf & _); [lia|].
    assert (vf1 = (K_k, sigma_k)) as ->.
    { unfold state_before_stage in Hb. unfold state_after_stage in Hst.
      replace (N - S k) with (N - 1 - k) in Hst by lia. congruence. }
    destruct (run_emitted _ _ _ _ k 0 run_inp)
      as (h1'' & K2 & sigma2 & Hb2 & (G & HG & HGe) & (f & Hf & Hfe));
      [lia|lia|].
    assert ((K2, sigma2) = (K_k, sigma_k)) as [= -> ->] by congruence.
    apply stage_Ok in Hstage as (Hdone & _); [|done|done].
    destruct (Hdone 0) as [(K_j & HK & HKs) (s_j & Hs & Hss) _ _]; [lia|].
    simpl in HK, Hs, HKs, Hss.
    destruct (IH h2 K' sigma') as (rest & Hrest & Hlen & Hall); [lia|done|].
    assert (slice_of K' 0 = K_j) as HK'
      by (apply slice_Ok in HKs; by apply slice_of_lookup).
    assert (col_of sigma' 0 = s_j) as Hs'.
    { apply col_Ok in Hss as (c & Hc & ->). by apply col_of_lookup. }
    rewrite HK', Hs' in Hrest.
    exists (rest ++ [(G, f)]). split; [by eapply one_step|].
    split; [rewrite length_app; simpl; lia|].
    intros k' Hk'. destruct (decide (k' = k)) as [->|Hne].
    + exists G, f. split; [|done].
      rewrite lookup_app_r by lia. by rewrite Hlen, Nat.sub_diag.
    + destruct (Hall k') as (G' & f' & Hl & ? & ?); [lia|].
      exists G', f'. split; [|done]. by rewrite lookup_app_l by lia.
Qed.

End OneModeOneState.

(** X11.  Where the call completes for one mode, with one state and one
    input, it is the single-mode recursion: with a transition matrix
    whose entry acts as [1] and in an arithmetic where [0 + x = x], the
    gain and the feedforward term written for every stage are those of
    the finite-horizon tracking recursion of [(A, B, Q, R)], run
    backwards from the terminal cost and the last column of the
    reference weightings. *)
Theorem one_mode_one_state_reduction {F : Type} `{Scalar F}
    (pinv : mat F → option (mat F)) (mx_can_alloc : list Z → bool)
    (inp : inputs (F:=F)) (h : heap F) :
  (∀ x : F, add zero x = x) → (∀ x : F, mul (T_ inp 0 0) x = x) →
  numModes inp = 1 → n_cols (A_ inp 0) = 1 → n_cols (B_ inp 0) = 1 →
  mexFunction pinv mx_can_alloc inp no_outputs = (h, Ok ()) →
  ∃ last_col l,
    tail_cols1 (refWeightings inp) = Ok last_col ∧
    standard_recursion pinv (A_ inp 0) (B_ inp 0) (Q_ inp 0) (R_ inp 0)
                       (refWeightings inp) (Z.to_nat (horizonLength inp))
                       (terminalK inp) last_col = Some l ∧
    ∀ k, k < Z.to_nat (horizonLength inp) →
      ∃ G f, l !! k = Some (G, f) ∧
             emitted_gain inp h k 0 = Some G ∧
             emitted_feedforward inp h k 0 = Some f.
Proof.
  intros Hadd Hstay HM Hn Hp Hrun.
  pose proof Hrun as Hrun'. unfold mexFunction in Hrun'.
  apply mex_bind_Ok in Hrun' as (h0 & [] & Hc & Hrun').
  apply mex_bind_Ok in Hrun' as (? & [K0 sigma0] & [-> Hi]%lift_Ok & _).
  destruct (one_mode_stages pinv mx_can_alloc inp Hadd Hstay HM Hn Hp h Hrun
              (Z.to_nat (horizonLength inp)) h0 K0 sigma0)
    as (l & Hl & _ & Hall); [lia| |].
  { unfold state_after_stage. rewrite Nat.sub_diag.
    apply mex_bind_Ok. exists h0, (). split; [done|].
    apply mex_bind_Ok. exists h0, (K0, sigma0). split; [by apply lift_Ok|].
    destruct (Z.to_nat (horizonLength inp)); by apply mex_ret_Ok. }
  unfold initial_state in Hi. rewrite HM in Hi. ok_steps.
  match goal with Ht : tail_cols1 _ = Ok ?c |- _ =>
    rename Ht into Hlast; exists c end.
  match goal with He : each_slice _ _ _ _ = Ok _ |- _ =>
    unfold each_slice in He; destruct (_ && _); [|done]; injection He as <- end.
  match goal with He : each_col _ _ _ = Ok _ |- _ =>
    unfold each_col in He; pose proof Hlast as Hlast';
    unfold tail_cols1 in Hlast'; destruct (last _) as [c0|]; [|done];
    injection Hlast' as <-; simpl in He;
    destruct (_ =? _); [|done]; injection He as <- end.
  exists l. split; [done|]. split; [|done]. exact Hl.
Qed.

(** X11: the unit integrator, over the integers. *)
Lemma one_mode_one_state_reduction_witness :
  ∃ last_col l,
    tail_cols1 (refWeightings unit_integrator) = Ok last_col ∧
    standard_recursion pinvZ (A_ unit_integrator 0) (B_ unit_integrator 0)
                       (Q_ unit_integrator 0) (R_ unit_integrator 0)
                       (refWeightings unit_integrator)
                       (Z.to_nat (horizonLength unit_integrator))
                       (terminalK unit_integrator) last_col = Some l ∧
    ∀ k, k < Z.to_nat (horizonLength unit_integrator) →
      ∃ G f, l !! k = Some (G, f) ∧
             emitted_gain unit_integrator
               (mexFunction pinvZ always_alloc unit_integrator no_outputs).1 k 0
               = Some G ∧
             emitted_feedforward unit_integrator
               (mexFunction pinvZ always_alloc unit_integrator no_outputs).1 k 0
               = Some f.
Proof.
  apply (one_mode_one_state_reduction pinvZ always_alloc unit_integrator).
  - intros x. reflexivity.
  - intros x. simpl. by destruct x.
  - reflexivity.
  - reflexivity.
  - reflexivity.
  - vm_compute. reflexivity.
Defined.

(** ** The state in which the loop is entered; [B] against [R] *)

Section EntryState.
Context {F : Type} `{Scalar F}.
Variable pinv : mat F → option (mat F).
Variable mx_can_alloc : list Z → bool.
Variable inp : inputs (F:=F).

Local Abbreviation M := (numModes inp).
Local Abbreviation N := (Z.to_nat (horizonLength inp)).

(** What lines 61-66 make. *)
Lemma initial_state_is vf :
  initial_state inp = Ok vf →
  ∃ last_col,
    tail_cols1 (refWeightings inp) = Ok last_col ∧
    col (refWeightings inp) (n_cols (refWeightings inp) - 1) = Ok last_col ∧
    n_slices vf.1 = M ∧ n_cols vf.2 = M ∧
    ∀ i, i < M → slice vf.1 i = Ok (terminalK inp) ∧ col vf.2 i = Ok last_col.
Proof.
  unfold initial_state. intros Hi. ok_steps.
  match goal with Ht : tail_cols1 _ = Ok ?c |- _ =>
    rename Ht into Hlast; exists c end.
  match goal with He : each_slice _ _ _ _ = Ok _ |- _ =>
    unfold each_slice in He; destruct (_ && _); [|done]; injection He as <- end.
  split; [done|]. pose proof Hlast as Hlast'.
  unfold tail_cols1 in Hlast'. rewrite last_lookup in Hlast'.
  destruct (cols (refWeightings inp) !! _) as [c0|] eqn:Hc0; [|done].
  injection Hlast' as <-.
  match goal with He : each_col _ _ _ = Ok _ |- _ =>
    unfold each_col in He; simpl in He;
    destruct (_ =? _); [|done]; injection He as <- end.
  split.
  { unfold col, n_cols. by rewrite Nat.sub_1_r, Hc0. }
  split; [unfold n_slices; simpl; apply length_replicate|].
  split; [unfold n_cols; simpl; apply length_replicate|].
  intros i Hi. unfold slice, col. simpl. by rewrite !lookup_replicate_2.
Qed.

(** C6, as the code has it.  When the output arrays can be made, the
    terminal cost has the shape of the slices of [augA] and the
    reference weightings have a column (the preconditions give both),
    the call is the loop of lines 74-119 run on the fresh arrays from a
    state that is the same for every mode [i]: [K[i]] is the terminal
    cost, [σ[i]] the last column of the reference weightings, whatever
    its index.  That is the column of index [horizonLength] when the
    reference weightings have [horizonLength + 1] columns; it is the
    state in which stage [horizonLength - 1] is entered. *)
Theorem initial_value_function :
  room_for_outputs inp mx_can_alloc = true →
  terminal_shape inp → 0 < n_cols (refWeightings inp) →
  ∃ a0 a1 K sigma last_col,
    mexFunction pinv mx_can_alloc inp no_outputs
      = (stage_loop pinv inp N
           ((horizonLength inp - 1) * L_stride inp)
           ((horizonLength inp - 1) * feedforward_stride inp) (K, sigma)
         ≫= λ _, mret ()) (Heap (Some a0) (Some a1)) ∧
    unwritten a0 ∧ unwritten a1 ∧
    state_before_stage pinv mx_can_alloc inp (N - 1) no_outputs
      = (Heap (Some a0) (Some a1), Ok (K, sigma)) ∧
    n_slices K = M ∧ n_cols sigma = M ∧
    tail_cols1 (refWeightings inp) = Ok last_col ∧
    col (refWeightings inp) (n_cols (refWeightings inp) - 1) = Ok last_col ∧
    (n_cols (refWeightings inp) = S N →
     col (refWeightings inp) N = Ok last_col) ∧
    ∀ i, i < M → slice K i = Ok (terminalK inp) ∧ col sigma i = Ok last_col.
Proof.
  intros Hroom Hshape Hcol.
  destruct (call_before_the_loop mx_can_alloc inp Hroom)
    as (a0 & a1 & Hc & Hu0 & Hu1 & _).
  destruct (proj2 (initial_state_passes inp) (conj Hshape Hcol))
    as ([K sigma] & Hi).
  destruct (initial_state_is _ Hi) as (last_col & Hlast & Hlc & HK & Hs & Hall).
  exists a0, a1, K, sigma, last_col.
  split; [|do 2 (split; [done|]); split; [|do 4 (split; [done|]); split]].
  - unfold mexFunction.
    erewrite mex_bind_run_Ok by exact Hc.
    erewrite mex_bind_run_Ok by (unfold lift; by rewrite Hi).
    reflexivity.
  - unfold state_before_stage.
    erewrite mex_bind_run_Ok by exact Hc.
    erewrite mex_bind_run_Ok by (unfold lift; by rewrite Hi).
    by rewrite Nat.sub_diag.
  - intros Hn. rewrite Hn in Hlc. by replace (S N - 1) with N in Hlc by lia.
  - exact Hall.
Qed.

(** C2, as the code has it.  There is no validation of the arguments
    and no condition of its own for their dimensions: the first thing
    the call does is to make the output arrays.  When [B] has not as
    many columns as [R] has rows and columns (with at least one mode
    and one stage, and well-formed [augB], [augR]), the call fails:
    with the allocation failure of lines 53-57 when MATLAB has no room
    for the arrays; otherwise on a check of Armadillo, after both
    output arrays have been made and before any cell of them is
    written.  That check is the one of line 62 or 66 when the terminal
    cost or the reference weightings fail it, and otherwise a check in
    the iteration for mode 0 of the per-mode loop (lines 87-93) of the
    first stage done, stage [horizonLength - 1]. *)
Theorem dimension_mismatch_after_allocation :
  wf_cube (augB inp) = true → wf_cube (augR inp) = true →
  0 < N → 0 < M →
  c_cols (augB inp) ≠ c_rows (augR inp) ∨ c_cols (augB inp) ≠ c_cols (augR inp) →
  (room_for_outputs inp mx_can_alloc = false ∧
   ∃ h, mexFunction pinv mx_can_alloc inp no_outputs
          = (h, Err AllocationFailed)) ∨
  (room_for_outputs inp mx_can_alloc = true ∧
   ∃ a0 a1 c,
     mexFunction pinv mx_can_alloc inp no_outputs
       = (Heap (Some a0) (Some a1), Err (LogicError c)) ∧
     unwritten a0 ∧ unwritten a1 ∧
     (initial_state inp = Err (LogicError c) ∨
      ∃ vf,
        initial_state inp = Ok vf ∧
        state_before_stage pinv mx_can_alloc inp (N - 1) no_outputs
          = (Heap (Some a0) (Some a1), Ok vf) ∧
        per_mode_step inp vf.1 vf.2 (per_mode_init inp) 0
          = Err (LogicError c))).
Proof.
  intros HwB HwR HN HM Hmis.
  destruct (room_for_outputs inp mx_can_alloc) eqn:Hroom.
  2:{ left. split; [done|].
      destruct (call_without_room pinv _ _ Hroom) as (h & Hrun & _). eauto. }
  right. split; [done|].
  destruct (call_before_the_loop mx_can_alloc inp Hroom)
    as (a0 & a1 & Hc & Hu0 & Hu1 & _).
  exists a0, a1.
  destruct (initial_state inp) as [vf|e] eqn:Hinit.
  2:{ destruct (logic_only_initial_state inp e Hinit) as (c & ->).
      exists c. split; [|by eauto].
      unfold mexFunction. erewrite mex_bind_run_Ok by exact Hc.
      apply mex_bind_run_Err. unfold lift. by rewrite Hinit. }
  assert (∃ c, per_mode_step inp vf.1 vf.2 (per_mode_init inp) 0
               = Err (LogicError c)) as (c & Hstep).
  { destruct (per_mode_step inp vf.1 vf.2 (per_mode_init inp) 0)
      as [t'|e] eqn:Hstep.
    - apply per_mode_step_B_R in Hstep; [lia|done|done].
    - destruct (logic_only_per_mode_step _ _ _ _ _ e Hstep) as (c & ->).
      by exists c. }
  exists c. split; [|split; [done|split; [done|right]]].
  - unfold mexFunction. erewrite mex_bind_run_Ok by exact Hc.
    erewrite mex_bind_run_Ok by (unfold lift; by rewrite Hinit).
    apply mex_bind_run_Err.
    destruct N as [|k]; [lia|]. cbn [stage_loop]. apply mex_bind_run_Err.
    unfold stage. apply mex_bind_run_Err. unfold lift. do 2 f_equal.
    unfold per_mode_loop. destruct M as [|M']; [lia|].
    cbn [seq foldO]. by rewrite Hstep.
  - exists vf. split; [done|]. split; [|done].
    unfold state_before_stage.
    erewrite mex_bind_run_Ok by exact Hc.
    erewrite mex_bind_run_Ok by (unfold lift; by rewrite Hinit).
    by rewrite Nat.sub_diag.
Qed.

End EntryState.

(** C2: two columns in [B] against a 1-by-1 [R]. *)
Lemma dimension_mismatch_after_allocation_witness :
  (room_for_outputs B_against_R always_alloc = false ∧
   ∃ h, run B_against_R = (h, Err AllocationFailed)) ∨
  (room_for_outputs B_against_R always_alloc = true ∧
   ∃ a0 a1 c,
     run B_against_R = (Heap (Some a0) (Some a1), Err (LogicError c)) ∧
     unwritten a0 ∧ unwritten a1 ∧
     (initial_state B_against_R = Err (LogicError c) ∨
      ∃ vf,
        initial_state B_against_R = Ok vf ∧
        state_before_stage pinvQ always_alloc B_against_R
          (Z.to_nat (horizonLength B_against_R) - 1) no_outputs
          = (Heap (Some a0) (Some a1), Ok vf) ∧
        per_mode_step B_against_R vf.1 vf.2 (per_mode_init B_against_R) 0
          = Err (LogicError c))).
Proof.
  apply (dimension_mismatch_after_allocation pinvQ always_alloc B_against_R).
  - reflexivity.
  - reflexivity.
  - vm_compute. lia.
  - vm_compute. lia.
  - left. vm_compute. lia.
Defined.

(** C6: three columns for two stages. *)
Lemma initial_value_function_witness :
  ∃ a0 a1 K sigma last_col,
    run two_mode_system
      = (stage_loop pinvQ two_mode_system
           (Z.to_nat (horizonLength two_mode_system))
           ((horizonLength two_mode_system - 1) * L_stride two_mode_system)
           ((horizonLength two_mode_system - 1)
            * feedforward_stride two_mode_system) (K, sigma)
         ≫= λ _, mret ()) (Heap (Some a0) (Some a1)) ∧
    unwritten a0 ∧ unwritten a1 ∧
    state_before_stage pinvQ always_alloc two_mode_system
      (Z.to_nat (horizonLength two_mode_system) - 1) no_outputs
      = (Heap (Some a0) (Some a1), Ok (K, sigma)) ∧
    n_slices K = numModes two_mode_system ∧
    n_cols sigma = numModes two_mode_system ∧
    tail_cols1 (refWeightings two_mode_system) = Ok last_col ∧
    col (refWeightings two_mode_system)
        (n_cols (refWeightings two_mode_system) - 1) = Ok last_col ∧
    (n_cols (refWeightings two_mode_system)
       = S (Z.to_nat (horizonLength two_mode_system)) →
     col (refWeightings two_mode_system)
         (Z.to_nat (horizonLength two_mode_system)) = Ok last_col) ∧
    ∀ i, i < numModes two_mode_system →
      slice K i = Ok (terminalK two_mode_system) ∧ col sigma i = Ok last_col.
Proof.
  apply (initial_value_function pinvQ always_alloc two_mode_system).
  - reflexivity.
  - split; reflexivity.
  - vm_compute. lia.
Defined.

(** C6 as worded fails: with four columns of reference weightings for
    two stages the preconditions hold, and [σ] starts as the column of
    index 3, not as the column of index [horizonLength] = 2; the
    feedforward term written for stage 1 is not the one that the column
    of index 2 would give. *)
Lemma initial_sigma_is_not_column_N :
  preconditions four_column_reference 2 2 = true ∧
  ∃ h h1 K sigma,
    run four_column_reference = (h, Ok ()) ∧
    state_before_stage pinvQ always_alloc four_column_reference 1 no_outputs
      = (h1, Ok (K, sigma)) ∧
    col sigma 0 = Ok (Mat 2 [[2; 3]]%Q) ∧
    col (claimed_initial_sigma four_column_reference) 0
      = Ok (Mat 2 [[1; 1]]%Q) ∧
    sigma ≠ claimed_initial_sigma four_column_reference ∧
    emitted_feedforward four_column_reference h 1 0
      = Some (Mat 2 [[1; 1]]%Q) ∧
    feedforward_of pinvQ four_column_reference K
                   (claimed_initial_sigma four_column_reference) 0
      = Some (Mat 2 [[1#3; 1#3]]%Q).
Proof.
  split; [vm_compute; reflexivity|].
  eexists _, _, _, _.
  split; [vm_compute; reflexivity|].
  split; [vm_compute; reflexivity|].
  split; [vm_compute; reflexivity|].
  split; [vm_compute; reflexivity|].
  split; [vm_compute; discriminate|].
  split; vm_compute; reflexivity.
Qed.
